(** * GoSlice: clip engine front end, slicer clean-up, support modifiers
      and the pre-layer renderer

    A shallow embedding of the parts of GoSlice that the specification
    makes checkable statements about:

    - [clip/clipper.go]: point filtering in [GenerateLayerParts], the
      offsets used by [Inset], and [Fill] / [getLinearFill];
    - the slicer's [layer.makePolygons] clean-up loop and
      [layer.removeLastPoint];
    - [modifier/support.go]: [FullSupport], the support detector and the
      support generator;
    - [gcode/renderer]: [PreLayer.Render].

    Micrometers are unbounded integers, [Z] (the data model asks for a
    range of at least 64 bits; overflow of coordinates is outside the
    model), while arithmetic on Go's [int] wraps around as written.  Go
    slices whose nil-ness the code tests are [option (list _)] with [None]
    for the nil slice.  The polygon clipping library (go.clipper) is not
    part of the repository: its entry points are parameters of the
    sections that use them. *)

From Stdlib Require Import ZArith List Lia QArith Qround.
From stdpp Require Import base option list gmap strings.

Local Open Scope Z_scope.
Local Set Warnings "-register-all".

(** ** Geometry primitives (package [data]) *)

Module Data.

(** A point in integer micrometers. *)
Record MicroPoint := NewMicroPoint { X : Z; Y : Z }.

Definition Path := list MicroPoint.

Record LayerPart := NewUnknownLayerPart { Outline : Path; Holes : list Path }.

#[global] Instance MicroPoint_eq_dec : EqDecision MicroPoint.
Proof. solve_decision. Defined.

#[global] Instance LayerPart_eq_dec : EqDecision LayerPart.
Proof. solve_decision. Defined.

(** Modelled from the spec: [MicroPoint.Sub] lives in package [data],
    which is not among the sources; section 4.A names it as the
    coordinate-wise subtraction. *)
Definition Sub (p q : MicroPoint) : MicroPoint :=
  NewMicroPoint (X p - X q) (Y p - Y q).

(** The squared magnitude both comparisons below work on. *)
Definition sqMagnitude (p : MicroPoint) : Z := X p * X p + Y p * Y p.

(** Modelled from the spec: [ShorterThan(d)] and [ShorterThanOrEqual(d)]
    are methods of package [data]; section 4.A gives them as comparisons
    of squared magnitudes, strict and non-strict. *)
Definition ShorterThan (p : MicroPoint) (d : Z) : bool :=
  sqMagnitude p <? d * d.

Definition ShorterThanOrEqual (p : MicroPoint) (d : Z) : bool :=
  sqMagnitude p <=? d * d.

(** [path[i]] for an index the caller keeps in range. *)
Definition pointAt (path : Path) (i : nat) : MicroPoint :=
  nth i path (NewMicroPoint 0 0).

End Data.

(** ** Clip engine front end (package [clip]) *)

Module Clip.
Import Data.

(** The clipper library's own point type. *)
Record IntPoint := mkIntPoint { cX : Z; cY : Z }.

Definition clipperPoint (p : MicroPoint) : IntPoint :=
  {| cX := X p; cY := Y p |}.

Definition clipperPath (p : Path) : list IntPoint := map clipperPoint p.

Definition clipperPaths (p : list Path) : list (list IntPoint) :=
  map clipperPath p.

Definition microPoint (p : IntPoint) : MicroPoint :=
  NewMicroPoint (cX p) (cY p).

(** [microPath p false]: the call sites modelled here never simplify. *)
Definition microPath (p : list IntPoint) : Path := map microPoint p.

Definition microPaths (p : list (list IntPoint)) : list Path :=
  map microPath p.

(** *** [GenerateLayerParts]: dropping points that are too near *)

(** The loop state is the path built so far and [prev], the index of the
    last point that was kept. *)
Definition filterStep (layerPolygon : Path)
    (st : list IntPoint * nat) (j : nat) (layerPoint : MicroPoint)
    : list IntPoint * nat :=
  let '(path, prev) := st in
  if (j =? 0)%nat then
    (path ++ [clipperPoint (pointAt layerPolygon 0)], prev)
  else if ShorterThanOrEqual
            (Sub layerPoint (pointAt layerPolygon prev)) 100
  then (path, prev)
  else (path ++ [clipperPoint layerPoint], j).

(** [for j, layerPoint := range layerPolygon], started at index [j]. *)
Fixpoint filterLoop (layerPolygon : Path) (j : nat) (rest : Path)
    (st : list IntPoint * nat) : list IntPoint * nat :=
  match rest with
  | [] => st
  | layerPoint :: rest' =>
      filterLoop layerPolygon (S j) rest'
        (filterStep layerPolygon st j layerPoint)
  end.

Definition filterPolygon (layerPolygon : Path) : list IntPoint :=
  fst (filterLoop layerPolygon 0 layerPolygon ([], 0%nat)).

(** The polygon list handed to the clipper by [GenerateLayerParts]. *)
Definition polyList (polygons : list Path) : list (list IntPoint) :=
  map filterPolygon polygons.

(** The filter as the specification words it: walk the points carrying
    the last kept point; [drop p last] says when [p] is discarded. *)
Fixpoint keepFrom (drop : MicroPoint -> MicroPoint -> bool)
    (last : MicroPoint) (rest : Path) : Path :=
  match rest with
  | [] => []
  | p :: rest' =>
      if drop p last then keepFrom drop last rest'
      else p :: keepFrom drop p rest'
  end.

Definition keepPoints (drop : MicroPoint -> MicroPoint -> bool)
    (polygon : Path) : Path :=
  match polygon with
  | [] => []
  | p0 :: rest => p0 :: keepFrom drop p0 rest
  end.

(** Squared Euclidean distance between two points, in square micrometers. *)
Definition distSq (p q : MicroPoint) : Z := sqMagnitude (Sub p q).

(** Distance strictly below 100 micrometers. *)
Definition nearerThan100 (p last : MicroPoint) : bool :=
  distSq p last <? 100 * 100.

(** Distance of at most 100 micrometers. *)
Definition within100 (p last : MicroPoint) : bool :=
  distSq p last <=? 100 * 100.

(** *** Numbers and the clipping library *)

(** Two's-complement wrap-around of Go's 64-bit [int]. *)
Definition wrap64 (z : Z) : Z := (z + 2 ^ 63) mod 2 ^ 64 - 2 ^ 63.

(** Go's floating-point arithmetic as the clip package uses it:
    [float32] for the overlap in [getLinearFill], [float64] for the
    deltas given to the offsetter.  The operations are an interface, so
    that nothing below depends on how they round. *)
Record FloatOps := {
  f32 : Type;
  f64 : Type;
  f32_of_int : Z -> f32;
  f32_sub : f32 -> f32 -> f32;
  f32_mul : f32 -> f32 -> f32;
  f32_div : f32 -> f32 -> f32;
  f32_neg : f32 -> f32;
  f64_of_f32 : f32 -> f64;
  f64_of_int : Z -> f64;
  f64_sub : f64 -> f64 -> f64
}.

(** A node of the clipper's [PolyTree]. *)
Inductive PolyNode := mkPolyNode {
  Contour : list IntPoint;
  Childs : list PolyNode
}.

(** The entry points of go.clipper that the package calls.
    - [offsetExecute paths delta]: a [ClipperOffset] holding [paths]
      (added with [JtSquare], [EtClosedPolygon]), [MiterLimit = 2],
      [Execute(delta)];
    - [offsetExecute2]: the same with [Execute2], giving a tree;
    - [intersectOpen clip lines]: a [Clipper] holding the closed paths
      [clip] as [PtClip] and the open paths [lines] as [PtSubject],
      [Execute2(CtIntersection, PftEvenOdd, PftEvenOdd)]; [None] when
      the library reports failure;
    - [unionEvenOdd subject]: a [Clipper] holding the closed paths
      [subject] as [PtSubject],
      [Execute2(CtUnion, PftEvenOdd, PftEvenOdd)]. *)
Record ClipperLib (fl : FloatOps) := {
  offsetExecute : list (list IntPoint) -> f64 fl -> list (list IntPoint);
  offsetExecute2 : list (list IntPoint) -> f64 fl -> PolyNode;
  intersectOpen :
    list (list IntPoint) -> list (list IntPoint) -> option PolyNode;
  unionEvenOdd : list (list IntPoint) -> option PolyNode
}.
Arguments offsetExecute {fl}.
Arguments offsetExecute2 {fl}.
Arguments intersectOpen {fl}.
Arguments unionEvenOdd {fl}.

(** *** [polyTreeToLayerParts] *)

(** The part made of a node: its contour, and its children's contours as
    holes. *)
Definition partOf (p : PolyNode) : LayerPart :=
  NewUnknownLayerPart (microPath (Contour p))
    (map (fun child => microPath (Contour child)) (Childs p)).

(** The children of the node's children, kept for the next round. *)
Definition grandChilds (p : PolyNode) : list PolyNode :=
  flat_map Childs (Childs p).

(** One pass of the inner [for _, p := range thisRound]: the parts of
    this round and the nodes kept for the next one. *)
Definition roundStep (acc : list LayerPart * list PolyNode) (p : PolyNode)
    : list LayerPart * list PolyNode :=
  let '(layerParts, polysForNextRound) := acc in
  (layerParts ++ [partOf p], polysForNextRound ++ grandChilds p).

(** The outer [for] runs once per level of the tree; [fuel] bounds the
    number of levels. *)
Fixpoint roundsLoop (fuel : nat) (polysForNextRound : list PolyNode)
    (layerParts : list LayerPart) : list LayerPart :=
  match fuel, polysForNextRound with
  | O, _ => layerParts
  | _, [] => layerParts
  | S fuel', thisRound =>
      let '(layerParts', next) :=
        fold_left roundStep thisRound (layerParts, []) in
      roundsLoop fuel' next layerParts'
  end.

Fixpoint height (n : PolyNode) : nat :=
  S (fold_right (fun c h => Nat.max (height c) h) O (Childs n)).

Definition maxHeight (nodes : list PolyNode) : nat :=
  fold_right (fun c h => Nat.max (height c) h) O nodes.

(** The loop runs until no node is left for a next round, which takes
    fewer rounds than the tree is high. *)
Definition polyTreeToLayerParts (tree : PolyNode) : list LayerPart :=
  roundsLoop (height tree) (Childs tree) [].

Section WithLibrary.
Context (fl : FloatOps) (lib : ClipperLib fl).
(** [Path.Size()], the bounding box [(min, max)] of a path; it belongs
    to package [data]. *)
Context (pathSize : Path -> MicroPoint * MicroPoint).

(** *** [GenerateLayerParts] *)

(** The parts of the layer and the [ok] flag; the layer made of no
    polygon at all has no parts. *)
Definition GenerateLayerParts (polygons : list Path)
    : option (list LayerPart) * bool :=
  match polyList polygons with
  | [] => (Some [], true)
  | paths =>
      match unionEvenOdd lib paths with
      | Some resultPolys => (Some (polyTreeToLayerParts resultPolys), true)
      | None => (None, false)
      end
  end.

(** *** [Inset] *)

(** The delta of inset number [insetNr]:
    [float64(-int(offset)*insetNr) - float64(offset/2)]. *)
Definition insetDelta (offset insetNr : Z) : f64 fl :=
  f64_sub fl
    (f64_of_int fl (wrap64 (wrap64 (- offset) * insetNr)))
    (f64_of_int fl (Z.quot offset 2)).

(** The paths the offsetter holds: the outline, then the holes. *)
Definition insetPaths (part : LayerPart) : list (list IntPoint) :=
  clipperPaths [Outline part] ++ clipperPaths (Holes part).

Definition Inset (part : LayerPart) (offset insetCount : Z)
    : list (list LayerPart) :=
  map (fun insetNr : nat =>
         polyTreeToLayerParts
           (offsetExecute2 lib (insetPaths part)
              (insetDelta offset (Z.of_nat insetNr))))
      (seq 0 (Z.to_nat insetCount)).

(** The offsets as the specification words them: [offset/2] for inset
    number 0 and [offset*i] for inset number [i >= 1]. *)
Definition insetDeltaAsSpecified (offset insetNr : Z) : Z :=
  if insetNr =? 0 then Z.quot offset 2 else offset * insetNr.

Definition InsetLayer (layer : list LayerPart) (offset insetCount : Z)
    : list (list (list LayerPart)) :=
  map (fun part => Inset part offset insetCount) layer.

(** *** [Fill] and [getLinearFill] *)

(** One scanline at [x]; odd lines run from [maxY] down to [minY]. *)
Definition scanLine (numLine x minY maxY : Z) : list IntPoint :=
  if Z.rem numLine 2 =? 1
  then [mkIntPoint x maxY; mkIntPoint x minY]
  else [mkIntPoint x minY; mkIntPoint x maxY].

(** [for x := minScanlines.X(); x <= maxScanlines.X(); x += lineWidth].
    [None] when [fuel] iterations did not reach the end. *)
Fixpoint scanLoop (fuel : nat) (minScanlines maxScanlines : MicroPoint)
    (lineWidth x numLine : Z) (lines : list (list IntPoint))
    : option (list (list IntPoint)) :=
  if x <=? X maxScanlines then
    match fuel with
    | O => None
    | S fuel' =>
        scanLoop fuel' minScanlines maxScanlines lineWidth
          (x + lineWidth) (numLine + 1)
          (lines ++ [scanLine numLine x (Y minScanlines) (Y maxScanlines)])
    end
  else Some lines.

(** With [lineWidth >= 1] the loop ends within
    [max.X - min.X + 1] iterations; with [lineWidth <= 0] and
    [min.X <= max.X] it never ends, which [None] stands for. *)
Definition scanLines (minScanlines maxScanlines : MicroPoint)
    (lineWidth : Z) : option (list (list IntPoint)) :=
  scanLoop (Z.to_nat (X maxScanlines - X minScanlines + 1))
    minScanlines maxScanlines lineWidth (X minScanlines) 0 [].

(** [float32(lineWidth) * (100.0 - float32(overlapPercentage)) / 100.0] *)
Definition overlap (lineWidth overlapPercentage : Z) : f32 fl :=
  f32_div fl
    (f32_mul fl (f32_of_int fl lineWidth)
       (f32_sub fl (f32_of_int fl 100) (f32_of_int fl overlapPercentage)))
    (f32_of_int fl 100).

(** The region the lines are clipped by: the outline itself, or its
    offset by [float64(-overlap)] when [overlapPercentage != 0]. *)
Definition fillInset (outline : list IntPoint)
    (lineWidth overlapPercentage : Z) : list (list IntPoint) :=
  if overlapPercentage =? 0 then [outline]
  else offsetExecute lib [outline]
         (f64_of_f32 fl (f32_neg fl (overlap lineWidth overlapPercentage))).

(** Clip [lines] by [inset] and [holes]; the result is the contours of
    the tree's children, or nothing when the library fails. *)
Definition clipLines (inset holes lines : list (list IntPoint))
    : list (list IntPoint) :=
  match intersectOpen lib (inset ++ holes) lines with
  | Some tree => map Contour (Childs tree)
  | None => []
  end.

Definition getLinearFill (outline : list IntPoint)
    (holes : list (list IntPoint)) (minScanlines maxScanlines : MicroPoint)
    (lineWidth overlapPercentage : Z) : option (list (list IntPoint)) :=
  lines ← scanLines minScanlines maxScanlines lineWidth;
  Some (clipLines (fillInset outline lineWidth overlapPercentage)
          holes lines).

Definition Fill (paths : LayerPart) (lineWidth overlapPercentage : Z)
    : option (list Path) :=
  let '(min, max) := pathSize (Outline paths) in
  let cPath := clipperPath (Outline paths) in
  let cHoles := clipperPaths (Holes paths) in
  result ← getLinearFill cPath cHoles min max lineWidth overlapPercentage;
  Some (microPaths result).

(** What the specification says [Fill] returns: the scanlines clipped by
    the outline inset by [lineWidth * (100 - overlapPercent) / 100],
    whatever the percentage, and by the holes. *)
Definition fillInsetAlways (outline : list IntPoint)
    (lineWidth overlapPercentage : Z) : list (list IntPoint) :=
  offsetExecute lib [outline]
    (f64_of_f32 fl (f32_neg fl (overlap lineWidth overlapPercentage))).

Definition FillAsSpecified (paths : LayerPart)
    (lineWidth overlapPercentage : Z) : option (list Path) :=
  let '(min, max) := pathSize (Outline paths) in
  lines ← scanLines min max lineWidth;
  Some (microPaths
          (clipLines
             (fillInsetAlways (clipperPath (Outline paths))
                lineWidth overlapPercentage)
             (clipperPaths (Holes paths)) lines)).

(** The scanlines in closed form: line number [k] stands at
    [min.X + k * lineWidth]. *)
Definition scanLinesClosedForm (min max : MicroPoint) (lineWidth : Z)
    : list (list IntPoint) :=
  map (fun k : nat =>
         scanLine (Z.of_nat k) (X min + Z.of_nat k * lineWidth)
           (Y min) (Y max))
      (seq 0 (Z.to_nat ((X max - X min) / lineWidth + 1))).

End WithLibrary.

(** *** Descriptions used by the properties of the clip package *)

(** The nodes [2 * k] levels below [nodes]. *)
Fixpoint evenLevel (k : nat) (nodes : list PolyNode) : list PolyNode :=
  match k with
  | O => nodes
  | S k' => evenLevel k' (flat_map grandChilds nodes)
  end.

(** The number of nodes of a tree, and of a list of trees. *)
Fixpoint nodeCount (n : PolyNode) : nat :=
  S (fold_right (fun c total => (nodeCount c + total)%nat) O (Childs n)).

Definition forestCount (nodes : list PolyNode) : nat :=
  fold_right (fun c total => (nodeCount c + total)%nat) O nodes.

(** The number of contours a list of parts holds: one outline per part
    and its holes. *)
Definition contourCount (parts : list LayerPart) : nat :=
  fold_right (fun part total => (S (length (Holes part)) + total)%nat) O parts.

(** Every point of the path is more than 100 micrometers away from the
    point before it in the list.  The edge that closes a polygon, from
    its last point back to its first, is not looked at. *)
Definition consecutiveFar (path : Path) : Prop :=
  forall (i : nat) (p q : MicroPoint),
    path !! i = Some p -> path !! S i = Some q -> 100 * 100 < distSq q p.

End Clip.

(** ** Slicer clean-up (package [slice], [layer.makePolygons]) *)

Module Slice.
Import Data.

(** The fields of [layer] that the clean-up reads and writes.  A polygon
    erased by the merging pass is the nil path, [None]. *)
Record layer := mkLayer {
  polygons : list (option Path);
  closed : list bool
}.

(** [len(p)] of a possibly nil path. *)
Definition pathLen (p : option Path) : nat :=
  match p with
  | Some points => length points
  | None => 0
  end.

(** The slice expression [p[:n]]. *)
Definition sliceTo (p : option Path) (n : nat) : option Path :=
  match p with
  | Some points => Some (take n points)
  | None => None
  end.

(** [l.polygons[polyIndex] = l.polygons[polyIndex][:len(l.polygons[polyIndex])]];
    [None] is the index-out-of-range panic. *)
Definition removeLastPoint (l : layer) (polyIndex : nat) : option layer :=
  match polygons l !! polyIndex with
  | Some p =>
      Some {| polygons := <[polyIndex := sliceTo p (pathLen p)]> (polygons l);
              closed := closed l |}
  | None => None
  end.

(** [l.closed[i] = true] *)
Definition setClosed (l : layer) (i : nat) : option layer :=
  if decide (i < length (closed l))%nat
  then Some {| polygons := polygons l; closed := <[i := true]> (closed l) |}
  else None.

Section MakePolygons.
(** [MicroPoint.Size()], the length of a vector, and
    [Path.IsAlmostFinished(distance)] belong to package [data]. *)
Context (Size : MicroPoint -> Z) (IsAlmostFinished : Path -> Z -> bool).

(** [snapDistance] of the last pass. *)
Definition snapDistance : Z := 1000.

(** The inner loop [for n, point := range poly] that sums the segment
    lengths and stops early once a closed polygon is long enough. *)
Fixpoint lengthLoop (l : layer) (i : nat) (poly : Path) (n : nat)
    (rest : Path) (length : Z) : option Z :=
  match rest with
  | [] => Some length
  | point :: rest' =>
      if (n =? 0)%nat then lengthLoop l i poly (S n) rest' length
      else
        let length' := length + Size (Sub point (pointAt poly (n - 1))) in
        c ← closed l !! i;
        if c && (snapDistance <? length') then Some length'
        else lengthLoop l i poly (S n) rest' length'
  end.

(** One iteration of [for i, poly := range l.polygons] in the last pass. *)
Definition clearStep (l : layer) (clearedPolygons : list Path) (i : nat)
    (poly : option Path) : option (layer * list Path) :=
  match poly with
  | None => Some (l, clearedPolygons)
  | Some points =>
      l1 ← (if IsAlmostFinished points snapDistance
            then l' ← removeLastPoint l i; setClosed l' i
            else Some l);
      length ← lengthLoop l1 i points 0 points 0;
      p ← polygons l1 !! i;
      match p with
      | Some kept =>
          if snapDistance <? length then
            c ← closed l1 !! i;
            Some (l1, if c : bool then clearedPolygons ++ [kept]
                      else clearedPolygons)
          else Some (l1, clearedPolygons)
      | None => Some (l1, clearedPolygons)
      end
  end.

Fixpoint clearLoop (i : nat) (rest : list (option Path)) (l : layer)
    (clearedPolygons : list Path) : option (layer * list Path) :=
  match rest with
  | [] => Some (l, clearedPolygons)
  | poly :: rest' =>
      '(l', cleared') ← clearStep l clearedPolygons i poly;
      clearLoop (S i) rest' l' cleared'
  end.

(** The last pass of [makePolygons]: the layer as the loop leaves it and
    [clearedPolygons], which becomes [l.polygons]. *)
Definition clearPolygons (l : layer) : option (layer * list Path) :=
  clearLoop 0 (polygons l) l [].

(** Total length of a path: the sum of its segment lengths. *)
Fixpoint lengthFrom (prev : MicroPoint) (rest : Path) : Z :=
  match rest with
  | [] => 0
  | point :: rest' => Size (Sub point prev) + lengthFrom point rest'
  end.

Definition totalLength (poly : Path) : Z :=
  match poly with
  | [] => 0
  | p0 :: rest => lengthFrom p0 rest
  end.

(** Whether the last pass marks, or finds, the path closed. *)
Definition markedClosed (points : Path) (c : bool) : bool :=
  c || IsAlmostFinished points snapDistance.

(** The final list described path by path: [longEnough] decides on the
    total length. *)
Definition keepOne (longEnough : Z -> bool) (poly : option Path) (c : bool)
    : list Path :=
  match poly with
  | Some points =>
      if markedClosed points c && longEnough (totalLength points)
      then [points] else []
  | None => []
  end.

Fixpoint keptPolygons (longEnough : Z -> bool)
    (polys : list (option Path)) (cls : list bool) : list Path :=
  match polys, cls with
  | poly :: polys', c :: cls' =>
      keepOne longEnough poly c ++ keptPolygons longEnough polys' cls'
  | _, _ => []
  end.

(** Total length strictly above 1000 micrometers. *)
Definition longerThan1000 (len : Z) : bool := 1000 <? len.

(** Total length of at least 1000 micrometers. *)
Definition atLeast1000 (len : Z) : bool := 1000 <=? len.

End MakePolygons.

(** *** Stitching segments into polygons: the first loop of
    [makePolygons] *)

(** A segment of the cut through one face.  The field [end] of the
    source is [end_] here. *)
Record segment := mkSegment {
  start : MicroPoint;
  end_ : MicroPoint;
  faceIndex : Z;
  addedToPolygon : bool
}.

(** [currentSegment.addedToPolygon = true] *)
Definition markAdded (s : segment) : segment :=
  {| start := start s; end_ := end_ s; faceIndex := faceIndex s;
     addedToPolygon := true |}.

(** The layer while it is stitched: the segments (held by pointer in
    the source, so a flag set through one reference is seen by all) and
    the polygons with their flags. *)
Record stitching := mkStitching {
  segments : list segment;
  polys : layer
}.

Inductive WalkResult :=
| WalkDone (segs : list segment) (polygon : Path) (canClose : bool)
| WalkPanic
| WalkOutOfFuel.

Section Stitching.
(** [om.OptimizedFace(i).TouchingFaceIndices()]: the optimized model
    belongs to package [data]. *)
Context (touching : Z -> list Z).
(** [l.faceToSegmentIndex], which stitching only reads. *)
Context (faceToSegmentIndex : gmap Z Z).

(** The body of [for _, touchingFaceIndex := range ...]; the state is
    [canClose] and [nextIndex], with [None] for -1, and the whole is
    [None] after an index out of range. *)
Definition neighbourStep (segs : list segment) (startSegmentIndex : nat)
    (p0 : MicroPoint) (st : option (bool * option nat))
    (touchingFaceIndex : Z) : option (bool * option nat) :=
  '(canClose, nextIndex) ← st;
  match faceToSegmentIndex !! touchingFaceIndex with
  | Some touchingSegmentIndex =>
      if -1 <? touchingFaceIndex then
        if touchingSegmentIndex <? 0 then None
        else
          touchingSegment ← segs !! Z.to_nat touchingSegmentIndex;
          if ShorterThan (Sub p0 (start touchingSegment)) 30 then
            let canClose :=
              if (Z.to_nat touchingSegmentIndex =? startSegmentIndex)%nat
              then true else canClose in
            if addedToPolygon touchingSegment then Some (canClose, nextIndex)
            else Some (canClose, Some (Z.to_nat touchingSegmentIndex))
          else Some (canClose, nextIndex)
      else Some (canClose, nextIndex)
  | None => Some (canClose, nextIndex)
  end.

(** The inner [for { ... }]: follow the segments from
    [currentSegmentIndex] until no neighbour continues the path. *)
Fixpoint walk (fuel : nat) (segs : list segment) (startSegmentIndex : nat)
    (polygon : Path) (currentSegmentIndex : nat) : WalkResult :=
  match fuel with
  | O => WalkOutOfFuel
  | S fuel' =>
      match segs !! currentSegmentIndex with
      | None => WalkPanic
      | Some currentSegment =>
          let segs := <[currentSegmentIndex := markAdded currentSegment]> segs in
          let p0 := end_ currentSegment in
          let polygon := polygon ++ [p0] in
          match fold_left (neighbourStep segs startSegmentIndex p0)
                  (touching (faceIndex currentSegment))
                  (Some (false, None)) with
          | None => WalkPanic
          | Some (canClose, None) => WalkDone segs polygon canClose
          | Some (_, Some nextIndex) =>
              walk fuel' segs startSegmentIndex polygon nextIndex
          end
      end
  end.

Inductive StitchResult :=
| Stitched (st : stitching)
| StitchPanic
| StitchOutOfFuel.

(** One iteration of [for startSegmentIndex, segment := range l.segments].
    Each round of the walk marks a segment that was not marked before, so
    it is given as many rounds as there are segments. *)
Definition stitchStep (st : stitching) (startSegmentIndex : nat)
    : StitchResult :=
  match segments st !! startSegmentIndex with
  | None => StitchPanic
  | Some segment =>
      if addedToPolygon segment then Stitched st
      else
        match walk (length (segments st)) (segments st) startSegmentIndex
                [start segment] startSegmentIndex with
        | WalkDone segs polygon canClose =>
            Stitched
              {| segments := segs;
                 polys := {| polygons := polygons (polys st) ++ [Some polygon];
                             closed := closed (polys st) ++ [canClose] |} |}
        | WalkPanic => StitchPanic
        | WalkOutOfFuel => StitchOutOfFuel
        end
  end.

Fixpoint stitchLoop (count startSegmentIndex : nat) (st : stitching)
    : StitchResult :=
  match count with
  | O => Stitched st
  | S count' =>
      match stitchStep st startSegmentIndex with
      | Stitched st' => stitchLoop count' (S startSegmentIndex) st'
      | other => other
      end
  end.

Definition stitch (st : stitching) : StitchResult :=
  stitchLoop (length (segments st)) 0 st.

(** Every segment recorded for a face exists. *)
Definition validFaceMap (segs : list segment) : Prop :=
  map_Forall (fun (face index : Z) => 0 <= index < Z.of_nat (length segs))
    faceToSegmentIndex.

End Stitching.

(** *** Connecting open polygons: the second loop of [makePolygons] *)

Inductive ScanResult :=
| Merged (l : layer)
| NothingToMerge
| ScanPanic.

Inductive ConnectResult :=
| Connected (l : layer)
| ConnectPanic
| ConnectOutOfFuel.

Section Connect.
Context (Size : MicroPoint -> Z) (IsAlmostFinished : Path -> Z -> bool).

(** [snapDistance] of the connecting loop. *)
Definition connectSnapDistance : Z := 100.

(** The body of [for j, polygon2 := range l.polygons]: the state is
    [best] ([None] for -1) and [bestScore]; the whole is [None] after an
    index out of range. *)
Definition bestStep (l : layer) (i : nat) (polygon : Path)
    (acc : option (option nat * Z)) (j : nat) (polygon2 : option Path)
    : option (option nat * Z) :=
  '(best, bestScore) ← acc;
  match polygon2 with
  | None => Some (best, bestScore)
  | Some points2 =>
      closedJ ← closed l !! j;
      if closedJ || (i =? j)%nat then Some (best, bestScore)
      else
        lastPoint ← last polygon;
        firstPoint ← head points2;
        let diff := Sub lastPoint firstPoint in
        if ShorterThan diff connectSnapDistance then
          let score := Size diff - Z.of_nat (length points2) * 10 in
          if score <? bestScore then Some (Some j, score)
          else Some (best, bestScore)
        else Some (best, bestScore)
  end.

Fixpoint bestLoop (l : layer) (i : nat) (polygon : Path) (j : nat)
    (rest : list (option Path)) (acc : option (option nat * Z))
    : option (option nat * Z) :=
  match rest with
  | [] => acc
  | polygon2 :: rest' =>
      bestLoop l i polygon (S j) rest' (bestStep l i polygon acc j polygon2)
  end.

(** The block under [if best > -1]: append the points of the best match,
    close the polygon if it was almost finished before the points were
    appended ([polygon] still is the path as the loop read it), and erase
    the match. *)
Definition connectTo (l : layer) (i best : nat) (polygon : Path)
    : option layer :=
  fromBest ← polygons l !! best;
  target ← polygons l !! i;
  let appended :=
    match fromBest with
    | Some points =>
        match points with
        | [] => target
        | _ => Some (match target with Some t => t | None => [] end ++ points)
        end
    | None => target
    end in
  let l1 := {| polygons := <[i := appended]> (polygons l);
               closed := closed l |} in
  l2 ← (if IsAlmostFinished polygon connectSnapDistance
        then l' ← removeLastPoint l1 i; setClosed l' i
        else Some l1);
  Some {| polygons := <[best := None]> (polygons l2); closed := closed l2 |}.

(** One run of [for i, polygon := range l.polygons] up to its first
    merge. *)
Fixpoint connectScan (i : nat) (rest : list (option Path)) (l : layer)
    : ScanResult :=
  match rest with
  | [] => NothingToMerge
  | polygon :: rest' =>
      match polygon with
      | None => connectScan (S i) rest' l
      | Some points =>
          match closed l !! i with
          | None => ScanPanic
          | Some true => connectScan (S i) rest' l
          | Some false =>
              match bestLoop l i points 0 (polygons l)
                      (Some (None, connectSnapDistance + 1)) with
              | None => ScanPanic
              | Some (None, _) => connectScan (S i) rest' l
              | Some (Some best, _) =>
                  match connectTo l i best points with
                  | Some l' => Merged l'
                  | None => ScanPanic
                  end
              end
          end
      end
  end.

(** [goto RerunConnectPolygons] after every merge. *)
Fixpoint connectLoop (fuel : nat) (l : layer) : ConnectResult :=
  match fuel with
  | O => ConnectOutOfFuel
  | S fuel' =>
      match connectScan 0 (polygons l) l with
      | Merged l' => connectLoop fuel' l'
      | NothingToMerge => Connected l
      | ScanPanic => ConnectPanic
      end
  end.

(** Every merge erases a polygon, so there are fewer merges than
    polygons. *)
Definition connectPolygons (l : layer) : ConnectResult :=
  connectLoop (S (length (polygons l))) l.

End Connect.

(** The points of all polygons that are not erased. *)
Definition allPoints (polys : list (option Path)) : Path :=
  flat_map (fun p : option Path => match p with Some pts => pts | None => [] end)
           polys.

(** The polygons of a layer as the first loop leaves them: as many flags
    as polygons, and no polygon without a point. *)
Definition wellFormed (l : layer) : Prop :=
  length (closed l) = length (polygons l)
  /\ forall (i : nat) (points : Path),
       polygons l !! i = Some (Some points) -> points <> [].

(** What connecting preserves from [l] to [l']: the shape of the layer,
    the points (merging moves them from one polygon to another), and
    every polygon that was closed already. *)
Definition connectsFrom (l l' : layer) : Prop :=
  wellFormed l'
  /\ length (polygons l') = length (polygons l)
  /\ allPoints (polygons l') ≡ₚ allPoints (polygons l)
  /\ forall j : nat,
       closed l !! j = Some true ->
       closed l' !! j = Some true /\ polygons l' !! j = polygons l !! j.

(** The number of polygons that are not erased. *)
Definition live (polys : list (option Path)) : nat :=
  length (List.filter (fun p : option Path => match p with Some _ => true | None => false end) polys).

(** *** [makePolygons] as a whole *)

(** Stitch, connect, clear: the polygons the layer ends up with, or
    [None] after a panic. *)
Definition makePolygons (touching : Z -> list Z)
    (faceToSegmentIndex : gmap Z Z) (Size : MicroPoint -> Z)
    (IsAlmostFinished : Path -> Z -> bool) (st : stitching)
    : option (list Path) :=
  match stitch touching faceToSegmentIndex st with
  | Stitched st1 =>
      match connectPolygons Size IsAlmostFinished (polys st1) with
      | Connected l2 =>
          '(_, clearedPolygons) ← clearPolygons Size IsAlmostFinished l2;
          Some clearedPolygons
      | _ => None
      end
  | _ => None
  end.

(** The number of segments not yet part of a polygon. *)
Definition unadded (segs : list segment) : nat :=
  length (List.filter (fun s => negb (addedToPolygon s)) segs).

(** A segment as it was, or with its flag set. *)
Definition onlyMarked (s s' : segment) : Prop :=
  s' = s \/ s' = markAdded s.

(** [best] names an open polygon other than number [i]. *)
Definition goodMatch (l : layer) (i : nat) (best : option nat) : Prop :=
  forall k : nat,
    best = Some k ->
    k <> i /\ closed l !! k = Some false
    /\ exists points, polygons l !! k = Some (Some points).

End Slice.

(** ** Support modifiers (package [modifier]) *)

Module Modifier.
Import Data.

(** A [[]data.LayerPart]; [None] is the nil slice, which the generator
    tells apart from an empty one. *)
Definition PartList := option (list LayerPart).

Definition len (parts : PartList) : Z :=
  match parts with
  | Some l => Z.of_nat (length l)
  | None => 0
  end.

Definition isNil (parts : PartList) : bool :=
  match parts with
  | Some _ => false
  | None => true
  end.

(** The dynamic types an attribute value can have. *)
Inductive AttrValue :=
| AttrLayerParts (parts : PartList)
| AttrOffsetResult (insets : list (list (list LayerPart)))
| AttrPaths (paths : list Path).

(** A layer: its parts and its attribute map. *)
Record PartitionedLayer := mkPartitionedLayer {
  LayerParts : PartList;
  Attributes : gmap string AttrValue
}.

(** An error value: [errors.New(msg)] is [Errorf msg []], and
    [fmt.Errorf(format, args...)] keeps its arguments. *)
Inductive error := Errorf (format : string) (args : list Z).

(** [FullSupport]: the attribute "fullSupport" of the layer. *)
Definition FullSupport (layer : PartitionedLayer) : PartList * option error :=
  match Attributes layer !! "fullSupport" with
  | Some attr =>
      match attr with
      | AttrLayerParts fullSupport => (fullSupport, None)
      | _ =>
          (None, Some (Errorf "the attribute fullSupport has the wrong datatype" []))
      end
  | None => (None, None)
  end.

(** Modelled from the spec: [PartsAttribute(layer, name)] is defined in a
    file of package [modifier] that is not among the sources.  Section 7:
    "Missing attributes are silently treated as empty -- only wrong types
    error"; it is [FullSupport] for any attribute name. *)
Definition PartsAttribute (layer : PartitionedLayer) (typ : string)
    : PartList * option error :=
  match Attributes layer !! typ with
  | Some attr =>
      match attr with
      | AttrLayerParts parts => (parts, None)
      | _ =>
          (None,
           Some (Errorf (String.append "the attribute "
                           (String.append typ " has the wrong datatype")) []))
      end
  | None => (None, None)
  end.

(** Modelled from the spec: [newExtendedLayer(layer)] is defined in a file
    of package [modifier] that is not among the sources.  Section 3: a
    layer is its parts plus a string-keyed attribute map that modifiers
    write their results into; the extended layer has the parts and the
    attributes of the layer it wraps. *)
Definition newExtendedLayer (layer : PartitionedLayer) : PartitionedLayer :=
  {| LayerParts := LayerParts layer; Attributes := Attributes layer |}.

(** [newLayer.attributes[name] = value] *)
Definition setAttribute (layer : PartitionedLayer) (name : string)
    (value : AttrValue) : PartitionedLayer :=
  {| LayerParts := LayerParts layer;
     Attributes := <[name := value]> (Attributes layer) |}.

(** The options the two modifiers read.  Lengths are in micrometers:
    [PatternSpacing] and [Gap] stand for [PatternSpacing.ToMicrometer()]
    and [Gap.ToMicrometer()]. *)
Record Options := mkOptions {
  LayerThickness : Z;
  Enabled : bool;
  ThresholdAngle : Z;
  TopGapLayers : Z;
  InterfaceLayers : Z;
  PatternSpacing : Z;
  Gap : Z
}.

(** What [Modify] leaves behind: the layer slice, which it changes in
    place, and the error it returns; or a run-time panic. *)
Inductive Outcome :=
| Returned (layers : list PartitionedLayer) (err : option error)
| Panicked.

Section WithClipper.
(** The clip package's operations used here, in the version of that
    package that the modifiers are written against:
    [InsetLayer1D parts offset insetCount firstOffset] is
    [cl.InsetLayer(parts, offset, insetCount, firstOffset).ToOneDimension()],
    [Difference] and [Union] return their result and the [ok] flag. *)
Context (InsetLayer1D : PartList -> Z -> Z -> Z -> PartList).
Context (Difference Union : PartList -> PartList -> PartList * bool).
(** [BrimOuterDimension(layer)], from the brim modifier. *)
Context (BrimOuterDimension : PartitionedLayer -> PartList * option error).
(** [math.Round(float64(LayerThickness) * math.Tan(data.ToRadians(float64(ThresholdAngle))))]
    as an integer. *)
Context (roundedDistance : Z -> Z -> Z).
Context (options : Options).

(** *** [supportDetectorModifier.Modify] *)

(** The region that needs support above layer [layerNr]: the next layer
    minus the offset layer. *)
Definition supportRegion (cur next : PartitionedLayer) : PartList * bool :=
  let offset := - roundedDistance (LayerThickness options) (ThresholdAngle options) in
  let offsetLayer :=
    InsetLayer1D (LayerParts cur) offset 1 (Z.quot (- offset) 2) in
  Difference (LayerParts next) offsetLayer.

(** "make the support a little bit bigger" *)
Definition enlargeSupport (support : PartList) : PartList :=
  InsetLayer1D support (- PatternSpacing options * 3) 1
    (Z.quot (PatternSpacing options * 3) 2).

(** The new layer of the detector: the attribute is written only for a
    non-empty support. *)
Definition withDetectedSupport (target : PartitionedLayer) (support : PartList)
    : PartitionedLayer :=
  let newLayer := newExtendedLayer target in
  if 0 <? len support
  then setAttribute newLayer "support" (AttrLayerParts support)
  else newLayer.

Inductive DetectStep :=
| DetectNext (layers : list PartitionedLayer)
| DetectReturn (layers : list PartitionedLayer) (err : option error)
| DetectPanic.

(** The body of [for layerNr := range layers]. *)
Definition detectStep (layers : list PartitionedLayer) (layerNr : nat)
    : DetectStep :=
  if negb (Enabled options) then DetectReturn layers None
  else if (Z.of_nat layerNr =? Z.of_nat (length layers) - 1)
          || (Z.of_nat layerNr <? TopGapLayers options)
  then DetectNext layers
  else
    match layers !! layerNr, layers !! S layerNr with
    | Some cur, Some next =>
        let '(support, ok) := supportRegion cur next in
        if negb ok
        then DetectReturn layers
               (Some (Errorf "could not calculate the support parts" []))
        else
          let support := enlargeSupport support in
          let target := Z.of_nat layerNr - TopGapLayers options in
          if (0 <=? target) && (target <? Z.of_nat (length layers)) then
            match layers !! Z.to_nat target with
            | Some targetLayer =>
                DetectNext
                  (<[Z.to_nat target :=
                       withDetectedSupport targetLayer support]> layers)
            | None => DetectPanic
            end
          else DetectPanic
    | _, _ => DetectPanic
    end.

Fixpoint detectLoop (count layerNr : nat) (layers : list PartitionedLayer)
    : Outcome :=
  match count with
  | O => Returned layers None
  | S count' =>
      match detectStep layers layerNr with
      | DetectNext layers' => detectLoop count' (S layerNr) layers'
      | DetectReturn layers' err => Returned layers' err
      | DetectPanic => Panicked
      end
  end.

Definition detectorModify (layers : list PartitionedLayer) : Outcome :=
  detectLoop (length layers) 0 layers.

(** The state of the detector's loop: what holds of the slice [now] when
    iteration [layerNr] is about to run, in terms of the slice [orig] the
    loop started from.  Parts never change; layers at and above
    [layerNr - TopGapLayers] are untouched; below, each holds the support
    of the iteration that wrote it. *)
Record DetectInv (orig now : list PartitionedLayer) (layerNr : nat) : Prop := {
  inv_length : length now = length orig;
  inv_parts : forall j, LayerParts <$> now !! j = LayerParts <$> orig !! j;
  inv_untouched :
    forall j, (layerNr <= j + Z.to_nat (TopGapLayers options))%nat ->
              now !! j = orig !! j;
  inv_written :
    forall (n : nat) (target cur next : PartitionedLayer),
      (n < layerNr)%nat ->
      (Z.to_nat (TopGapLayers options) <= n)%nat ->
      (n + 1 < length orig)%nat ->
      orig !! (n - Z.to_nat (TopGapLayers options))%nat = Some target ->
      orig !! n = Some cur -> orig !! S n = Some next ->
      now !! (n - Z.to_nat (TopGapLayers options))%nat =
        Some (withDetectedSupport target
                (enlargeSupport (fst (supportRegion cur next))))
}.

(** Modelled from the spec: the four-argument [InsetLayer] that the
    modifiers call is not among the sources (the clip package there has
    the three-argument one).  Section 4.B: "Inset 0 uses [firstOffset];
    insets 1..count-1 use [offset*i]".  [offsetPart part delta] stands for
    the offsetting of one part; the result is flattened as
    [ToOneDimension] does. *)
Definition InsetLayerAsSpecified
    (offsetPart : LayerPart -> Z -> list LayerPart)
    (parts : PartList) (offset insetCount firstOffset : Z) : PartList :=
  let insetsOf (part : LayerPart) :=
    flat_map (fun insetNr : nat =>
                offsetPart part
                  (if (insetNr =? 0)%nat then firstOffset
                   else offset * Z.of_nat insetNr))
             (seq 0 (Z.to_nat insetCount)) in
  match parts with
  | Some l =>
      match flat_map insetsOf l with
      | [] => None
      | flat => Some flat
      end
  | None => None
  end.

(** *** [supportGeneratorModifier.Modify] *)

(** What one iteration computes before it writes: nothing ([continue]),
    an error to return, a panic, or the union [result] and the three
    areas. *)
Inductive Computed :=
| Skip
| Failed (err : error)
| Crashed
| Areas (result actualSupport interfaceParts
         actualWithoutInterfaceParts : PartList).

(** [layerNr + m.options.Print.Support.InterfaceLayers - 1], in Go's
    64-bit [int], brought down to [len(layers) - 1] when it is
    [>= len(layers)]. *)
Definition layerNrAboveInterface (layers : list PartitionedLayer)
    (layerNr : nat) : Z :=
  let n :=
    Clip.wrap64
      (Clip.wrap64 (Z.of_nat layerNr + InterfaceLayers options) - 1) in
  if Z.of_nat (length layers) <=? n then Z.of_nat (length layers) - 1 else n.

(** The block under [if actualSupport != nil]; a negative index, like
    one beyond the last layer, is the index-out-of-range panic. *)
Definition separateInterface (layers : list PartitionedLayer) (layerNr : nat)
    (below : PartitionedLayer) (result actualSupport : PartList) : Computed :=
  let layerNrAboveInterface := layerNrAboveInterface layers layerNr in
  if layerNrAboveInterface <? 0 then Crashed
  else
    match layers !! Z.to_nat layerNrAboveInterface with
    | None => Crashed
    | Some above =>
        let '(supportAboveInterface, err) :=
          PartsAttribute above "fullSupport" in
        match err with
        | Some e => Failed e
        | None =>
            let '(interfaceParts, ok) :=
              Difference actualSupport supportAboveInterface in
            if negb ok
            then Failed (Errorf "error while calculating interface parts" [])
            else
              let '(actualWithoutInterfaceParts, ok) :=
                Difference actualSupport interfaceParts in
              if negb ok
              then Failed (Errorf "error while calculating the actual support without the interface parts" [])
              else
                let '(brimArea, err) := BrimOuterDimension below in
                match err with
                | Some e => Failed e
                | None =>
                    if isNil brimArea
                    then Areas result actualSupport interfaceParts
                           actualWithoutInterfaceParts
                    else Areas result actualSupport
                           (fst (Difference interfaceParts brimArea))
                           (fst (Difference actualWithoutInterfaceParts
                                   brimArea))
                end
        end
    end.

(** One iteration up to [lastSupport = actualSupport]. *)
Definition computeSupport (layers : list PartitionedLayer)
    (lastSupport : PartList) (layerNr : nat) : Computed :=
  match layers !! layerNr, layers !! (layerNr - 1)%nat with
  | Some cur, Some below =>
      let '(currentSupport, err) :=
        if isNil lastSupport then PartsAttribute cur "support"
        else (lastSupport, None) in
      match err with
      | Some e => Failed e
      | None =>
          let '(belowSupport, err) := PartsAttribute below "support" in
          match err with
          | Some e => Failed e
          | None =>
              if (len currentSupport =? 0) && (len belowSupport =? 0) then Skip
              else
                let '(result, ok) := Union currentSupport belowSupport in
                if negb ok
                then Failed (Errorf "could not union the supports for layer %d to generate support" [Z.of_nat layerNr])
                else
                  let biggerLayer :=
                    InsetLayer1D (LayerParts below) (- Gap options) 1
                      (Z.quot (Gap options) 2) in
                  let '(actualSupport, ok) := Difference result biggerLayer in
                  if negb ok
                  then Failed (Errorf "could not subtract the model from the supports for layer %d" [Z.of_nat layerNr])
                  else if isNil actualSupport
                  then Areas result actualSupport None None
                  else separateInterface layers layerNr below result
                         actualSupport
          end
      end
  | _, _ => Crashed
  end.

(** The new layer of the generator: "support" is written in both
    branches. *)
Definition withGeneratedSupport (below : PartitionedLayer)
    (actualSupport interfaceParts actualWithoutInterfaceParts : PartList)
    : PartitionedLayer :=
  let newLayer := newExtendedLayer below in
  let newLayer :=
    if 0 <? len actualSupport
    then setAttribute newLayer "fullSupport" (AttrLayerParts actualSupport)
    else newLayer in
  let newLayer :=
    if 0 <? len interfaceParts
    then setAttribute newLayer "supportInterface" (AttrLayerParts interfaceParts)
    else newLayer in
  if 0 <? len actualWithoutInterfaceParts
  then setAttribute newLayer "support"
         (AttrLayerParts actualWithoutInterfaceParts)
  else setAttribute newLayer "support" (AttrLayerParts (Some [])).

Inductive GenStep :=
| GenNext (layers : list PartitionedLayer) (lastSupport : PartList)
| GenReturn (layers : list PartitionedLayer) (err : option error)
| GenPanic.

(** The body of the loop below its first [if]. *)
Definition genStep (layers : list PartitionedLayer) (lastSupport : PartList)
    (layerNr : nat) : GenStep :=
  match computeSupport layers lastSupport layerNr with
  | Skip => GenNext layers lastSupport
  | Failed e => GenReturn layers (Some e)
  | Crashed => GenPanic
  | Areas _ actualSupport interfaceParts actualWithoutInterfaceParts =>
      match layers !! (layerNr - 1)%nat with
      | Some below =>
          GenNext
            (<[(layerNr - 1)%nat :=
                 withGeneratedSupport below actualSupport interfaceParts
                   actualWithoutInterfaceParts]> layers)
            actualSupport
      | None => GenPanic
      end
  end.

(** [for layerNr := len(layers) - 2; layerNr >= 0; layerNr--], with
    [count = layerNr + 1] iterations still to run. *)
Fixpoint genLoop (count : nat) (layers : list PartitionedLayer)
    (lastSupport : PartList) : Outcome :=
  match count with
  | O => Returned layers None
  | S layerNr =>
      if negb (Enabled options) || (layerNr =? 0)%nat
      then Returned layers None
      else
        match genStep layers lastSupport layerNr with
        | GenNext layers' lastSupport' => genLoop layerNr layers' lastSupport'
        | GenReturn layers' err => Returned layers' err
        | GenPanic => Panicked
        end
  end.

Definition generatorModify (layers : list PartitionedLayer) : Outcome :=
  genLoop (length layers - 1) layers None.

(** The "support" attribute of layer number [i], if there is one. *)
Definition supportAttribute (layers : list PartitionedLayer) (i : nat)
    : option AttrValue :=
  layer ← layers !! i; Attributes layer !! "support".

(** The clipper can compute the region of layer [n] that the layer above
    it leaves unsupported. *)
Definition regionComputable (orig : list PartitionedLayer) (n : nat) : Prop :=
  forall cur next : PartitionedLayer,
    orig !! n = Some cur -> orig !! S n = Some next ->
    snd (supportRegion cur next) = true.

End WithClipper.

(** Two layers that differ at most in the attributes named in [keys]. *)
Definition differOnlyIn (keys : list string) (a b : PartitionedLayer) : Prop :=
  LayerParts b = LayerParts a
  /\ forall key : string,
       key ∉ keys -> Attributes b !! key = Attributes a !! key.

(** The layers have the same parts, one by one. *)
Definition sameParts (orig now : list PartitionedLayer) : Prop :=
  length now = length orig
  /\ forall j : nat, LayerParts <$> now !! j = LayerParts <$> orig !! j.

End Modifier.

(** ** The pre-layer renderer (package [renderer]) *)

Module Renderer.

(** The G-code builder belongs to package [gcode]; a renderer acts on it
    only through the calls below, so the builder is the sequence of calls
    made on it.  Format arguments are integers; speeds and lengths in
    millimeters are rationals that are merely passed on. *)
Inductive BuilderCall :=
| AddComment (format : string) (args : list Z)
| AddCommand (format : string) (args : list Z)
| SetExtrusion (layerThickness lineWidth : Z)
| SetExtrudeSpeed (speed : Q)
| SetMoveSpeed (speed : Q)
| SetRetractionSpeed (speed : Q)
| SetRetractionAmount (amount : Q)
| SetExtrudeSpeedOverride (speed : Q)
| DisableExtrudeSpeedOverride.

Definition Builder := list BuilderCall.

(** The options [PreLayer.Render] reads. *)
Record Options := mkOptions {
  InitialHotEndTemperature : Z;
  InitialBedTemperature : Z;
  HotEndTemperature : Z;
  BedTemperature : Z;
  InitialTemperatureLayerCount : Z;
  LayerToSpeedLUT : gmap Z Z;
  InitialLayerThickness : Z;
  LayerThickness : Z;
  ExtrusionWidth : Z;
  LayerSpeed : Q;
  MoveSpeed : Q;
  IntialLayerSpeed : Q;
  RetractionSpeed : Q;
  RetractionLength : Q
}.

(** The calls of the [layerNr == 0] branch. *)
Definition startCalls (options : Options) : list BuilderCall :=
  [AddComment "Generated with GoSlice" [];
   AddComment "______________________" [];
   AddCommand "M107 ; disable fan" [];
   AddComment "SET_INITIAL_TEMP" [];
   AddCommand "M104 S%d ; start heating hot end"
     [InitialHotEndTemperature options];
   AddCommand "M190 S%d ; heat and wait for bed"
     [InitialBedTemperature options];
   AddCommand "M109 S%d ; wait for hot end temperature"
     [InitialHotEndTemperature options];
   AddComment "START_GCODE" [];
   AddCommand "G1 Z5 F5000 ; lift nozzle" [];
   AddCommand "G92 E0 ; reset extrusion distance" [];
   SetExtrusion (InitialLayerThickness options) (ExtrusionWidth options);
   SetExtrudeSpeed (LayerSpeed options);
   SetMoveSpeed (MoveSpeed options);
   SetRetractionSpeed (RetractionSpeed options);
   SetRetractionAmount (RetractionLength options);
   SetExtrudeSpeedOverride (IntialLayerSpeed options)].

(** [PreLayer.Render]; the layer and [z] are not used. *)
Definition Render (b : Builder) (layerNr maxLayer : Z)
    (layer : Modifier.PartitionedLayer) (z : Z) (options : Options)
    : Builder * option Modifier.error :=
  let b := b ++ [AddComment "LAYER:%v" [layerNr]] in
  let b :=
    if layerNr =? 0 then b ++ startCalls options
    else if layerNr =? 1
    then b ++ [SetExtrusion (LayerThickness options) (ExtrusionWidth options)]
    else b in
  let b :=
    if 0 <? layerNr
    then b ++ [DisableExtrudeSpeedOverride; SetExtrudeSpeed (LayerSpeed options)]
    else b in
  let b :=
    match LayerToSpeedLUT options !! layerNr with
    | Some fanSpeed =>
        if fanSpeed =? 0 then b ++ [AddCommand "M107 ; disable fan" []]
        else b ++ [AddCommand "M106 S%d; change fan speed" [fanSpeed]]
    | None => b
    end in
  let b :=
    if layerNr =? InitialTemperatureLayerCount options
    then b ++ [AddComment "SET_TEMP" [];
               AddCommand "M140 S%d" [BedTemperature options];
               AddCommand "M104 S%d" [HotEndTemperature options]]
    else b in
  (b, None).

(** The commands among the calls, in order. *)
Fixpoint commands (b : Builder) : list (string * list Z) :=
  match b with
  | [] => []
  | AddCommand format args :: b' => (format, args) :: commands b'
  | _ :: b' => commands b'
  end.

(** Whether some command is the G-code [code]: its text starts with it. *)
Definition emits (code : string) (cmds : list (string * list Z)) : bool :=
  existsb (fun c => String.prefix code (fst c)) cmds.

(** The start sequence as the specification lists it: heat the bed and
    the hot end with wait ([M190], [M109]), home ([G28]), reset E
    ([G92 E0]), lift the nozzle to Z=5 ([G1 Z5]). *)
Definition startSequenceAsSpecified (cmds : list (string * list Z)) : bool :=
  emits "M190" cmds && emits "M109" cmds && emits "G28" cmds
  && emits "G92 E0" cmds && emits "G1 Z5" cmds.

(** The commands of the start branch. *)
Definition startCommands (options : Options) : list (string * list Z) :=
  [("M107 ; disable fan", []);
   ("M104 S%d ; start heating hot end", [InitialHotEndTemperature options]);
   ("M190 S%d ; heat and wait for bed", [InitialBedTemperature options]);
   ("M109 S%d ; wait for hot end temperature",
    [InitialHotEndTemperature options]);
   ("G1 Z5 F5000 ; lift nozzle", []);
   ("G92 E0 ; reset extrusion distance", [])].

(** The calls on the builder, other than those made before. *)
Definition callsOf (layerNr maxLayer : Z) (layer : Modifier.PartitionedLayer)
    (z : Z) (options : Options) : list BuilderCall :=
  fst (Render [] layerNr maxLayer layer z options).

(** [PostLayer.Render] *)
Module PostLayer.

(** The calls of the [layerNr == maxLayer] branch. *)
Definition endCalls (options : Options) : list BuilderCall :=
  [AddComment "END_GCODE" [];
   SetExtrusion (LayerThickness options) (ExtrusionWidth options);
   AddCommand "M107 ; disable fan" [];
   AddCommand "M104 S0 ; Set Hot-end to 0C (off)" [];
   AddCommand "M140 S0 ; Set bed to 0C (off)" [];
   AddCommand "G28 X0  ; home X axis to get head out of the way" [];
   AddCommand "M84 ;steppers off" []].

Definition Render (b : Builder) (layerNr maxLayer : Z)
    (layer : Modifier.PartitionedLayer) (z : Z) (options : Options)
    : Builder * option Modifier.error :=
  let b := if layerNr =? maxLayer then b ++ endCalls options else b in
  (b, None).

End PostLayer.

End Renderer.

(** ** The pipeline (package [goslice]) *)

Module GoSlice.
Import Modifier.

(** What [Process] does to the outside: the lines it logs and the call of
    the writer.  Of the arguments of a log line the strings are kept (a
    path, the name of a modifier); counts, sizes and the duration are
    left out. *)
Inductive Event :=
| Printf (format : string) (names : list string)
| Println (text : string)
| WriterWrite (gcode filename : string).

Section Handlers.
Context {Models OptimizedModel Layers : Type}.

(** A [handler.LayerModifier]: [Modify] stands for [m.Init(optimizedModel)]
    followed by [m.Modify(layers)], which changes the layers in place. *)
Record LayerModifier := mkLayerModifier {
  GetName : string;
  Modify : OptimizedModel -> Layers -> Layers * option error
}.

(** The struct [GoSlice], each handler by its one method. *)
Record GoSlice := mkGoSlice {
  InputFilePath : string;
  OutputFilePath : string;
  Reader : string -> Models * option error;
  Optimizer : Models -> OptimizedModel * option error;
  Slicer : OptimizedModel -> Layers * option error;
  Modifiers : list LayerModifier;
  Generator : OptimizedModel -> Layers -> string * option error;
  Writer : string -> string -> option error
}.

(** [for _, m := range s.Modifiers]: the log lines, the layers and the
    error of the modifier that stopped the loop. *)
Fixpoint applyModifiers (optimizedModel : OptimizedModel)
    (modifiers : list LayerModifier) (layers : Layers)
    : list Event * Layers * option error :=
  match modifiers with
  | [] => ([], layers, None)
  | m :: rest =>
      let '(layers, err) := Modify m optimizedModel layers in
      match err with
      | Some e => ([], layers, Some e)
      | None =>
          let '(log, layers, err) := applyModifiers optimizedModel rest layers in
          (Printf "Modifier %s applied\n" [GetName m] :: log, layers, err)
      end
  end.

Definition outputPath (s : GoSlice) : string :=
  if String.eqb (OutputFilePath s) EmptyString
  then String.append (InputFilePath s) ".gcode"
  else OutputFilePath s.

(** [Process]: the events in order, and the error returned. *)
Definition Process (s : GoSlice) : list Event * option error :=
  let log := [Printf "Load model %v\n" [InputFilePath s]] in
  let '(models, err) := Reader s (InputFilePath s) in
  match err with
  | Some e => (log, Some e)
  | None =>
      let log :=
        log ++ [Printf "Model loaded.\nFace count: %v\nSize: min: %v max %v\n" []] in
      let '(optimizedModel, err) := Optimizer s models in
      match err with
      | Some e => (log, Some e)
      | None =>
          let log := log ++ [Printf "Model optimized\n" []] in
          let '(layers, err) := Slicer s optimizedModel in
          match err with
          | Some e => (log, Some e)
          | None =>
              let log := log ++ [Printf "Model sliced to %v layers\n" []] in
              let '(applied, layers, err) :=
                applyModifiers optimizedModel (Modifiers s) layers in
              let log := log ++ applied in
              match err with
              | Some e => (log, Some e)
              | None =>
                  let log := log ++ [Printf "Layers modified %v\n" []] in
                  let '(finalGcode, err) :=
                    Generator s optimizedModel layers in
                  match err with
                  | Some e => (log, Some e)
                  | None =>
                      let err := Writer s finalGcode (outputPath s) in
                      (log ++ [WriterWrite finalGcode (outputPath s);
                               Println "full processing time:"],
                       err)
                  end
              end
          end
      end
  end.

End Handlers.

(** The calls of the writer among the events. *)
Definition written (log : list Event) : list (string * string) :=
  flat_map (fun e => match e with
                     | WriterWrite gcode filename => [(gcode, filename)]
                     | _ => []
                     end) log.

(** The names in the lines "Modifier %s applied". *)
Definition applied (log : list Event) : list string :=
  flat_map (fun e => match e with
                     | Printf format names =>
                         if String.eqb format "Modifier %s applied\n"
                         then names else []
                     | _ => []
                     end) log.

End GoSlice.

(** ** Reference instances of the clip engine's parameters

    Exact rational arithmetic in place of floating point, and a clipping
    engine for one axis-aligned rectangular region without holes, on which
    offsetting and line clipping can be computed by hand.  They serve to
    evaluate [Inset] and [Fill] on concrete inputs. *)

Module Reference.
Import Data Clip.

(** Rationals: exact wherever the float result is representable. *)
Definition ExactFloat : FloatOps := {|
  f32 := Q;
  f64 := Q;
  f32_of_int := inject_Z;
  f32_sub := Qminus;
  f32_mul := Qmult;
  f32_div := Qdiv;
  f32_neg := Qopp;
  f64_of_f32 := fun q => q;
  f64_of_int := inject_Z;
  f64_sub := Qminus
|}.

(** Smallest axis-aligned box [(x0, y0, x1, y1)] around a path. *)
Definition bounds (path : list IntPoint) : option (Z * Z * Z * Z) :=
  match path with
  | [] => None
  | p :: rest =>
      Some (fold_left
              (fun '(x0, y0, x1, y1) q =>
                 (Z.min x0 (cX q), Z.min y0 (cY q),
                  Z.max x1 (cX q), Z.max y1 (cY q)))
              rest (cX p, cY p, cX p, cY p))
  end.

Definition rectangle (x0 y0 x1 y1 : Z) : list IntPoint :=
  [mkIntPoint x0 y0; mkIntPoint x1 y0; mkIntPoint x1 y1; mkIntPoint x0 y1].

(** Offsetting a rectangle by [delta] moves each side outward by
    [delta]; a negative [delta] shrinks it, possibly to nothing. *)
Definition rectOffsetPath (delta : Q) (path : list IntPoint)
    : list (list IntPoint) :=
  match bounds path with
  | Some (x0, y0, x1, y1) =>
      let d := Qfloor delta in
      if (x0 - d <? x1 + d) && (y0 - d <? y1 + d)
      then [rectangle (x0 - d) (y0 - d) (x1 + d) (y1 + d)]
      else []
  | None => []
  end.

Definition rectOffset (paths : list (list IntPoint)) (delta : Q)
    : list (list IntPoint) :=
  flat_map (rectOffsetPath delta) paths.

Definition leaf (contour : list IntPoint) : PolyNode := mkPolyNode contour [].

Definition clamp (lo hi v : Z) : Z := Z.max lo (Z.min hi v).

(** The part of a vertical two-point line inside the box, keeping its
    direction. *)
Definition rectClipLine (box : Z * Z * Z * Z) (line : list IntPoint)
    : list (list IntPoint) :=
  let '(x0, y0, x1, y1) := box in
  match line with
  | [a; b] =>
      if (cX a =? cX b) && (x0 <=? cX a) && (cX a <=? x1)
         && negb (clamp y0 y1 (cY a) =? clamp y0 y1 (cY b))
      then [[mkIntPoint (cX a) (clamp y0 y1 (cY a));
             mkIntPoint (cX a) (clamp y0 y1 (cY b))]]
      else []
  | _ => []
  end.

(** Only a single clip path is supported; anything else is reported as
    a failure. *)
Definition rectIntersectOpen (clip lines : list (list IntPoint))
    : option PolyNode :=
  match clip with
  | [region] =>
      match bounds region with
      | Some box =>
          Some (mkPolyNode [] (map leaf (flat_map (rectClipLine box) lines)))
      | None => Some (mkPolyNode [] [])
      end
  | _ => None
  end.

Definition rectOffset2 (paths : list (list IntPoint)) (delta : Q)
    : PolyNode :=
  mkPolyNode [] (map leaf (rectOffset paths delta)).

(** Rectangles that do not touch are their own union. *)
Definition rectUnion (subject : list (list IntPoint)) : option PolyNode :=
  Some (mkPolyNode [] (map leaf subject)).

Definition RectangleEngine : ClipperLib ExactFloat :=
  Build_ClipperLib ExactFloat rectOffset rectOffset2 rectIntersectOpen
    rectUnion.

(** Bounding box of a path as a pair of points. *)
Definition rectSize (path : Path) : MicroPoint * MicroPoint :=
  match bounds (clipperPath path) with
  | Some (x0, y0, x1, y1) => (NewMicroPoint x0 y0, NewMicroPoint x1 y1)
  | None => (NewMicroPoint 0 0, NewMicroPoint 0 0)
  end.

(** A square of side 1000 micrometers without holes. *)
Definition square1000 : LayerPart :=
  NewUnknownLayerPart
    [NewMicroPoint 0 0; NewMicroPoint 1000 0;
     NewMicroPoint 1000 1000; NewMicroPoint 0 1000] [].

(** Length of a vector, rounded down to whole micrometers. *)
Definition hypot (p : MicroPoint) : Z := Z.sqrt (sqMagnitude p).

(** A path whose two ends are nearer than [distance]. *)
Definition endsNearerThan (path : Path) (distance : Z) : bool :=
  ShorterThan (Sub (pointAt path 0) (pointAt path (length path - 1))) distance.

(** A closed path there and back along 500 micrometers: total length 1000. *)
Definition thereAndBack : Path :=
  [NewMicroPoint 0 0; NewMicroPoint 500 0; NewMicroPoint 0 0].

(** Two segments of 1000 micrometers, there and back, cut from two faces
    that touch each other. *)
Definition twoSegments : list Slice.segment :=
  [Slice.mkSegment (NewMicroPoint 0 0) (NewMicroPoint 1000 0) 0 false;
   Slice.mkSegment (NewMicroPoint 1000 0) (NewMicroPoint 0 0) 1 false].

Definition twoFaces : gmap Z Z := {[0 := 0; 1 := 1]}.

Definition twoTouching (face : Z) : list Z :=
  if face =? 0 then [1; -1; -1] else [0; -1; -1].

Definition freshLayer : Slice.stitching :=
  Slice.mkStitching twoSegments (Slice.mkLayer [] []).

(** Two open polygons, the second starting where the first ends. *)
Definition twoOpenPolygons : Slice.layer :=
  Slice.mkLayer
    [Some [NewMicroPoint 0 0; NewMicroPoint 500 0];
     Some [NewMicroPoint 510 0; NewMicroPoint 900 0]]
    [false; false].

(** A clipping library whose boolean operations always report failure. *)
Definition FailingEngine : ClipperLib ExactFloat :=
  Build_ClipperLib ExactFloat rectOffset rectOffset2
    (fun clip lines => None) (fun subject => None).

(** A clip engine over tiles: a part is an indivisible tile, union and
    difference are those of sets of tiles (the nil slice when nothing is
    left), and insetting returns the tiles as they are.  It evaluates the
    modifiers on inputs where offsets play no role. *)
Definition normalize (l : list LayerPart) : Modifier.PartList :=
  match l with
  | [] => None
  | _ => Some l
  end.

Definition tiles (parts : Modifier.PartList) : list LayerPart :=
  match parts with
  | Some l => l
  | None => []
  end.

Definition tileDifference (a b : Modifier.PartList) : Modifier.PartList * bool :=
  (normalize (filter (fun t => t ∉ tiles b) (tiles a)), true).

Definition tileUnion (a b : Modifier.PartList) : Modifier.PartList * bool :=
  (normalize (tiles a ++ filter (fun t => t ∉ tiles a) (tiles b)), true).

Definition tileInset (parts : Modifier.PartList) (offset insetCount firstOffset : Z)
    : Modifier.PartList :=
  normalize (tiles parts).

Definition noBrim (layer : Modifier.PartitionedLayer)
    : Modifier.PartList * option Modifier.error :=
  (None, None).

Definition noDistance (layerThickness thresholdAngle : Z) : Z := 0.

(** A second tile, beside [square1000]. *)
Definition squareBeside : LayerPart :=
  NewUnknownLayerPart
    [NewMicroPoint 2000 0; NewMicroPoint 3000 0;
     NewMicroPoint 3000 1000; NewMicroPoint 2000 1000] [].

(** A brim that covers the second tile. *)
Definition brimBeside (layer : Modifier.PartitionedLayer)
    : Modifier.PartList * option Modifier.error :=
  (Some [squareBeside], None).

(** Support enabled, no gap layers, two interface layers. *)
Definition supportOn : Modifier.Options :=
  Modifier.mkOptions 200 true 60 0 2 2500 800.

Definition supportOff : Modifier.Options :=
  Modifier.mkOptions 200 false 60 0 2 2500 800.

(** Renderer options: 205/60 degrees at first, then 200/55, fan from
    layer 2. *)
Definition printOptions : Renderer.Options :=
  Renderer.mkOptions 205 60 200 55 3 {[2 := 255]} 200 200 400
    (60 # 1) (150 # 1) (30 # 1) (30 # 1) (2 # 1).

Definition emptyLayer : Modifier.PartitionedLayer :=
  Modifier.mkPartitionedLayer None ∅.

End Reference.

(** * Properties *)

Module DataProofs.
Import Data.

Lemma pointAt_middle (pre rest : Path) (p : MicroPoint) :
  pointAt (pre ++ p :: rest) (length pre) = p.
Proof. unfold pointAt. apply nth_middle. Qed.

End DataProofs.

(** ** Point filtering in [GenerateLayerParts] *)

Module ClipFilterProofs.
Import Data Clip DataProofs.

(** The index-based loop of the source agrees with the walk that carries
    the last kept point, from any position after the first. *)
Lemma filterLoop_keepFrom (rest pre : Path) (path : list IntPoint) (prev : nat) :
  (0 < length pre)%nat ->
  fst (filterLoop (pre ++ rest) (length pre) rest (path, prev)) =
  path ++ clipperPath (keepFrom within100 (pointAt (pre ++ rest) prev) rest).
Proof.
  revert pre path prev.
  induction rest as [|p rest IH]; intros pre path prev Hpre; simpl.
  - now rewrite app_nil_r.
  - unfold filterStep.
    destruct (Nat.eqb_spec (length pre) 0) as [E|_]; [lia|].
    change (ShorterThanOrEqual (Sub p (pointAt (pre ++ p :: rest) prev)) 100)
      with (within100 p (pointAt (pre ++ p :: rest) prev)).
    assert (Hsplit : pre ++ p :: rest = (pre ++ [p]) ++ rest)
      by now rewrite <- app_assoc.
    assert (Hlen : S (length pre) = length (pre ++ [p]))
      by (rewrite length_app; simpl; lia).
    destruct (within100 p (pointAt (pre ++ p :: rest) prev)) eqn:Hnear.
    + rewrite Hsplit, Hlen, IH by lia. now rewrite <- Hsplit.
    + rewrite Hsplit at 1. rewrite Hlen, IH by lia.
      rewrite <- Hsplit, pointAt_middle. simpl.
      now rewrite <- app_assoc.
Qed.

(** C3, as amended: in [GenerateLayerParts] the first point of every
    polygon is kept, and a later point is dropped exactly when its
    distance to the previously kept point is at most 100 micrometers
    (squared distance at most 10000); only points strictly farther than
    100 micrometers are kept. *)
Theorem filterPolygon_drops_within_100 (polygon : Path) :
  filterPolygon polygon = clipperPath (keepPoints within100 polygon).
Proof.
  destruct polygon as [|p0 rest]; [reflexivity|].
  unfold filterPolygon. simpl filterLoop. unfold filterStep. simpl.
  change (p0 :: rest) with ([p0] ++ rest).
  change 1%nat with (length [p0]).
  rewrite filterLoop_keepFrom by (simpl; lia).
  reflexivity.
Qed.

(** C3 as stated fails: a point at distance exactly 100 micrometers from
    the previously kept point is dropped by the code, whereas the strict
    reading ("strictly less than 100") keeps it. *)
Lemma filterPolygon_drops_at_exactly_100 :
  let polygon := [NewMicroPoint 0 0; NewMicroPoint 100 0; NewMicroPoint 300 0] in
  filterPolygon polygon = clipperPath [NewMicroPoint 0 0; NewMicroPoint 300 0]
  /\ keepPoints nearerThan100 polygon = polygon
  /\ filterPolygon polygon <> clipperPath (keepPoints nearerThan100 polygon).
Proof. cbv zeta. split; [reflexivity|]. split; [reflexivity|]. discriminate. Qed.

End ClipFilterProofs.

(** ** [Inset] and [Fill] *)

Module ClipOffsetProofs.
Import Data Clip Reference.

(** *** [polyTreeToLayerParts] runs all its rounds *)

Lemma height_unfold (p : PolyNode) : height p = S (maxHeight (Childs p)).
Proof. now destruct p. Qed.

Lemma maxHeight_app (l1 l2 : list PolyNode) :
  maxHeight (l1 ++ l2) = Nat.max (maxHeight l1) (maxHeight l2).
Proof.
  induction l1 as [|c l1 IH]; simpl; [reflexivity|].
  unfold maxHeight in *. simpl. rewrite IH. lia.
Qed.

Lemma maxHeight_childs (l : list PolyNode) :
  (maxHeight (flat_map Childs l) <= Nat.pred (maxHeight l))%nat.
Proof.
  induction l as [|c l IH]; simpl; [reflexivity|].
  rewrite maxHeight_app. change (maxHeight (c :: l))
    with (Nat.max (height c) (maxHeight l)).
  rewrite height_unfold. lia.
Qed.

Lemma maxHeight_grandChilds (nodes : list PolyNode) :
  (maxHeight (flat_map grandChilds nodes) <= Nat.pred (maxHeight nodes))%nat.
Proof.
  induction nodes as [|p nodes IH]; simpl; [reflexivity|].
  rewrite maxHeight_app. change (maxHeight (p :: nodes))
    with (Nat.max (height p) (maxHeight nodes)).
  rewrite height_unfold. unfold grandChilds at 1.
  pose proof (maxHeight_childs (Childs p)). lia.
Qed.

Lemma fold_roundStep (thisRound : list PolyNode) :
  forall (layerParts : list LayerPart) (next : list PolyNode),
    fold_left roundStep thisRound (layerParts, next) =
    (layerParts ++ map partOf thisRound,
     next ++ flat_map grandChilds thisRound).
Proof.
  induction thisRound as [|p rest IH]; intros layerParts next; simpl.
  - now rewrite !app_nil_r.
  - rewrite IH. now rewrite <- !app_assoc.
Qed.

(** Once the fuel covers the height of the nodes, more fuel changes
    nothing: the loop has stopped by itself. *)
Lemma roundsLoop_enough_fuel (fuel : nat) :
  forall (extra : nat) (nodes : list PolyNode) (layerParts : list LayerPart),
    (maxHeight nodes <= fuel)%nat ->
    roundsLoop (fuel + extra) nodes layerParts
    = roundsLoop fuel nodes layerParts.
Proof.
  induction fuel as [|fuel IH]; intros extra nodes layerParts Hfuel.
  - destruct nodes as [|p nodes].
    + now destruct extra.
    + exfalso. change (maxHeight (p :: nodes))
        with (Nat.max (height p) (maxHeight nodes)) in Hfuel.
      rewrite height_unfold in Hfuel. lia.
  - destruct nodes as [|p nodes]; [reflexivity|].
    cbn [Nat.add roundsLoop]. rewrite !fold_roundStep.
    apply IH. rewrite app_nil_l.
    pose proof (maxHeight_grandChilds (p :: nodes)). lia.
Qed.

Lemma polyTreeToLayerParts_enough_fuel (tree : PolyNode) (extra : nat) :
  roundsLoop (height tree + extra) (Childs tree) []
  = polyTreeToLayerParts tree.
Proof.
  unfold polyTreeToLayerParts. apply roundsLoop_enough_fuel.
  rewrite height_unfold. lia.
Qed.

Lemma wrap64_small (z : Z) : - 2 ^ 63 <= z < 2 ^ 63 -> wrap64 z = z.
Proof. intros H. unfold wrap64. rewrite Z.mod_small; lia. Qed.

Lemma wrap64_mul_l (a b : Z) : wrap64 (wrap64 a * b) = wrap64 (a * b).
Proof.
  unfold wrap64. f_equal.
  rewrite <- (Zplus_mod_idemp_l (_ * b)), <- (Zplus_mod_idemp_l (a * b)).
  f_equal. f_equal.
  rewrite <- (Zmult_mod_idemp_l (_ - _)), <- (Zmult_mod_idemp_l a).
  f_equal. f_equal.
  rewrite <- Zminus_mod_idemp_l, Zmod_mod, Zminus_mod_idemp_l.
  f_equal. lia.
Qed.

Section Generic.
Context (fl : FloatOps) (lib : ClipperLib fl).

Lemma insetDelta_unfold (offset insetNr : Z) :
  insetDelta fl offset insetNr =
  f64_sub fl (f64_of_int fl (wrap64 (- (offset * insetNr))))
             (f64_of_int fl (Z.quot offset 2)).
Proof.
  unfold insetDelta. rewrite wrap64_mul_l. do 3 f_equal. lia.
Qed.

Lemma Inset_length (part : LayerPart) (offset insetCount : Z) :
  length (Inset fl lib part offset insetCount) = Z.to_nat insetCount.
Proof. unfold Inset. now rewrite length_map, length_seq. Qed.

Lemma Inset_lookup (part : LayerPart) (offset insetCount : Z) (i : nat) :
  Z.of_nat i < insetCount ->
  Inset fl lib part offset insetCount !! i =
  Some (polyTreeToLayerParts
          (offsetExecute2 lib (insetPaths part)
             (insetDelta fl offset (Z.of_nat i)))).
Proof.
  intros Hi. unfold Inset.
  rewrite list_lookup_fmap, lookup_seq_lt by lia. reflexivity.
Qed.
End Generic.

Lemma exact_insetDelta (offset insetNr : Z) :
  - 2 ^ 63 <= - (offset * insetNr) < 2 ^ 63 ->
  (insetDelta ExactFloat offset insetNr ==
   inject_Z (- (offset * insetNr) - Z.quot offset 2))%Q.
Proof.
  intros H. rewrite insetDelta_unfold, wrap64_small by exact H.
  simpl. unfold Qeq, Qminus, Qplus, Qopp, inject_Z. simpl. lia.
Qed.

Lemma exact_insetDelta_sign (offset insetNr : Z) :
  0 <= insetNr ->
  - 2 ^ 63 <= - (offset * insetNr) < 2 ^ 63 ->
  (2 <= offset -> (insetDelta ExactFloat offset insetNr < 0)%Q)
  /\ (offset <= -2 -> (0 < insetDelta ExactFloat offset insetNr)%Q).
Proof.
  intros Hnr Hrange.
  pose proof (exact_insetDelta offset insetNr Hrange) as Hdelta.
  split; intros Hoffset; rewrite Hdelta;
    unfold Qlt, inject_Z; simpl; rewrite ?Z.mul_1_r.
  - assert (0 < Z.quot offset 2) by (apply Z.quot_str_pos; lia). nia.
  - assert (Z.quot offset 2 < 0).
    { rewrite <- (Z.opp_involutive offset), Z.quot_opp_l by lia.
      assert (0 < Z.quot (- offset) 2) by (apply Z.quot_str_pos; lia). lia. }
    nia.
Qed.

(** C2, as amended: [Inset] returns [insetCount] insets, and inset
    number [i], for every [0 <= i < insetCount] including [i = 0], is the
    offsetter's result on the outline and the holes at delta
    [float64(-(offset*i)) - float64(offset/2)] (64-bit wrap-around,
    truncating division).  In exact arithmetic, as long as
    [-(offset*i)] is within 64 bits, that is [-(offset*i) - offset/2]:
    negative for every offset of 2 or more and positive for every offset
    of -2 or less, so the sign of the delta is the opposite of the sign
    of the offset. *)
Theorem Inset_delta_per_inset (fl : FloatOps) (lib : ClipperLib fl)
    (part : LayerPart) (offset insetCount : Z) :
  length (Inset fl lib part offset insetCount) = Z.to_nat insetCount
  /\ (forall i : nat, Z.of_nat i < insetCount ->
      Inset fl lib part offset insetCount !! i =
      Some (polyTreeToLayerParts
              (offsetExecute2 lib (insetPaths part)
                 (f64_sub fl
                    (f64_of_int fl (wrap64 (- (offset * Z.of_nat i))))
                    (f64_of_int fl (Z.quot offset 2))))))
  /\ (forall i : nat, - 2 ^ 63 <= - (offset * Z.of_nat i) < 2 ^ 63 ->
      (insetDelta ExactFloat offset (Z.of_nat i) ==
       inject_Z (- (offset * Z.of_nat i) - Z.quot offset 2))%Q
      /\ (2 <= offset ->
          (insetDelta ExactFloat offset (Z.of_nat i) < 0)%Q)
      /\ (offset <= -2 ->
          (0 < insetDelta ExactFloat offset (Z.of_nat i))%Q)).
Proof.
  split; [apply Inset_length|]. split.
  - intros i Hi. rewrite Inset_lookup by exact Hi.
    now rewrite insetDelta_unfold.
  - intros i Hi. split; [now apply exact_insetDelta|].
    apply exact_insetDelta_sign; [lia|exact Hi].
Qed.

(** C2 as stated fails: with offset 400, inset number 1 is computed at
    delta -600, which is neither [offset*1 = 400] nor its opposite; on a
    square of side 1000 the two insets are the square shrunk by 200 and
    nothing at all (shrunk by 600). *)
Lemma Inset_delta_not_offset_times_i :
  (insetDelta ExactFloat 400 1 == inject_Z (-600))%Q
  /\ ~ (insetDelta ExactFloat 400 1 ==
        inject_Z (insetDeltaAsSpecified 400 1))%Q
  /\ ~ (insetDelta ExactFloat 400 1 ==
        inject_Z (- insetDeltaAsSpecified 400 1))%Q
  /\ Inset ExactFloat RectangleEngine square1000 400 2 =
     [[NewUnknownLayerPart
         [NewMicroPoint 200 200; NewMicroPoint 800 200;
          NewMicroPoint 800 800; NewMicroPoint 200 800] []];
      []].
Proof.
  split; [reflexivity|]. split; [discriminate|]. split; [discriminate|].
  vm_compute. reflexivity.
Qed.

(** *** Scanlines *)

Section Scanlines.
Context (min max : MicroPoint) (lineWidth : Z).
Hypothesis lineWidth_pos : 0 < lineWidth.

Lemma scanLoop_closed (n : nat) :
  forall (fuel : nat) (x numLine : Z) (lines : list (list IntPoint)),
    (n <= fuel)%nat ->
    n = Z.to_nat ((X max - x) / lineWidth + 1) ->
    scanLoop fuel min max lineWidth x numLine lines =
    Some (lines ++
          map (fun k : nat =>
                 scanLine (numLine + Z.of_nat k)
                   (x + Z.of_nat k * lineWidth) (Y min) (Y max))
              (seq 0 n)).
Proof.
  induction n as [|n IH]; intros fuel x numLine lines Hfuel Hn.
  - assert (Hx : X max < x).
    { destruct (Z_lt_ge_dec (X max) x) as [?|Hge]; [assumption|].
      assert (0 <= (X max - x) / lineWidth)
        by (apply Z.div_pos; lia).
      lia. }
    simpl. rewrite app_nil_r.
    destruct fuel; simpl;
      (destruct (Z.leb_spec x (X max)); [lia | reflexivity]).
  - assert (Hx : x <= X max).
    { destruct (Z_le_gt_dec x (X max)) as [?|Hgt]; [assumption|].
      assert ((X max - x) / lineWidth < 0)
        by (apply Z.div_lt_upper_bound; lia).
      lia. }
    destruct fuel as [|fuel]; [lia|]. simpl scanLoop.
    destruct (Z.leb_spec x (X max)); [|lia].
    assert (Hdiv : (X max - (x + lineWidth)) / lineWidth
                   = (X max - x) / lineWidth - 1).
    { replace (X max - (x + lineWidth))
        with (X max - x + (-1) * lineWidth) by lia.
      rewrite Z.div_add by lia. lia. }
    rewrite (IH fuel) by lia.
    rewrite <- app_assoc. do 2 f_equal.
    change (seq 0 (S n)) with (0%nat :: seq 1 n).
    rewrite <- seq_shift, map_cons, map_map. simpl app.
    f_equal.
    + f_equal; lia.
    + apply map_ext. intros k. f_equal; lia.
Qed.

(** The scanline loop ends, and yields the lines at
    [min.X + k * lineWidth] in alternating direction. *)
Lemma scanLines_closed :
  scanLines min max lineWidth = Some (scanLinesClosedForm min max lineWidth).
Proof.
  unfold scanLines, scanLinesClosedForm.
  rewrite (scanLoop_closed
             (Z.to_nat ((X max - X min) / lineWidth + 1))); [reflexivity| |reflexivity].
  destruct (Z_lt_ge_dec (X max - X min) 0) as [Hneg|Hpos].
  - assert ((X max - X min) / lineWidth < 0)
      by (apply Z.div_lt_upper_bound; lia).
    lia.
  - assert ((X max - X min) / lineWidth <= X max - X min).
    { apply Z.div_le_upper_bound; [lia|]. nia. }
    lia.
Qed.
End Scanlines.

(** *** [Fill] *)




End ClipOffsetProofs.

(** ** The slicer's last pass *)

Module SliceProofs.
Import Data Slice Reference DataProofs.

Lemma sliceTo_full (p : option Path) : sliceTo p (pathLen p) = p.
Proof. destruct p as [points|]; simpl; [|reflexivity]. now rewrite firstn_all. Qed.

Lemma removeLastPoint_in_range (l : layer) (polyIndex : nat) :
  (polyIndex < length (polygons l))%nat -> removeLastPoint l polyIndex = Some l.
Proof.
  intros Hi. unfold removeLastPoint.
  destruct (lookup_lt_is_Some_2 _ _ Hi) as [p Hp]. rewrite Hp.
  rewrite sliceTo_full, list_insert_id by exact Hp. now destruct l.
Qed.

Lemma removeLastPoint_out_of_range (l : layer) (polyIndex : nat) :
  (length (polygons l) <= polyIndex)%nat -> removeLastPoint l polyIndex = None.
Proof.
  intros Hi. unfold removeLastPoint. now rewrite lookup_ge_None_2 by exact Hi.
Qed.

(** C8: [removeLastPoint] leaves the layer as it is for every polygon
    index in range (the re-slice runs to the full length; an index out of
    range panics), so a polygon that the slicer closes, by
    [removeLastPoint] followed by [closed[i] = true], keeps every point,
    its last one included. *)
Theorem removeLastPoint_changes_nothing (l : layer) (polyIndex : nat) :
  removeLastPoint l polyIndex =
    (if decide (polyIndex < length (polygons l))%nat then Some l else None)
  /\ (forall l1 l2 : layer,
        removeLastPoint l polyIndex = Some l1 ->
        setClosed l1 polyIndex = Some l2 ->
        polygons l2 = polygons l /\ closed l2 !! polyIndex = Some true).
Proof.
  split.
  - destruct (decide _) as [Hlt|Hge].
    + now apply removeLastPoint_in_range.
    + apply removeLastPoint_out_of_range. lia.
  - intros l1 l2 H1 H2.
    assert (Hlt : (polyIndex < length (polygons l))%nat).
    { destruct (decide (polyIndex < length (polygons l))%nat) as [?|Hge];
        [assumption|].
      rewrite removeLastPoint_out_of_range in H1 by lia. discriminate. }
    rewrite removeLastPoint_in_range in H1 by exact Hlt.
    injection H1 as <-.
    unfold setClosed in H2. destruct (decide _) as [Hc|]; [|discriminate].
    injection H2 as <-. simpl.
    split; [reflexivity|]. now apply list_lookup_insert_eq.
Qed.

Section LastPass.
Context (Size : MicroPoint -> Z) (IsAlmostFinished : Path -> Z -> bool).
Hypothesis Size_nonneg : forall p, 0 <= Size p.

Lemma lengthFrom_nonneg (prev : MicroPoint) (rest : Path) :
  0 <= lengthFrom Size prev rest.
Proof.
  revert prev. induction rest as [|p rest IH]; intros prev; simpl; [lia|].
  specialize (IH p). specialize (Size_nonneg (Sub p prev)). lia.
Qed.

(** The early exit of the inner loop does not change the verdict: the sum
    it returns exceeds 1000 exactly when the total does, for a polygon
    that counts as closed. *)
Lemma lengthLoop_verdict (l : layer) (i : nat) (c : bool) (rest pre : Path)
    (prev : MicroPoint) (len : Z) :
  closed l !! i = Some c ->
  0 <= len ->
  exists len',
    lengthLoop Size l i (pre ++ prev :: rest) (S (length pre)) rest len
      = Some len'
    /\ (snapDistance <? len') && c
       = (snapDistance <? len + lengthFrom Size prev rest) && c.
Proof.
  intros Hc. revert pre prev len.
  induction rest as [|p rest IH]; intros pre prev len Hlen; simpl.
  - exists len. now rewrite Z.add_0_r.
  - rewrite Hc. simpl.
    replace (length pre - 0)%nat with (length pre) by lia.
    rewrite pointAt_middle.
    pose proof (Size_nonneg (Sub p prev)) as Hs.
    pose proof (lengthFrom_nonneg p rest) as Hr.
    specialize (IH (pre ++ [prev]) p (len + Size (Sub p prev))).
    rewrite <- app_assoc in IH. simpl in IH.
    replace (length (pre ++ [prev])) with (S (length pre)) in IH
      by (rewrite length_app; simpl; lia).
    destruct IH as [len' [Hrun Hv]]; [lia|].
    destruct (c && (snapDistance <? len + Size (Sub p prev))) eqn:Hbreak.
    + (* the loop breaks: the sum so far already exceeds the threshold *)
      apply andb_true_iff in Hbreak as [-> Hgt]. apply Z.ltb_lt in Hgt.
      eexists. split; [reflexivity|]. rewrite !andb_true_r.
      transitivity true; [|symmetry]; apply Z.ltb_lt; lia.
    + exists len'. split; [exact Hrun|]. now rewrite Hv, Z.add_assoc.
Qed.

Lemma lengthLoop_total (l : layer) (i : nat) (c : bool) (points : Path) :
  closed l !! i = Some c ->
  exists len',
    lengthLoop Size l i points 0 points 0 = Some len'
    /\ (snapDistance <? len') && c
       = (snapDistance <? totalLength Size points) && c.
Proof.
  intros Hc. destruct points as [|p0 rest].
  - exists 0. now split.
  - simpl lengthLoop. simpl totalLength.
    destruct (lengthLoop_verdict l i c rest [] p0 0 Hc) as [len' [Hrun Hv]];
      [lia|].
    exists len'. split; [exact Hrun|exact Hv].
Qed.

Lemma clearStep_verdict (l : layer) (cleared : list Path) (i : nat)
    (poly : option Path) (c : bool) :
  polygons l !! i = Some poly ->
  closed l !! i = Some c ->
  exists l1,
    clearStep Size IsAlmostFinished l cleared i poly
      = Some (l1, cleared
                  ++ keepOne Size IsAlmostFinished longerThan1000 poly c)
    /\ polygons l1 = polygons l
    /\ length (closed l1) = length (closed l)
    /\ drop (S i) (closed l1) = drop (S i) (closed l).
Proof.
  intros Hp Hc. destruct poly as [points|]; simpl.
  - unfold keepOne, markedClosed, longerThan1000.
    destruct (IsAlmostFinished points snapDistance) eqn:Haf.
    + rewrite removeLastPoint_in_range by (eapply lookup_lt_Some; exact Hp).
      simpl. unfold setClosed.
      destruct (decide _) as [Hlt|Hge];
        [|exfalso; apply Hge; eapply lookup_lt_Some; exact Hc].
      simpl. set (l2 := {| polygons := polygons l;
                           closed := <[i:=true]> (closed l) |}).
      assert (Hc2 : closed l2 !! i = Some true)
        by (now apply list_lookup_insert_eq).
      destruct (lengthLoop_total l2 i true points Hc2) as [len' [Hrun Hv]].
      rewrite Hrun. simpl. change (polygons l2) with (polygons l).
      rewrite Hp. simpl. rewrite !andb_true_r in Hv.
      change (1000 <? totalLength Size points)
        with (snapDistance <? totalLength Size points).
      rewrite orb_true_r. simpl. rewrite <- Hv.
      exists l2. repeat split.
      * destruct (snapDistance <? len'); simpl.
        -- now rewrite list_lookup_insert_eq by lia.
        -- now rewrite app_nil_r.
      * simpl. apply length_insert.
      * simpl. apply drop_insert_lt. lia.
    + simpl.
      destruct (lengthLoop_total l i c points Hc) as [len' [Hrun Hv]].
      rewrite Hrun. simpl. rewrite Hp. simpl.
      rewrite orb_false_r.
      change (1000 <? totalLength Size points)
        with (snapDistance <? totalLength Size points).
      rewrite andb_comm, <- Hv.
      exists l. repeat split.
      destruct (snapDistance <? len'); simpl.
      * rewrite Hc. simpl. destruct c; [reflexivity|now rewrite app_nil_r].
      * now rewrite app_nil_r.
  - exists l. rewrite app_nil_r. now repeat split.
Qed.

Lemma clearLoop_kept (rest : list (option Path)) :
  forall (pre : list (option Path)) (cls : list bool) (l : layer)
         (cleared : list Path),
    polygons l = pre ++ rest ->
    drop (length pre) (closed l) = cls ->
    length cls = length rest ->
    exists l',
      clearLoop Size IsAlmostFinished (length pre) rest l cleared
        = Some (l', cleared
                    ++ keptPolygons Size IsAlmostFinished longerThan1000
                         rest cls)
      /\ polygons l' = polygons l.
Proof.
  induction rest as [|poly rest IH]; intros pre cls l cleared Hpolys Hcls Hlen.
  - exists l. simpl. now rewrite app_nil_r.
  - destruct cls as [|c cls]; [discriminate|].
    assert (Hp : polygons l !! length pre = Some poly)
      by (rewrite Hpolys; now apply list_lookup_middle).
    assert (Hc : closed l !! length pre = Some c).
    { rewrite <- (Nat.add_0_r (length pre)), <- lookup_drop, Hcls.
      reflexivity. }
    destruct (clearStep_verdict l cleared (length pre) poly c Hp Hc)
      as [l1 [Hstep [Hpol1 [Hlen1 Hdrop1]]]].
    simpl clearLoop. rewrite Hstep. simpl.
    specialize (IH (pre ++ [poly]) cls l1
                  (cleared ++ keepOne Size IsAlmostFinished
                                longerThan1000 poly c)).
    replace (length (pre ++ [poly])) with (S (length pre)) in IH
      by (rewrite length_app; simpl; lia).
    destruct IH as [l' [Hrun Hpol']].
    + rewrite Hpol1, Hpolys. now rewrite <- app_assoc.
    + rewrite Hdrop1. rewrite (drop_S _ _ _ Hc) in Hcls. congruence.
    + simpl in Hlen. lia.
    + exists l'. split.
      * rewrite Hrun. now rewrite <- app_assoc.
      * congruence.
Qed.

End LastPass.

Lemma keptPolygons_elem (Size : MicroPoint -> Z)
    (IsAlmostFinished : Path -> Z -> bool) (longEnough : Z -> bool)
    (polys : list (option Path)) :
  forall (cls : list bool) (points : Path),
    points ∈ keptPolygons Size IsAlmostFinished longEnough polys cls <->
    exists (i : nat) (c : bool),
      polys !! i = Some (Some points) /\ cls !! i = Some c
      /\ markedClosed IsAlmostFinished points c = true
      /\ longEnough (totalLength Size points) = true.
Proof.
  induction polys as [|poly polys IH]; intros cls points; simpl.
  - rewrite elem_of_nil. split; [tauto|]. intros [i [c [H _]]]. discriminate.
  - destruct cls as [|c cls].
    + rewrite elem_of_nil. split; [tauto|].
      intros [i [c [_ [H _]]]]. discriminate.
    + rewrite elem_of_app, IH. split.
      * intros [Hhere|[i [c' H]]].
        -- exists 0%nat, c. unfold keepOne in Hhere.
           destruct poly as [pts|]; [|now apply elem_of_nil in Hhere].
           destruct (markedClosed IsAlmostFinished pts c) eqn:Hm;
             [|now apply elem_of_nil in Hhere].
           destruct (longEnough (totalLength Size pts)) eqn:Hl;
             [|now apply elem_of_nil in Hhere].
           apply list_elem_of_singleton in Hhere. subst pts. now repeat split.
        -- exists (S i), c'. exact H.
      * intros [[|i] [c' [Hp [Hc [Hm Hl]]]]].
        -- left. simpl in Hp, Hc. injection Hp as ->. injection Hc as ->.
           unfold keepOne. rewrite Hm, Hl. now apply list_elem_of_singleton.
        -- right. exists i, c'. now repeat split.
Qed.


Lemma hypot_nonneg (p : MicroPoint) : 0 <= hypot p.
Proof. apply Z.sqrt_nonneg. Qed.



End SliceProofs.

(** ** Support modifiers *)

Module ModifierProofs.
Import Data Modifier Reference.

(** C7: reading the "fullSupport" attribute returns the stored list of
    layer parts without error when the attribute exists with that type,
    returns nil without error when the attribute is missing, and returns
    an error exactly when the attribute exists with another type. *)
Theorem FullSupport_reads_attribute (layer : PartitionedLayer) :
  (forall parts : PartList,
      Attributes layer !! "fullSupport" = Some (AttrLayerParts parts) ->
      FullSupport layer = (parts, None))
  /\ (Attributes layer !! "fullSupport" = None ->
      FullSupport layer = (None, None))
  /\ (snd (FullSupport layer) <> None <->
      exists attr : AttrValue,
        Attributes layer !! "fullSupport" = Some attr
        /\ forall parts : PartList, attr <> AttrLayerParts parts).
Proof.
  unfold FullSupport. split; [|split].
  - intros parts H. now rewrite H.
  - intros H. now rewrite H.
  - destruct (Attributes layer !! "fullSupport") as [[parts|insets|paths]|];
      simpl; split.
    + intros H. now contradiction H.
    + intros [attr [H Hne]]. injection H as <-. now contradiction (Hne parts).
    + intros _. exists (AttrOffsetResult insets). split; [reflexivity|].
      intros parts. discriminate.
    + intros _. discriminate.
    + intros _. exists (AttrPaths paths). split; [reflexivity|].
      intros parts. discriminate.
    + intros _. discriminate.
    + intros H. now contradiction H.
    + intros [attr [H _]]. discriminate.
Qed.

(** C9: with support disabled, the support detector and the support
    generator both return nil at once and leave the layers, attribute
    maps included, exactly as they were. *)
Theorem support_disabled_changes_nothing
    (InsetLayer1D : PartList -> Z -> Z -> Z -> PartList)
    (Difference Union : PartList -> PartList -> PartList * bool)
    (BrimOuterDimension : PartitionedLayer -> PartList * option error)
    (roundedDistance : Z -> Z -> Z)
    (options : Options) (layers : list PartitionedLayer) :
  Enabled options = false ->
  detectorModify InsetLayer1D Difference roundedDistance options layers
    = Returned layers None
  /\ generatorModify InsetLayer1D Difference Union BrimOuterDimension
       options layers
     = Returned layers None.
Proof.
  intros Hoff. split.
  - unfold detectorModify. destruct layers as [|layer layers]; [reflexivity|].
    simpl. unfold detectStep. now rewrite Hoff.
  - unfold generatorModify.
    destruct (length layers - 1)%nat; simpl; [reflexivity|].
    now rewrite Hoff.
Qed.

Lemma support_disabled_changes_nothing_witness :
  let layers :=
    [mkPartitionedLayer (Some [square1000])
       {["support" := AttrLayerParts (Some [square1000])]};
     mkPartitionedLayer None ∅] in
  detectorModify tileInset tileDifference noDistance supportOff layers
    = Returned layers None
  /\ generatorModify tileInset tileDifference tileUnion noBrim supportOff layers
     = Returned layers None.
Proof.
  exact (support_disabled_changes_nothing tileInset tileDifference tileUnion
           noBrim noDistance supportOff _ eq_refl).
Defined.

Lemma newExtendedLayer_same (layer : PartitionedLayer) :
  newExtendedLayer layer = layer.
Proof. now destruct layer. Qed.

Section Detector.
Context (InsetLayer1D : PartList -> Z -> Z -> Z -> PartList).
Context (Difference : PartList -> PartList -> PartList * bool).
Context (roundedDistance : Z -> Z -> Z).
Context (options : Options).
Hypothesis enabled : Enabled options = true.
Hypothesis gap_nonneg : 0 <= TopGapLayers options.

Local Abbreviation region := (supportRegion InsetLayer1D Difference roundedDistance options).
Local Abbreviation enlarge := (enlargeSupport InsetLayer1D options).
Local Abbreviation step := (detectStep InsetLayer1D Difference roundedDistance options).
Local Abbreviation loop := (detectLoop InsetLayer1D Difference roundedDistance options).
Local Abbreviation gap := (Z.to_nat (TopGapLayers options)).

Lemma withDetectedSupport_parts (target : PartitionedLayer) (support : PartList) :
  LayerParts (withDetectedSupport target support) = LayerParts target.
Proof. unfold withDetectedSupport. now destruct (0 <? len support). Qed.

(** The region depends on the two layers through their parts only. *)
Lemma supportRegion_parts (cur cur' next next' : PartitionedLayer) :
  LayerParts cur = LayerParts cur' -> LayerParts next = LayerParts next' ->
  region cur next = region cur' next'.
Proof. intros Hc Hn. unfold supportRegion. now rewrite Hc, Hn. Qed.

Local Abbreviation DetectInv :=
  (Modifier.DetectInv InsetLayer1D Difference roundedDistance options).

Lemma DetectInv_start (orig : list PartitionedLayer) : DetectInv orig orig 0.
Proof. split; [reflexivity|reflexivity|reflexivity|]. intros; lia. Qed.

Lemma detectStep_return (layers layers' : list PartitionedLayer)
    (layerNr : nat) (err : option error) :
  step layers layerNr = DetectReturn layers' err -> err <> None.
Proof.
  unfold detectStep. rewrite enabled. simpl.
  destruct (_ || _); [discriminate|].
  destruct (layers !! layerNr) as [cur|]; [|discriminate].
  destruct (layers !! S layerNr) as [next|]; [|discriminate].
  destruct (region cur next) as [support ok].
  destruct ok; simpl.
  - destruct (_ && _); [|discriminate].
    destruct (layers !! _); discriminate.
  - intros H. injection H as _ <-. discriminate.
Qed.

Lemma detectStep_next (orig now now' : list PartitionedLayer) (layerNr : nat) :
  DetectInv orig now layerNr ->
  step now layerNr = DetectNext now' ->
  DetectInv orig now' (S layerNr).
Proof.
  intros [Hlen Hparts Hun Hwr]. unfold detectStep. rewrite enabled. simpl.
  destruct (Z.eqb_spec (Z.of_nat layerNr) (Z.of_nat (length now) - 1))
    as [Hlast|Hnotlast]; simpl.
  { (* the top layer is skipped *)
    intros H. injection H as <-. split; try assumption.
    - intros j Hj. apply Hun. lia.
    - intros n target cur next Hn Hg Hn1. apply Hwr; lia. }
  destruct (Z.ltb_spec (Z.of_nat layerNr) (TopGapLayers options))
    as [Hlow|Hhigh]; simpl.
  { (* the lowest layers are skipped *)
    intros H. injection H as <-. split; try assumption.
    - intros j Hj. apply Hun. lia.
    - intros n target cur next Hn Hg Hn1. apply Hwr; lia. }
  destruct (now !! layerNr) as [cur|] eqn:Hcur; [|discriminate].
  destruct (now !! S layerNr) as [next|] eqn:Hnext; [|discriminate].
  destruct (region cur next) as [support ok] eqn:Hregion.
  destruct ok; simpl; [|discriminate].
  assert (Htarget : Z.to_nat (Z.of_nat layerNr - TopGapLayers options)
                    = (layerNr - gap)%nat) by lia.
  rewrite Htarget.
  destruct (_ && _); [|discriminate].
  destruct (now !! (layerNr - gap)%nat) as [target|] eqn:Htl; [|discriminate].
  intros H. injection H as <-.
  assert (Horig : orig !! (layerNr - gap)%nat = Some target)
    by (rewrite <- Hun by lia; exact Htl).
  split.
  - now rewrite length_insert.
  - intros j. destruct (decide (j = (layerNr - gap)%nat)) as [->|Hne].
    + rewrite list_lookup_insert_eq by (eapply lookup_lt_Some; exact Htl).
      rewrite <- Hparts, Htl. simpl. now rewrite withDetectedSupport_parts.
    + rewrite list_lookup_insert_ne by congruence. apply Hparts.
  - intros j Hj. rewrite list_lookup_insert_ne by lia. apply Hun. lia.
  - intros n target' cur' next' Hn Hg Hn1 Ht Hc Hx.
    destruct (decide (n = layerNr)) as [->|Hne].
    + rewrite list_lookup_insert_eq by (eapply lookup_lt_Some; exact Htl).
      assert (target' = target) by congruence. subst target'.
      assert (Hpc : LayerParts cur = LayerParts cur').
      { pose proof (Hparts layerNr) as E. rewrite Hcur, Hc in E.
        now injection E. }
      assert (Hpn : LayerParts next = LayerParts next').
      { pose proof (Hparts (S layerNr)) as E. rewrite Hnext, Hx in E.
        now injection E. }
      rewrite <- (supportRegion_parts cur cur' next next' Hpc Hpn), Hregion.
      reflexivity.
    + rewrite list_lookup_insert_ne by lia.
      apply (Hwr n target' cur' next'); try assumption. lia.
Qed.

Lemma detectLoop_inv (orig : list PartitionedLayer) (count : nat) :
  forall (layerNr : nat) (now final : list PartitionedLayer),
    DetectInv orig now layerNr ->
    loop count layerNr now = Returned final None ->
    DetectInv orig final (count + layerNr).
Proof.
  induction count as [|count IH]; intros layerNr now final Hinv; simpl.
  - intros H. now injection H as <-.
  - destruct (step now layerNr) as [now'|now' err|] eqn:Hstep.
    + intros Hrun. replace (S (count + layerNr)) with (count + S layerNr)%nat
        by lia.
      apply (IH (S layerNr) now' final); [|exact Hrun].
      eapply detectStep_next; eassumption.
    + intros H. injection H as _ ->.
      now apply detectStep_return in Hstep.
    + discriminate.
Qed.

End Detector.


(** Under the contract the specification gives for [InsetLayer], the
    enlargement is the single inset 0, taken at the first offset
    [3 * patternSpacing / 2]; the offset [-3 * patternSpacing] would only
    serve insets from number 1 on, and there is none. *)
Lemma enlargeSupport_as_specified
    (offsetPart : LayerPart -> Z -> list LayerPart)
    (options : Options) (support : list LayerPart) :
  enlargeSupport (InsetLayerAsSpecified offsetPart) options (Some support)
  = match flat_map (fun part =>
                      offsetPart part (Z.quot (PatternSpacing options * 3) 2))
                   support with
    | [] => None
    | flat => Some flat
    end.
Proof.
  unfold enlargeSupport, InsetLayerAsSpecified. simpl.
  replace (flat_map _ support)
    with (flat_map (fun part =>
                      offsetPart part (Z.quot (PatternSpacing options * 3) 2))
                   support); [reflexivity|].
  apply flat_map_ext. intros part. now rewrite app_nil_r.
Qed.



Section Generator.
Context (InsetLayer1D : PartList -> Z -> Z -> Z -> PartList).
Context (Difference Union : PartList -> PartList -> PartList * bool).
Context (BrimOuterDimension : PartitionedLayer -> PartList * option error).
Context (options : Options).

Local Abbreviation compute :=
  (computeSupport InsetLayer1D Difference Union BrimOuterDimension options).
Local Abbreviation gstep :=
  (genStep InsetLayer1D Difference Union BrimOuterDimension options).
Local Abbreviation gloop :=
  (genLoop InsetLayer1D Difference Union BrimOuterDimension options).

(** The value the generator leaves under "support". *)
Lemma withGeneratedSupport_support (below : PartitionedLayer)
    (actualSupport interfaceParts actualWithoutInterfaceParts : PartList) :
  Attributes (withGeneratedSupport below actualSupport interfaceParts
                actualWithoutInterfaceParts) !! "support"
  = Some (AttrLayerParts
            (if 0 <? len actualWithoutInterfaceParts
             then actualWithoutInterfaceParts else Some [])).
Proof.
  unfold withGeneratedSupport.
  destruct (0 <? len actualWithoutInterfaceParts); simpl;
    apply lookup_insert_eq.
Qed.

(** One iteration writes at most layer [layerNr - 1]. *)
Lemma genStep_frame (layers layers' : list PartitionedLayer)
    (lastSupport lastSupport' : PartList) (layerNr : nat) :
  gstep layers lastSupport layerNr = GenNext layers' lastSupport' ->
  length layers' = length layers
  /\ forall j, j <> (layerNr - 1)%nat -> layers' !! j = layers !! j.
Proof.
  unfold genStep. destruct (compute layers lastSupport layerNr); try discriminate.
  - intros H. injection H as <- _. now split.
  - destruct (layers !! (layerNr - 1)%nat); [|discriminate].
    intros H. injection H as <- _. split.
    + apply length_insert.
    + intros j Hj. now apply list_lookup_insert_ne.
Qed.

Lemma genStep_return (layers layers' : list PartitionedLayer)
    (lastSupport : PartList) (layerNr : nat) (err : option error) :
  gstep layers lastSupport layerNr = GenReturn layers' err -> layers' = layers.
Proof.
  unfold genStep. destruct (compute layers lastSupport layerNr); try discriminate.
  - intros H. now injection H as <- _.
  - destruct (layers !! (layerNr - 1)%nat); discriminate.
Qed.

(** With [count] iterations to go, the loop no longer touches the layers
    from [count - 1] upwards. *)
Lemma genLoop_frame (count : nat) :
  forall (layers final : list PartitionedLayer) (lastSupport : PartList)
         (err : option error),
    gloop count layers lastSupport = Returned final err ->
    forall j, (count <= j + 1)%nat -> final !! j = layers !! j.
Proof.
  induction count as [|layerNr IH]; intros layers final lastSupport err; simpl.
  - intros H. now injection H as <- _.
  - destruct (negb (Enabled options) || (layerNr =? 0)%nat) eqn:Hstop.
    + intros H. now injection H as <- _.
    + apply orb_false_elim in Hstop as [_ Hnz].
      apply Nat.eqb_neq in Hnz.
      destruct (gstep layers lastSupport layerNr)
        as [layers' lastSupport'|layers' err'|] eqn:Hstep.
      * intros Hrun j Hj.
        rewrite (IH _ _ _ _ Hrun) by lia.
        apply (genStep_frame _ _ _ _ _ Hstep). lia.
      * intros H. injection H as <- _.
        now rewrite (genStep_return _ _ _ _ _ Hstep).
      * discriminate.
Qed.

(** How the areas of an iteration relate: a nil support leaves the other
    two nil; otherwise the body is the support minus the interface parts,
    both further reduced by the brim area where the layer below has one. *)
Lemma computeSupport_areas (layers : list PartitionedLayer)
    (lastSupport : PartList) (layerNr : nat)
    (result actualSupport interfaceParts actualWithoutInterfaceParts : PartList) :
  compute layers lastSupport layerNr
    = Areas result actualSupport interfaceParts actualWithoutInterfaceParts ->
  exists below : PartitionedLayer,
    layers !! (layerNr - 1)%nat = Some below
    /\ (isNil actualSupport = true ->
        interfaceParts = None /\ actualWithoutInterfaceParts = None)
    /\ (isNil actualSupport = false ->
        exists interface0 : PartList,
          let body0 := fst (Difference actualSupport interface0) in
          let brimArea := fst (BrimOuterDimension below) in
          if isNil brimArea
          then interfaceParts = interface0
               /\ actualWithoutInterfaceParts = body0
          else interfaceParts = fst (Difference interface0 brimArea)
               /\ actualWithoutInterfaceParts
                  = fst (Difference body0 brimArea)).
Proof.
  unfold computeSupport.
  destruct (layers !! layerNr) as [cur|]; [|discriminate].
  destruct (layers !! (layerNr - 1)%nat) as [below|]; [|discriminate].
  intros H. exists below. split; [reflexivity|].
  destruct (if isNil lastSupport then _ else _) as [currentSupport [e|]];
    [discriminate|].
  destruct (PartsAttribute below "support") as [belowSupport [e|]];
    [discriminate|].
  destruct (_ && _); [discriminate|].
  destruct (Union currentSupport belowSupport) as [res [|]];
    simpl in H; [|discriminate].
  destruct (Difference res _) as [actual [|]]; simpl in H; [|discriminate].
  destruct (isNil actual) eqn:Hnil.
  - injection H as -> -> <- <-. rewrite Hnil. split; [now split|discriminate].
  - unfold separateInterface in H.
    destruct (_ <? 0); [discriminate|].
    destruct (layers !! Z.to_nat _) as [above|]; [|discriminate].
    destruct (PartsAttribute above "fullSupport") as [aboveSupport [e|]];
      [discriminate|].
    destruct (Difference actual aboveSupport) as [interface0 [|]] eqn:Hi;
      simpl in H; [|discriminate].
    destruct (Difference actual interface0) as [body0 [|]] eqn:Hb;
      simpl in H; [|discriminate].
    destruct (BrimOuterDimension below) as [brimArea [e|]] eqn:Hbrim;
      [discriminate|].
    destruct (isNil brimArea) eqn:Hbn.
    + injection H as -> -> <- <-. rewrite Hnil. split; [discriminate|].
      intros _. exists interface0. simpl. rewrite Hb, Hbn. now split.
    + injection H as -> -> <- <-. rewrite Hnil. split; [discriminate|].
      intros _. exists interface0. simpl. rewrite Hb, Hbn. now split.
Qed.

(** An iteration that meets no error computes its areas from the
    library's results as the source lays them out. *)
Lemma computeSupport_completes (layers : list PartitionedLayer)
    (lastSupport : PartList) (layerNr : nat) (cur below : PartitionedLayer)
    (currentSupport belowSupport result actualSupport body : PartList) :
  layers !! layerNr = Some cur ->
  layers !! (layerNr - 1)%nat = Some below ->
  (if isNil lastSupport then PartsAttribute cur "support"
   else (lastSupport, None)) = (currentSupport, None) ->
  PartsAttribute below "support" = (belowSupport, None) ->
  (len currentSupport =? 0) && (len belowSupport =? 0) = false ->
  Union currentSupport belowSupport = (result, true) ->
  Difference result
    (InsetLayer1D (LayerParts below) (- Gap options) 1
       (Z.quot (Gap options) 2))
    = (actualSupport, true) ->
  (isNil actualSupport = true /\ body = None
   \/ isNil actualSupport = false
      /\ exists (above : PartitionedLayer)
                (supportAboveInterface interfaceParts withoutInterface
                 brimArea : PartList),
           let n :=
             Clip.wrap64
               (Clip.wrap64 (Z.of_nat layerNr + InterfaceLayers options)
                - 1) in
           let aboveNr :=
             if Z.of_nat (length layers) <=? n
             then Z.of_nat (length layers) - 1 else n in
           0 <= aboveNr
           /\ layers !! Z.to_nat aboveNr = Some above
           /\ PartsAttribute above "fullSupport"
              = (supportAboveInterface, None)
           /\ Difference actualSupport supportAboveInterface
              = (interfaceParts, true)
           /\ Difference actualSupport interfaceParts
              = (withoutInterface, true)
           /\ BrimOuterDimension below = (brimArea, None)
           /\ body = (if isNil brimArea then withoutInterface
                      else fst (Difference withoutInterface brimArea))) ->
  exists interfaceParts : PartList,
    compute layers lastSupport layerNr
    = Areas result actualSupport interfaceParts body.
Proof.
  intros Hcur Hbelow Hcs Hbs Hne Hunion Hdiff Hrest.
  unfold computeSupport. rewrite Hcur, Hbelow, Hcs, Hbs, Hne, Hunion.
  simpl. rewrite Hdiff. simpl.
  destruct Hrest as [[Hnil ->]|[Hnil Hrest]]; rewrite Hnil.
  - now exists None.
  - destruct Hrest
      as [above [supportAbove [interface0 [body0 [brimArea Hrest]]]]].
    cbv zeta in Hrest.
    destruct Hrest as [Hpos [Habove [Hfull [Hi [Hb [Hbrim ->]]]]]].
    unfold separateInterface, layerNrAboveInterface.
    destruct (Z.ltb_spec
                (if Z.of_nat (length layers) <=?
                      Clip.wrap64
                        (Clip.wrap64
                           (Z.of_nat layerNr + InterfaceLayers options) - 1)
                 then Z.of_nat (length layers) - 1
                 else Clip.wrap64
                        (Clip.wrap64
                           (Z.of_nat layerNr + InterfaceLayers options) - 1))
                0) as [Hneg|_]; [lia|].
    rewrite Habove, Hfull, Hi. simpl. rewrite Hb. simpl. rewrite Hbrim.
    destruct (isNil brimArea); eexists; reflexivity.
Qed.

End Generator.

(** C10, as amended: with support enabled, every iteration of the
    generator that computes the union of the supports (the current and
    the below support are not both empty) and meets no error writes the
    layer below it (layers [len - 3] down to 0) and overwrites its
    "support" attribute: with the support areas minus the interface
    parts, further reduced by the brim area when the layer has one, when
    the result is non-empty, and with an empty list otherwise (also when
    the support itself is nil); that value is what the layer holds
    whenever [Modify] returns, whatever "support" value it had before. *)
Theorem generator_overwrites_support
    (InsetLayer1D : PartList -> Z -> Z -> Z -> PartList)
    (Difference Union : PartList -> PartList -> PartList * bool)
    (BrimOuterDimension : PartitionedLayer -> PartList * option error)
    (options : Options) (layers : list PartitionedLayer)
    (lastSupport : PartList) (layerNr : nat) (cur below : PartitionedLayer)
    (currentSupport belowSupport result actualSupport body : PartList) :
  Enabled options = true ->
  (1 <= layerNr)%nat ->
  layers !! layerNr = Some cur ->
  layers !! (layerNr - 1)%nat = Some below ->
  (if isNil lastSupport then PartsAttribute cur "support"
   else (lastSupport, None)) = (currentSupport, None) ->
  PartsAttribute below "support" = (belowSupport, None) ->
  (len currentSupport =? 0) && (len belowSupport =? 0) = false ->
  Union currentSupport belowSupport = (result, true) ->
  Difference result
    (InsetLayer1D (LayerParts below) (- Gap options) 1
       (Z.quot (Gap options) 2))
    = (actualSupport, true) ->
  (isNil actualSupport = true /\ body = None
   \/ isNil actualSupport = false
      /\ exists (above : PartitionedLayer)
                (supportAboveInterface interfaceParts withoutInterface
                 brimArea : PartList),
           let n :=
             Clip.wrap64
               (Clip.wrap64 (Z.of_nat layerNr + InterfaceLayers options)
                - 1) in
           let aboveNr :=
             if Z.of_nat (length layers) <=? n
             then Z.of_nat (length layers) - 1 else n in
           0 <= aboveNr
           /\ layers !! Z.to_nat aboveNr = Some above
           /\ PartsAttribute above "fullSupport"
              = (supportAboveInterface, None)
           /\ Difference actualSupport supportAboveInterface
              = (interfaceParts, true)
           /\ Difference actualSupport interfaceParts
              = (withoutInterface, true)
           /\ BrimOuterDimension below = (brimArea, None)
           /\ body = (if isNil brimArea then withoutInterface
                      else fst (Difference withoutInterface brimArea))) ->
  let stored := AttrLayerParts (if 0 <? len body then body else Some []) in
  exists layers1 : list PartitionedLayer,
    genLoop InsetLayer1D Difference Union BrimOuterDimension options
      (S layerNr) layers lastSupport
    = genLoop InsetLayer1D Difference Union BrimOuterDimension options
        layerNr layers1 actualSupport
    /\ (forall j : nat, j <> (layerNr - 1)%nat -> layers1 !! j = layers !! j)
    /\ supportAttribute layers1 (layerNr - 1) = Some stored
    /\ (forall (final : list PartitionedLayer) (err : option error),
          genLoop InsetLayer1D Difference Union BrimOuterDimension options
            (S layerNr) layers lastSupport = Returned final err ->
          supportAttribute final (layerNr - 1) = Some stored).
Proof.
  intros Hon Hnr Hcur Hbelow Hcs Hbs Hne Hunion Hdiff Hrest stored.
  destruct (computeSupport_completes InsetLayer1D Difference Union
              BrimOuterDimension options layers lastSupport layerNr cur below
              currentSupport belowSupport result actualSupport body
              Hcur Hbelow Hcs Hbs Hne Hunion Hdiff Hrest)
    as [interfaceParts Hareas].
  set (layers1 := <[(layerNr - 1)%nat :=
                      withGeneratedSupport below actualSupport interfaceParts
                        body]> layers).
  assert (Hstep : genStep InsetLayer1D Difference Union BrimOuterDimension
                    options layers lastSupport layerNr
                  = GenNext layers1 actualSupport).
  { unfold genStep. now rewrite Hareas, Hbelow. }
  assert (Hloop : genLoop InsetLayer1D Difference Union BrimOuterDimension
                    options (S layerNr) layers lastSupport
                  = genLoop InsetLayer1D Difference Union BrimOuterDimension
                      options layerNr layers1 actualSupport).
  { simpl. rewrite Hon. simpl.
    destruct (Nat.eqb_spec layerNr 0) as [?|_]; [lia|]. now rewrite Hstep. }
  assert (Hstored : supportAttribute layers1 (layerNr - 1) = Some stored).
  { unfold supportAttribute, layers1.
    rewrite list_lookup_insert_eq by (eapply lookup_lt_Some; exact Hbelow).
    simpl. apply withGeneratedSupport_support. }
  exists layers1. split; [exact Hloop|]. split; [|split].
  - intros j Hj. unfold layers1. now apply list_lookup_insert_ne.
  - exact Hstored.
  - intros final err Hrun. rewrite Hloop in Hrun.
    unfold supportAttribute in *.
    rewrite (genLoop_frame _ _ _ _ _ _ _ _ _ _ Hrun) by lia.
    exact Hstored.
Qed.

Lemma generator_overwrites_support_witness :
  let lower :=
    mkPartitionedLayer (Some [square1000])
      {["support" := AttrLayerParts (Some [squareBeside])]} in
  let layers := [lower; emptyLayer; emptyLayer] in
  supportAttribute layers 0 = Some (AttrLayerParts (Some [squareBeside]))
  /\ forall (final : list PartitionedLayer) (err : option error),
       generatorModify tileInset tileDifference tileUnion noBrim
         supportOn layers = Returned final err ->
       supportAttribute final 0 = Some (AttrLayerParts (Some [])).
Proof.
  intros lower layers. split; [reflexivity|].
  destruct (generator_overwrites_support tileInset tileDifference tileUnion
              noBrim supportOn layers None 1 emptyLayer lower
              None (Some [squareBeside]) (Some [squareBeside])
              (Some [squareBeside]) None
              eq_refl ltac:(lia) eq_refl eq_refl eq_refl eq_refl eq_refl
              eq_refl eq_refl)
    as [layers1 [_ [_ [_ Hfinal]]]].
  - right. split; [reflexivity|].
    exists emptyLayer, None, (Some [squareBeside]), None, None.
    cbv zeta. split; [vm_compute; discriminate|].
    repeat split; reflexivity.
  - exact Hfinal.
Defined.

(** C10 as stated fails on a layer with a brim: the support areas minus
    the interface parts are not empty (the tile beside the model, none of
    it interface since the layer above is supported there as well), yet
    the brim covers them and what the generator stores under "support"
    is the empty list. *)
Lemma generator_stores_less_under_a_brim :
  let lower :=
    mkPartitionedLayer (Some [square1000])
      {["support" := AttrLayerParts (Some [squareBeside])]} in
  let top :=
    mkPartitionedLayer None
      {["fullSupport" := AttrLayerParts (Some [squareBeside])]} in
  let layers := [lower; emptyLayer; top] in
  let actualSupport := Some [squareBeside] in
  let interfaceParts := fst (tileDifference actualSupport (Some [squareBeside])) in
  computeSupport tileInset tileDifference tileUnion brimBeside supportOn
    layers None 1
  = Areas (Some [squareBeside]) actualSupport None None
  /\ interfaceParts = None
  /\ fst (tileDifference actualSupport interfaceParts) = Some [squareBeside]
  /\ generatorModify tileInset tileDifference tileUnion brimBeside supportOn
       layers
     = Returned [withGeneratedSupport lower actualSupport None None;
                 emptyLayer; top] None
  /\ supportAttribute
       [withGeneratedSupport lower actualSupport None None; emptyLayer; top]
       0
     = Some (AttrLayerParts (Some []))
  /\ Some (AttrLayerParts (Some []))
     <> Some (AttrLayerParts
                (fst (tileDifference actualSupport interfaceParts))).
Proof.
  cbv zeta. split; [reflexivity|]. split; [reflexivity|].
  split; [reflexivity|]. split; [reflexivity|]. split; [reflexivity|].
  discriminate.
Qed.

End ModifierProofs.

(** ** The start sequence *)

Module RendererProofs.
Import Renderer Reference.

Lemma commands_app (b b' : Builder) :
  commands (b ++ b') = commands b ++ commands b'.
Proof.
  induction b as [|call b IH]; [reflexivity|].
  destruct call; simpl; now rewrite IH.
Qed.

(** C6, as amended: on layer 0 the commands emitted begin with the start
    sequence: fan off, start heating the hot end, heat the bed and wait
    ([M190]), wait for the hot end ([M109]), lift the nozzle to Z=5
    ([G1 Z5]), then reset the extrusion distance ([G92 E0]); no homing
    command ([G28]) is emitted. *)
Theorem PreLayer_start_sequence (b : Builder) (maxLayer : Z)
    (layer : Modifier.PartitionedLayer) (z : Z) (options : Options) :
  let cmds := commands (fst (Render [] 0 maxLayer layer z options)) in
  snd (Render b 0 maxLayer layer z options) = None
  /\ commands (fst (Render b 0 maxLayer layer z options))
     = commands b ++ cmds
  /\ take 6 cmds = startCommands options
  /\ emits "M190" cmds = true /\ emits "M109" cmds = true
  /\ emits "G1 Z5" cmds = true /\ emits "G92 E0" cmds = true
  /\ emits "G28" cmds = false.
Proof.
  unfold Render. cbv zeta.
  change (0 =? 0) with true. change (0 <? 0) with false. cbv iota.
  destruct (LayerToSpeedLUT options !! 0) as [fanSpeed|];
    [destruct (fanSpeed =? 0)|];
    destruct (0 =? InitialTemperatureLayerCount options);
    cbn [fst snd]; rewrite <- ?app_assoc; repeat rewrite commands_app; simpl;
    repeat split; reflexivity.
Qed.

(** C6 as stated fails: the commands of layer 0 contain no [G28], so the
    start sequence does not home the printer. *)
Lemma PreLayer_start_sequence_does_not_home :
  let cmds := commands (fst (Render [] 0 10 emptyLayer 200 printOptions)) in
  cmds = [("M107 ; disable fan", []);
          ("M104 S%d ; start heating hot end", [205]);
          ("M190 S%d ; heat and wait for bed", [60]);
          ("M109 S%d ; wait for hot end temperature", [205]);
          ("G1 Z5 F5000 ; lift nozzle", []);
          ("G92 E0 ; reset extrusion distance", [])]
  /\ emits "G28" cmds = false
  /\ startSequenceAsSpecified cmds <> true.
Proof.
  cbv zeta. split; [vm_compute; reflexivity|]. split; [vm_compute; reflexivity|].
  vm_compute. discriminate.
Qed.

End RendererProofs.

(** * Further properties of the clip package *)

Module ClipMoreProofs.
Import Data Clip DataProofs.

(** *** Conversions *)

Lemma microPoint_clipperPoint (p : MicroPoint) : microPoint (clipperPoint p) = p.
Proof. now destruct p. Qed.

Lemma clipperPoint_microPoint (p : IntPoint) : clipperPoint (microPoint p) = p.
Proof. now destruct p. Qed.

Lemma microPath_clipperPath (path : Path) : microPath (clipperPath path) = path.
Proof.
  unfold microPath, clipperPath. rewrite map_map.
  rewrite <- (map_id path) at 2. apply map_ext, microPoint_clipperPoint.
Qed.

(** The conversions between GoSlice paths and clipper paths are inverse
    to each other, point by point and in both directions: nothing is lost
    or reordered on the way into the library and back. *)
Theorem path_conversions_round_trip (paths : list Path)
    (cpaths : list (list IntPoint)) :
  microPaths (clipperPaths paths) = paths
  /\ clipperPaths (microPaths cpaths) = cpaths.
Proof.
  unfold microPaths, clipperPaths, microPath, clipperPath. split.
  - rewrite map_map. rewrite <- (map_id paths) at 2. apply map_ext.
    intros path. apply microPath_clipperPath.
  - rewrite map_map. rewrite <- (map_id cpaths) at 2. apply map_ext.
    intros cpath. rewrite map_map. rewrite <- (map_id cpath) at 2.
    apply map_ext, clipperPoint_microPoint.
Qed.

(** *** The point filter *)

(** The loop of the source as the walk that carries the last kept point. *)
Lemma filterPolygon_walk (polygon : Path) :
  filterPolygon polygon = clipperPath (keepPoints within100 polygon).
Proof.
  destruct polygon as [|p0 rest]; [reflexivity|].
  unfold filterPolygon. simpl filterLoop. unfold filterStep. simpl.
  change (p0 :: rest) with ([p0] ++ rest).
  change 1%nat with (length [p0]).
  rewrite ClipFilterProofs.filterLoop_keepFrom by (simpl; lia).
  reflexivity.
Qed.

Lemma keepFrom_far (rest : Path) :
  forall last : MicroPoint,
    consecutiveFar (last :: keepFrom within100 last rest).
Proof.
  induction rest as [|p rest IH]; intros last i a b Ha Hb; simpl in *.
  - destruct i; discriminate.
  - destruct (within100 p last) eqn:Hnear.
    + now apply (IH last i).
    + destruct i as [|i]; simpl in *.
      * injection Ha as <-. injection Hb as <-.
        unfold within100 in Hnear. apply Z.leb_gt in Hnear. exact Hnear.
      * now apply (IH p i).
Qed.

Lemma keepFrom_snoc (rest : Path) :
  forall kept q l : MicroPoint,
    last (kept :: keepFrom within100 kept rest) = Some l ->
    within100 q l = false ->
    keepFrom within100 kept (rest ++ [q])
    = keepFrom within100 kept rest ++ [q].
Proof.
  induction rest as [|p rest IH]; intros kept q l Hlast Hfar; simpl in *.
  - injection Hlast as ->. now rewrite Hfar.
  - destruct (within100 p kept).
    + now apply (IH kept q l).
    + simpl. f_equal. now apply (IH p q l).
Qed.

(** In every path that [GenerateLayerParts] hands to the clipper, each
    point is more than 100 micrometers away from the point before it in
    the list.  The closing edge is not checked: a final point that is
    more than 100 micrometers from the last point kept before it is kept
    as well, however near it is to the first point of the polygon. *)
Theorem filtered_consecutive_points_are_far (polygon : Path) :
  consecutiveFar (microPath (filterPolygon polygon))
  /\ forall q l : MicroPoint,
       last (microPath (filterPolygon polygon)) = Some l ->
       100 * 100 < distSq q l ->
       microPath (filterPolygon (polygon ++ [q]))
       = microPath (filterPolygon polygon) ++ [q].
Proof.
  rewrite filterPolygon_walk, microPath_clipperPath.
  destruct polygon as [|p0 rest]; simpl.
  - split; [|discriminate].
    intros i p q H. destruct i; discriminate.
  - split; [apply keepFrom_far|].
    intros q l Hlast Hfar.
    rewrite filterPolygon_walk, microPath_clipperPath. simpl. f_equal.
    apply (keepFrom_snoc rest p0 q l Hlast).
    unfold within100. now apply Z.leb_gt.
Qed.

Lemma keepFrom_sublist (rest : Path) :
  forall last : MicroPoint, sublist (keepFrom within100 last rest) rest.
Proof.
  induction rest as [|p rest IH]; intros last; simpl.
  - constructor.
  - destruct (within100 p last).
    + apply sublist_cons. apply IH.
    + apply sublist_skip. apply IH.
Qed.

(** The filter only drops points: what it keeps is a subsequence of the
    polygon, in the same order, and it always keeps the first point, so a
    non-empty polygon never becomes empty. *)
Theorem filter_keeps_subsequence_and_first_point (polygon : Path) :
  sublist (microPath (filterPolygon polygon)) polygon
  /\ head (microPath (filterPolygon polygon)) = head polygon
  /\ (length (filterPolygon polygon) <= length polygon)%nat.
Proof.
  rewrite filterPolygon_walk, microPath_clipperPath.
  unfold clipperPath. rewrite length_map.
  destruct polygon as [|p0 rest]; simpl.
  - repeat split; constructor.
  - pose proof (keepFrom_sublist rest p0) as Hsub.
    repeat split.
    + now apply sublist_skip.
    + apply sublist_length in Hsub. lia.
Qed.

Lemma keepFrom_fixed (rest : Path) :
  forall last : MicroPoint,
    consecutiveFar (last :: rest) -> keepFrom within100 last rest = rest.
Proof.
  induction rest as [|p rest IH]; intros last Hfar; simpl; [reflexivity|].
  assert (Hp : within100 p last = false).
  { unfold within100. apply Z.leb_gt. now apply (Hfar 0%nat last p). }
  rewrite Hp. f_equal. apply IH.
  intros i a b Ha Hb. now apply (Hfar (S i) a b).
Qed.

(** Filtering is idempotent: a path that went through the filter passes
    it unchanged. *)
Theorem filter_is_idempotent (polygon : Path) :
  filterPolygon (microPath (filterPolygon polygon)) = filterPolygon polygon.
Proof.
  rewrite !filterPolygon_walk, !microPath_clipperPath. f_equal.
  destruct polygon as [|p0 rest]; simpl; [reflexivity|].
  f_equal. apply keepFrom_fixed, keepFrom_far.
Qed.

(** *** [GenerateLayerParts] *)

Lemma polyList_nil (polygons : list Path) :
  polyList polygons = [] <-> polygons = [].
Proof.
  unfold polyList. split.
  - intros H. now apply map_eq_nil in H.
  - now intros ->.
Qed.

(** [GenerateLayerParts] reports failure exactly when there is at least
    one polygon and the library's union fails, and then returns no layer;
    without polygons it returns the empty layer without consulting the
    library. *)
Theorem GenerateLayerParts_fails_only_with_the_library (fl : FloatOps)
    (lib : ClipperLib fl) (polygons : list Path) :
  (polygons = [] -> GenerateLayerParts fl lib polygons = (Some [], true))
  /\ (snd (GenerateLayerParts fl lib polygons) = false <->
      polygons <> [] /\ unionEvenOdd lib (polyList polygons) = None)
  /\ (snd (GenerateLayerParts fl lib polygons) = false ->
      fst (GenerateLayerParts fl lib polygons) = None).
Proof.
  unfold GenerateLayerParts.
  destruct (polyList polygons) as [|path paths] eqn:Hlist.
  - apply polyList_nil in Hlist. subst polygons. simpl.
    split; [reflexivity|]. split; [|discriminate].
    split; [discriminate|]. now intros [H _].
  - assert (Hne : polygons <> [])
      by (intros ->; discriminate).
    split; [intros ->; now contradiction Hne|].
    destruct (unionEvenOdd lib (path :: paths)); simpl.
    + split; [|discriminate]. split; [discriminate|]. intros [_ H].
      discriminate.
    + split; [|reflexivity]. split; [now split|reflexivity].
Qed.

(** *** [polyTreeToLayerParts] *)

Lemma evenLevel_nil (k : nat) : evenLevel k [] = [].
Proof. induction k as [|k IH]; [reflexivity|exact IH]. Qed.

Lemma flat_map_all_nil {A B : Type} (f : A -> list B) (l : list A) :
  (forall x, f x = []) -> flat_map f l = [].
Proof.
  intros Hf. induction l as [|x l IH]; [reflexivity|].
  simpl. now rewrite Hf, IH.
Qed.

Lemma flat_map_after_map {A B C : Type} (g : A -> B) (f : B -> list C)
    (l : list A) :
  flat_map f (map g l) = flat_map (fun x => f (g x)) l.
Proof.
  induction l as [|x l IH]; [reflexivity|]. simpl. now rewrite IH.
Qed.

Lemma roundsLoop_levels (fuel : nat) :
  forall (nodes : list PolyNode) (layerParts : list LayerPart),
    roundsLoop fuel nodes layerParts
    = layerParts
      ++ flat_map (fun k => map partOf (evenLevel k nodes)) (seq 0 fuel).
Proof.
  induction fuel as [|fuel IH]; intros nodes layerParts.
  - simpl. now rewrite app_nil_r.
  - destruct nodes as [|p nodes].
    + simpl roundsLoop.
      replace (flat_map _ (seq 0 (S fuel))) with (@nil LayerPart);
        [now rewrite app_nil_r|].
      symmetry. apply flat_map_all_nil. intros k.
      now rewrite evenLevel_nil.
    + cbn [roundsLoop]. rewrite ClipOffsetProofs.fold_roundStep, app_nil_l.
      rewrite IH, <- app_assoc. f_equal.
      change (seq 0 (S fuel)) with (0%nat :: seq 1 fuel).
      rewrite <- seq_shift. simpl flat_map. rewrite flat_map_after_map.
      reflexivity.
Qed.

(** The parts are the nodes one, three, five, ... levels below the root
    of the tree, level by level and in the tree's order within a level;
    each has the contours of its children as holes.  A tree without
    children gives no part. *)
Theorem polyTreeToLayerParts_even_levels (tree : PolyNode) :
  polyTreeToLayerParts tree
  = flat_map (fun k => map partOf (evenLevel k (Childs tree)))
      (seq 0 (height tree))
  /\ (Childs tree = [] -> polyTreeToLayerParts tree = []).
Proof.
  unfold polyTreeToLayerParts. split.
  - now rewrite roundsLoop_levels.
  - intros ->. now destruct (height tree).
Qed.

Lemma forestCount_app (l1 l2 : list PolyNode) :
  forestCount (l1 ++ l2) = (forestCount l1 + forestCount l2)%nat.
Proof.
  induction l1 as [|c l1 IH]; [reflexivity|].
  unfold forestCount in *. simpl. rewrite IH. lia.
Qed.

Lemma nodeCount_unfold (p : PolyNode) :
  nodeCount p = S (forestCount (Childs p)).
Proof. now destruct p. Qed.

Lemma forestCount_childs (l : list PolyNode) :
  forestCount l = (length l + forestCount (flat_map Childs l))%nat.
Proof.
  induction l as [|c l IH]; [reflexivity|].
  change (forestCount (c :: l)) with (nodeCount c + forestCount l)%nat.
  simpl flat_map. rewrite forestCount_app, nodeCount_unfold, IH. simpl. lia.
Qed.

Lemma contourCount_app (l1 l2 : list LayerPart) :
  contourCount (l1 ++ l2) = (contourCount l1 + contourCount l2)%nat.
Proof.
  induction l1 as [|part l1 IH]; [reflexivity|].
  change (contourCount ((part :: l1) ++ l2))
    with (S (length (Holes part)) + contourCount (l1 ++ l2))%nat.
  change (contourCount (part :: l1))
    with (S (length (Holes part)) + contourCount l1)%nat.
  rewrite IH. lia.
Qed.

Lemma forestCount_round (nodes : list PolyNode) :
  forestCount nodes
  = (contourCount (map partOf nodes)
     + forestCount (flat_map grandChilds nodes))%nat.
Proof.
  induction nodes as [|p nodes IH]; [reflexivity|].
  change (forestCount (p :: nodes)) with (nodeCount p + forestCount nodes)%nat.
  simpl map. simpl flat_map.
  change (contourCount (partOf p :: map partOf nodes))
    with (S (length (Holes (partOf p))) + contourCount (map partOf nodes))%nat.
  assert (Hholes : length (Holes (partOf p)) = length (Childs p))
    by (unfold partOf; simpl; apply length_map).
  assert (Hgrand : grandChilds p = flat_map Childs (Childs p))
    by reflexivity.
  rewrite forestCount_app, nodeCount_unfold, IH, Hholes, Hgrand.
  rewrite (forestCount_childs (Childs p)). lia.
Qed.

Lemma roundsLoop_count (fuel : nat) :
  forall (nodes : list PolyNode) (layerParts : list LayerPart),
    (maxHeight nodes <= fuel)%nat ->
    contourCount (roundsLoop fuel nodes layerParts)
    = (contourCount layerParts + forestCount nodes)%nat.
Proof.
  induction fuel as [|fuel IH]; intros nodes layerParts Hfuel.
  - destruct nodes as [|p nodes]; [simpl; unfold forestCount; simpl; lia|].
    exfalso. change (maxHeight (p :: nodes))
      with (Nat.max (height p) (maxHeight nodes)) in Hfuel.
    rewrite ClipOffsetProofs.height_unfold in Hfuel. lia.
  - destruct nodes as [|p nodes];
      [simpl; unfold forestCount; simpl; lia|].
    cbn [roundsLoop]. rewrite ClipOffsetProofs.fold_roundStep, app_nil_l.
    rewrite IH.
    + rewrite contourCount_app, (forestCount_round (p :: nodes)). lia.
    + pose proof (ClipOffsetProofs.maxHeight_grandChilds (p :: nodes)). lia.
Qed.

(** Flattening the tree neither loses nor repeats a contour: the
    outlines and holes of the parts are together as many as the nodes
    below the root. *)
Theorem polyTreeToLayerParts_keeps_every_contour (tree : PolyNode) :
  contourCount (polyTreeToLayerParts tree) = forestCount (Childs tree).
Proof.
  unfold polyTreeToLayerParts. rewrite roundsLoop_count; [reflexivity|].
  rewrite ClipOffsetProofs.height_unfold. lia.
Qed.

(** *** Scanlines and [Fill] *)

Lemma odd_line_alternates (k : Z) :
  0 <= k -> (Z.rem (k + 1) 2 =? 1) = negb (Z.rem k 2 =? 1).
Proof.
  intros Hk. rewrite !Z.rem_mod_nonneg by lia.
  pose proof (Z.mod_pos_bound k 2 ltac:(lia)) as Hb.
  replace ((k + 1) mod 2) with (1 - k mod 2).
  - destruct (Z.eqb_spec (k mod 2) 1) as [->|Hne]; simpl.
    + reflexivity.
    + replace (k mod 2) with 0 by lia. reflexivity.
  - rewrite Z.add_mod by lia. change (1 mod 2) with 1.
    assert (Hcase : k mod 2 = 0 \/ k mod 2 = 1) by lia.
    destruct Hcase as [->| ->]; reflexivity.
Qed.

Lemma scanLine_joins (k x x' minY maxY : Z) :
  0 <= k ->
  cY <$> last (scanLine k x minY maxY)
  = cY <$> head (scanLine (k + 1) x' minY maxY).
Proof.
  intros Hk. unfold scanLine. rewrite odd_line_alternates by exact Hk.
  now destruct (Z.rem k 2 =? 1).
Qed.

(** For a positive line width the scanline loop ends.  It yields one
    vertical line every [lineWidth] from [min.X] on, all within
    [min.X .. max.X] and spanning [min.Y .. max.Y], and the lines
    alternate in direction: each starts at the height where the one
    before ended. *)
Theorem scanLines_cover_the_box_back_and_forth (min max : MicroPoint)
    (lineWidth : Z) :
  0 < lineWidth ->
  exists lines : list (list IntPoint),
    scanLines min max lineWidth = Some lines
    /\ length lines = Z.to_nat ((X max - X min) / lineWidth + 1)
    /\ (forall (k : nat) (line : list IntPoint),
          lines !! k = Some line ->
          let x := X min + Z.of_nat k * lineWidth in
          X min <= x <= X max
          /\ (line = [mkIntPoint x (Y min); mkIntPoint x (Y max)]
              \/ line = [mkIntPoint x (Y max); mkIntPoint x (Y min)]))
    /\ (forall (k : nat) (a b : list IntPoint),
          lines !! k = Some a -> lines !! S k = Some b ->
          cY <$> last a = cY <$> head b).
Proof.
  intros Hpos. exists (scanLinesClosedForm min max lineWidth).
  split; [now apply ClipOffsetProofs.scanLines_closed|].
  unfold scanLinesClosedForm. split; [now rewrite length_map, length_seq|].
  split.
  - intros k line Hk. apply list_lookup_fmap_Some in Hk as [k' [-> Hseq]].
    apply lookup_seq in Hseq as [-> Hlt]. simpl. split.
    + pose proof (Z.mul_div_le (X max - X min) lineWidth Hpos).
      assert (Z.of_nat k <= (X max - X min) / lineWidth) by lia. nia.
    + unfold scanLine. destruct (Z.rem (Z.of_nat k) 2 =? 1); auto.
  - intros k a b Ha Hb.
    apply list_lookup_fmap_Some in Ha as [ka [-> Hsa]].
    apply list_lookup_fmap_Some in Hb as [kb [-> Hsb]].
    apply lookup_seq in Hsa as [-> _]. apply lookup_seq in Hsb as [-> _].
    simpl Nat.add. replace (Z.of_nat (S k)) with (Z.of_nat k + 1) by lia.
    apply scanLine_joins. lia.
Qed.

Lemma scanLines_cover_the_box_back_and_forth_witness :
  exists lines : list (list IntPoint),
    scanLines (NewMicroPoint 0 0) (NewMicroPoint 1000 500) 400 = Some lines
    /\ length lines = 3%nat.
Proof.
  destruct (scanLines_cover_the_box_back_and_forth
              (NewMicroPoint 0 0) (NewMicroPoint 1000 500) 400 ltac:(lia))
    as [lines [Hrun [Hlen _]]].
  exists lines. split; [exact Hrun|exact Hlen].
Defined.

Lemma scanLoop_zero_width (min max : MicroPoint) (fuel : nat) :
  forall (x numLine : Z) (lines : list (list IntPoint)),
    x <= X max -> scanLoop fuel min max 0 x numLine lines = None.
Proof.
  induction fuel as [|fuel IH]; intros x numLine lines Hx; simpl;
    destruct (Z.leb_spec x (X max)); try lia; [reflexivity|].
  apply IH. lia.
Qed.

(** With a line width of 0 and a bounding box that is not empty in x,
    the scanline loop never ends, however many iterations it is given:
    [x] stays at [min.X] while lines pile up.  [Fill] does not return. *)
Theorem Fill_with_zero_line_width_never_returns (fl : FloatOps)
    (lib : ClipperLib fl) (pathSize : Path -> MicroPoint * MicroPoint)
    (part : LayerPart) (overlapPercent : Z) :
  X (fst (pathSize (Outline part))) <= X (snd (pathSize (Outline part))) ->
  (forall fuel : nat,
      scanLoop fuel (fst (pathSize (Outline part)))
        (snd (pathSize (Outline part))) 0
        (X (fst (pathSize (Outline part)))) 0 [] = None)
  /\ Fill fl lib pathSize part 0 overlapPercent = None.
Proof.
  intros Hbox. split.
  - intros fuel. now apply scanLoop_zero_width.
  - unfold Fill, getLinearFill, scanLines.
    destruct (pathSize (Outline part)) as [min max]. simpl in *.
    now rewrite scanLoop_zero_width.
Qed.

Lemma Fill_with_zero_line_width_never_returns_witness :
  Fill Reference.ExactFloat Reference.RectangleEngine Reference.rectSize
    Reference.square1000 0 50 = None.
Proof.
  refine (proj2 (Fill_with_zero_line_width_never_returns
                   Reference.ExactFloat Reference.RectangleEngine
                   Reference.rectSize Reference.square1000 50 _)).
  vm_compute. discriminate.
Defined.

(** When the library fails on the one intersection that [getLinearFill]
    asks for (the scanlines of the bounding box, clipped by the inset
    outline and the holes), [Fill] does not report it: for a positive
    line width it returns no paths, which is also what it returns when
    the intersection succeeds with a tree without children. *)
Theorem Fill_hides_a_failed_clip (fl : FloatOps) (lib : ClipperLib fl)
    (pathSize : Path -> MicroPoint * MicroPoint)
    (part : LayerPart) (lineWidth overlapPercent : Z) :
  0 < lineWidth ->
  let clip :=
    fillInset fl lib (clipperPath (Outline part)) lineWidth overlapPercent
    ++ clipperPaths (Holes part) in
  let lines :=
    scanLinesClosedForm (fst (pathSize (Outline part)))
      (snd (pathSize (Outline part))) lineWidth in
  (intersectOpen lib clip lines = None
   \/ exists tree : PolyNode,
        intersectOpen lib clip lines = Some tree /\ Childs tree = []) ->
  Fill fl lib pathSize part lineWidth overlapPercent = Some [].
Proof.
  intros Hpos clip lines Hcall. unfold Fill, getLinearFill.
  subst clip lines.
  destruct (pathSize (Outline part)) as [min max]. simpl in Hcall.
  rewrite ClipOffsetProofs.scanLines_closed by exact Hpos. simpl.
  unfold clipLines.
  destruct Hcall as [Hfail|[tree [Hsome Hempty]]].
  - now rewrite Hfail.
  - now rewrite Hsome, Hempty.
Qed.

Lemma Fill_hides_a_failed_clip_witness :
  Fill Reference.ExactFloat Reference.FailingEngine Reference.rectSize
    Reference.square1000 400 50 = Some [].
Proof.
  apply (Fill_hides_a_failed_clip Reference.ExactFloat
           Reference.FailingEngine Reference.rectSize Reference.square1000
           400 50); [lia|left; reflexivity].
Defined.

End ClipMoreProofs.

(** * The slicer's stitching pass *)

Module StitchProofs.
Import Data Slice.

Lemma unadded_mark (segs : list segment) :
  forall (i : nat) (s : segment),
    segs !! i = Some s -> addedToPolygon s = false ->
    S (unadded (<[i := markAdded s]> segs)) = unadded segs.
Proof.
  unfold unadded.
  induction segs as [|s0 segs IH]; intros i s Hi Hs; [discriminate|].
  destruct i as [|i]; simpl in *.
  - injection Hi as ->. now rewrite Hs.
  - destruct (negb (addedToPolygon s0)); simpl; rewrite <- (IH i s Hi Hs);
      reflexivity.
Qed.

Lemma unadded_zero (segs : list segment) :
  (forall (i : nat) (s : segment), segs !! i = Some s -> addedToPolygon s = true) ->
  unadded segs = 0%nat.
Proof.
  unfold unadded. induction segs as [|s0 segs IH]; intros Hall; [reflexivity|].
  simpl. rewrite (Hall 0%nat s0 eq_refl). simpl. apply IH.
  intros i s Hi. exact (Hall (S i) s Hi).
Qed.

Lemma onlyMarked_refl (segs : list segment) : Forall2 onlyMarked segs segs.
Proof. apply Forall2_same_length_lookup_2; [reflexivity|]. intros i s s' H1 H2. left. congruence. Qed.

Lemma onlyMarked_trans (a b c : list segment) :
  Forall2 onlyMarked a b -> Forall2 onlyMarked b c -> Forall2 onlyMarked a c.
Proof.
  intros Hab. revert c. induction Hab as [|x y a b Hxy Hab IH]; intros c Hbc.
  - inversion Hbc. constructor.
  - inversion Hbc as [|y' z b' c' Hyz Hbc']; subst. constructor; [|now apply IH].
    destruct Hxy as [->| ->], Hyz as [->| ->]; [left|right|right|right];
      reflexivity.
Qed.

Lemma onlyMarked_insert (segs : list segment) (i : nat) (s : segment) :
  segs !! i = Some s ->
  Forall2 onlyMarked segs (<[i := markAdded s]> segs).
Proof.
  intros Hi. apply Forall2_same_length_lookup_2; [now rewrite length_insert|].
  intros j a b Ha Hb. destruct (decide (i = j)) as [->|Hne].
  - rewrite list_lookup_insert_eq in Hb by (eapply lookup_lt_Some; exact Ha).
    right. congruence.
  - rewrite list_lookup_insert_ne in Hb by exact Hne. left. congruence.
Qed.

Lemma onlyMarked_added (a b : list segment) (i : nat) (s s' : segment) :
  Forall2 onlyMarked a b -> a !! i = Some s -> b !! i = Some s' ->
  addedToPolygon s = true -> addedToPolygon s' = true.
Proof.
  intros Hab Ha Hb Hs.
  destruct (Forall2_lookup_lr _ _ _ _ _ _ Hab Ha Hb) as [->| ->];
    [exact Hs|reflexivity].
Qed.

Section Walk.
Context (touching : Z -> list Z) (faceToSegmentIndex : gmap Z Z).

Local Abbreviation valid := (validFaceMap faceToSegmentIndex).

(** The neighbour loop neither panics nor proposes a segment that is
    already part of a polygon. *)
Lemma neighbours_propose_unadded (segs : list segment) (startIndex : nat)
    (p0 : MicroPoint) (faces : list Z) :
  valid segs ->
  forall (canClose : bool) (nextIndex : option nat),
    (forall k, nextIndex = Some k ->
               exists s, segs !! k = Some s /\ addedToPolygon s = false) ->
    exists (canClose' : bool) (nextIndex' : option nat),
      fold_left (neighbourStep faceToSegmentIndex segs startIndex p0) faces
        (Some (canClose, nextIndex)) = Some (canClose', nextIndex')
      /\ (forall k, nextIndex' = Some k ->
                    exists s, segs !! k = Some s /\ addedToPolygon s = false).
Proof.
  intros Hvalid. induction faces as [|face faces IH];
    intros canClose nextIndex Hnext; simpl.
  - now exists canClose, nextIndex.
  - destruct (faceToSegmentIndex !! face) as [index|] eqn:Hface;
      [|now apply IH].
    destruct (-1 <? face); [|now apply IH].
    pose proof (Hvalid face index Hface) as Hrange. cbv beta in Hrange.
    destruct (Z.ltb_spec index 0) as [?|_]; [lia|].
    destruct (lookup_lt_is_Some_2 segs (Z.to_nat index) ltac:(lia))
      as [seg Hseg].
    rewrite Hseg. simpl.
    destruct (ShorterThan (Sub p0 (start seg)) 30); [|now apply IH].
    destruct (addedToPolygon seg) eqn:Hadded; apply IH.
    + exact Hnext.
    + intros k Hk. injection Hk as <-. now exists seg.
Qed.

(** Following the segments ends before the rounds run out: every round
    marks a segment that was not marked, and adds one point. *)
Lemma walk_ends (fuel : nat) :
  forall (segs : list segment) (startIndex : nat) (polygon : Path)
         (current : nat) (s : segment),
    valid segs ->
    segs !! current = Some s -> addedToPolygon s = false ->
    (unadded segs <= fuel)%nat ->
    exists (segs' : list segment) (polygon' : Path) (canClose : bool),
      walk touching faceToSegmentIndex fuel segs startIndex polygon current
        = WalkDone segs' polygon' canClose
      /\ Forall2 onlyMarked segs segs'
      /\ (forall s', segs' !! current = Some s' -> addedToPolygon s' = true)
      /\ (length polygon' + unadded segs' = length polygon + unadded segs)%nat
      /\ (length polygon < length polygon')%nat.
Proof.
  induction fuel as [|fuel IH];
    intros segs startIndex polygon current s Hvalid Hcur Hs Hfuel.
  - pose proof (unadded_mark segs current s Hcur Hs). lia.
  - simpl. rewrite Hcur.
    set (segs1 := <[current := markAdded s]> segs).
    pose proof (unadded_mark segs current s Hcur Hs) as Hcount.
    fold segs1 in Hcount.
    assert (Hgrow1 : Forall2 onlyMarked segs segs1)
      by now apply onlyMarked_insert.
    assert (Hvalid1 : valid segs1).
    { intros face index Hface. cbv beta. unfold segs1.
      rewrite length_insert. exact (Hvalid face index Hface). }
    assert (Hcur1 : segs1 !! current = Some (markAdded s)).
    { unfold segs1. apply list_lookup_insert_eq.
      eapply lookup_lt_Some; exact Hcur. }
    destruct (neighbours_propose_unadded segs1 startIndex (end_ s)
                (touching (faceIndex s)) Hvalid1 false None)
      as [canClose [nextIndex [Hfold Hnext]]]; [discriminate|].
    rewrite Hfold. destruct nextIndex as [next|].
    + destruct (Hnext next eq_refl) as [sn [Hsn Hunadded]].
      destruct (IH segs1 startIndex (polygon ++ [end_ s]) next sn
                  Hvalid1 Hsn Hunadded ltac:(lia))
        as [segs' [polygon' [canClose' [Hrun [Hgrow [_ [Hlen Hlonger]]]]]]].
      exists segs', polygon', canClose'.
      split; [exact Hrun|]. split; [now apply (onlyMarked_trans _ segs1)|].
      rewrite length_app in Hlen, Hlonger. simpl in Hlen, Hlonger.
      split; [|split; lia].
      intros s' Hs'.
      now apply (onlyMarked_added segs1 segs' current (markAdded s) s'
                   Hgrow Hcur1 Hs').
    + exists segs1, (polygon ++ [end_ s]), canClose.
      split; [reflexivity|]. split; [exact Hgrow1|].
      rewrite length_app. simpl.
      split; [|split; lia].
      intros s' Hs'. rewrite Hcur1 in Hs'. now injection Hs' as <-.
Qed.

Lemma unadded_le (segs : list segment) : (unadded segs <= length segs)%nat.
Proof. unfold unadded. apply List.filter_length_le. Qed.

Lemma unadded_zero_all (segs : list segment) :
  unadded segs = 0%nat ->
  forall (i : nat) (s : segment), segs !! i = Some s -> addedToPolygon s = true.
Proof.
  unfold unadded. induction segs as [|s0 segs IH]; intros Hzero i s Hi;
    [discriminate|].
  simpl in Hzero. destruct (addedToPolygon s0) eqn:Hs0; simpl in Hzero;
    [|discriminate].
  destruct i as [|i]; simpl in Hi.
  - now injection Hi as <-.
  - now apply (IH Hzero i).
Qed.

Lemma stitchLoop_ends (count : nat) :
  forall (startIndex : nat) (st : stitching),
    (count + startIndex = length (segments st))%nat ->
    valid (segments st) ->
    (forall (j : nat) (s : segment),
        (j < startIndex)%nat -> segments st !! j = Some s ->
        addedToPolygon s = true) ->
    exists (st' : stitching) (new : list Path) (flags : list bool),
      stitchLoop touching faceToSegmentIndex count startIndex st = Stitched st'
      /\ Forall2 onlyMarked (segments st) (segments st')
      /\ unadded (segments st') = 0%nat
      /\ polygons (polys st') = polygons (polys st) ++ (Some <$> new)
      /\ closed (polys st') = closed (polys st) ++ flags
      /\ length flags = length new
      /\ Forall (fun polygon => (2 <= length polygon)%nat) new
      /\ (length (concat new) = unadded (segments st) + length new)%nat.
Proof.
  induction count as [|count IH]; intros startIndex st Hcount Hvalid Hdone.
  - exists st, [], []. simpl. rewrite !app_nil_r.
    assert (Hzero : unadded (segments st) = 0%nat).
    { apply unadded_zero. intros i s Hi. apply (Hdone i s); [|exact Hi].
      apply lookup_lt_Some in Hi. lia. }
    repeat split; try reflexivity; try constructor.
    + apply onlyMarked_refl.
    + exact Hzero.
    + now rewrite Hzero.
  - destruct (lookup_lt_is_Some_2 (segments st) startIndex ltac:(lia))
      as [seg Hseg].
    simpl. unfold stitchStep. rewrite Hseg.
    destruct (addedToPolygon seg) eqn:Hadded.
    + apply IH; [lia|exact Hvalid|].
      intros j s Hj Hs. destruct (decide (j = startIndex)) as [->|Hne].
      * congruence.
      * apply (Hdone j s); [lia|exact Hs].
    + destruct (walk_ends (length (segments st)) (segments st) startIndex
                  [start seg] startIndex seg Hvalid Hseg Hadded
                  (unadded_le _))
        as [segs1 [polygon [canClose [Hrun [Hgrow [Hstart [Hlen Hlonger]]]]]]].
      rewrite Hrun.
      set (st1 := {| segments := segs1;
                     polys := {| polygons := polygons (polys st) ++ [Some polygon];
                                 closed := closed (polys st) ++ [canClose] |} |}).
      pose proof (Forall2_length _ _ _ Hgrow) as Hsame.
      destruct (IH (S startIndex) st1) as
          [st' [new [flags [Hloop [Hgrow' [Hzero [Hpolys [Hclosed
             [Hflags [Hlong Hpoints]]]]]]]]]].
      * simpl. lia.
      * intros face index Hface. cbv beta. simpl. rewrite <- Hsame.
        exact (Hvalid face index Hface).
      * intros j s' Hj Hs'. simpl in Hs'.
        destruct (decide (j = startIndex)) as [->|Hne]; [now apply Hstart|].
        destruct (lookup_lt_is_Some_2 (segments st) j ltac:(lia)) as [s Hs].
        apply (onlyMarked_added _ _ j s s' Hgrow Hs Hs').
        apply (Hdone j s); [lia|exact Hs].
      * exists st', (polygon :: new), (canClose :: flags).
        split; [exact Hloop|].
        split; [now apply (onlyMarked_trans _ segs1)|].
        split; [exact Hzero|].
        simpl in Hpolys, Hclosed, Hpoints, Hlen, Hlonger.
        split; [rewrite Hpolys, <- app_assoc; reflexivity|].
        split; [rewrite Hclosed, <- app_assoc; reflexivity|].
        split; [simpl; lia|].
        split; [constructor; [lia|exact Hlong]|].
        simpl. rewrite length_app. lia.
Qed.

End Walk.

(** The stitching pass ends without a panic whenever the face map only
    names segments that exist.  It then has put every segment into a
    polygon and changed nothing else about the segments; it has appended
    one polygon and one [closed] flag at a time, so the two stay equally
    long; every new polygon has at least two points; and the new polygons
    hold one point per segment that was still free plus one starting
    point each. *)
Theorem stitching_uses_every_segment (touching : Z -> list Z)
    (faceToSegmentIndex : gmap Z Z) (st : stitching) :
  validFaceMap faceToSegmentIndex (segments st) ->
  exists (st' : stitching) (new : list Path) (flags : list bool),
    stitch touching faceToSegmentIndex st = Stitched st'
    /\ Forall2 onlyMarked (segments st) (segments st')
    /\ (forall (i : nat) (s : segment),
          segments st' !! i = Some s -> addedToPolygon s = true)
    /\ polygons (polys st') = polygons (polys st) ++ (Some <$> new)
    /\ closed (polys st') = closed (polys st) ++ flags
    /\ length flags = length new
    /\ Forall (fun polygon => (2 <= length polygon)%nat) new
    /\ (length (concat new) = unadded (segments st) + length new)%nat.
Proof.
  intros Hvalid.
  destruct (stitchLoop_ends touching faceToSegmentIndex
              (length (segments st)) 0 st ltac:(lia) Hvalid)
    as [st' [new [flags [Hrun [Hgrow [Hzero Hrest]]]]]].
  { intros j s Hj. lia. }
  exists st', new, flags. split; [exact Hrun|]. split; [exact Hgrow|].
  split; [now apply unadded_zero_all|exact Hrest].
Qed.

Lemma twoFaces_valid : validFaceMap Reference.twoFaces Reference.twoSegments.
Proof.
  unfold validFaceMap, Reference.twoFaces.
  apply map_Forall_insert_2; [simpl; lia|].
  apply map_Forall_insert_2; [simpl; lia|].
  apply map_Forall_empty.
Qed.

Lemma stitching_uses_every_segment_witness :
  exists (st' : stitching) (new : list Path) (flags : list bool),
    stitch Reference.twoTouching Reference.twoFaces Reference.freshLayer
      = Stitched st'
    /\ polygons (polys st') = Some <$> new
    /\ closed (polys st') = flags
    /\ (length (concat new) = 2 + length new)%nat.
Proof.
  destruct (stitching_uses_every_segment Reference.twoTouching
              Reference.twoFaces Reference.freshLayer twoFaces_valid)
    as [st' [new [flags [Hrun [_ [_ [Hpolys [Hclosed [_ [_ Hpoints]]]]]]]]]].
  exists st', new, flags. split; [exact Hrun|].
  split; [exact Hpolys|]. split; [exact Hclosed|exact Hpoints].
Defined.

End StitchProofs.

(** * The slicer's connecting pass *)

Module ConnectProofs.
Import Data Slice.

Lemma allPoints_erase (polys : list (option Path)) :
  forall (i : nat) (a : Path),
    polys !! i = Some (Some a) ->
    allPoints polys ≡ₚ a ++ allPoints (<[i := None]> polys).
Proof.
  induction polys as [|p polys IH]; intros i a Hi; [discriminate|].
  destruct i as [|i]; simpl in Hi.
  - injection Hi as ->. reflexivity.
  - change (allPoints (p :: polys))
      with (match p with Some pts => pts | None => [] end ++ allPoints polys).
    change (allPoints (<[S i := None]> (p :: polys)))
      with (match p with Some pts => pts | None => [] end
            ++ allPoints (<[i := None]> polys)).
    rewrite (IH i a Hi), !app_assoc.
    apply Permutation_app_tail, Permutation_app_comm.
Qed.

Lemma allPoints_merge (polys : list (option Path)) (i best : nat) (a c : Path) :
  i <> best ->
  polys !! i = Some (Some a) -> polys !! best = Some (Some c) ->
  allPoints (<[best := None]> (<[i := Some (a ++ c)]> polys))
  ≡ₚ allPoints polys.
Proof.
  intros Hne Hi Hb.
  rewrite (allPoints_erase polys best c Hb).
  assert (Hi' : <[best := None]> polys !! i = Some (Some a))
    by (rewrite list_lookup_insert_ne by congruence; exact Hi).
  rewrite (allPoints_erase _ i a Hi').
  rewrite list_insert_insert_ne by congruence.
  assert (Hnew : <[i := Some (a ++ c)]> (<[best := None]> polys) !! i
                 = Some (Some (a ++ c))).
  { apply list_lookup_insert_eq. rewrite length_insert.
    eapply lookup_lt_Some; exact Hi. }
  rewrite (allPoints_erase _ i (a ++ c) Hnew), list_insert_insert_eq.
  rewrite !app_assoc. apply Permutation_app_tail, Permutation_app_comm.
Qed.

Lemma live_replace (polys : list (option Path)) :
  forall (i : nat) (a x : Path),
    polys !! i = Some (Some a) -> live (<[i := Some x]> polys) = live polys.
Proof.
  unfold live. induction polys as [|p polys IH]; intros i a x Hi; [discriminate|].
  destruct i as [|i]; simpl in *.
  - now injection Hi as ->.
  - destruct p; simpl; rewrite (IH i a x Hi); reflexivity.
Qed.

Lemma live_erase (polys : list (option Path)) :
  forall (i : nat) (a : Path),
    polys !! i = Some (Some a) -> S (live (<[i := None]> polys)) = live polys.
Proof.
  unfold live. induction polys as [|p polys IH]; intros i a Hi; [discriminate|].
  destruct i as [|i]; simpl in *.
  - now injection Hi as ->.
  - destruct p; simpl; rewrite <- (IH i a Hi); reflexivity.
Qed.

Lemma live_le (polys : list (option Path)) : (live polys <= length polys)%nat.
Proof. unfold live. apply List.filter_length_le. Qed.

Lemma connectsFrom_refl (l : layer) : wellFormed l -> connectsFrom l l.
Proof. intros Hwf. repeat split; try apply Hwf; auto. Qed.

Lemma connectsFrom_trans (l1 l2 l3 : layer) :
  connectsFrom l1 l2 -> connectsFrom l2 l3 -> connectsFrom l1 l3.
Proof.
  intros [_ [Hlen12 [Hperm12 Hclosed12]]] [Hwf3 [Hlen23 [Hperm23 Hclosed23]]].
  split; [exact Hwf3|]. split; [congruence|].
  split; [now rewrite Hperm23|].
  intros j Hj. destruct (Hclosed12 j Hj) as [Hc2 Hp2].
  destruct (Hclosed23 j Hc2) as [Hc3 Hp3]. split; [exact Hc3|congruence].
Qed.

Section Connect.
Context (Size : MicroPoint -> Z) (IsAlmostFinished : Path -> Z -> bool).

Lemma bestLoop_finds_open (l : layer) (i : nat) (polygon : Path)
    (rest : list (option Path)) :
  wellFormed l -> polygon <> [] ->
  forall (pre : list (option Path)) (best : option nat) (bestScore : Z),
    polygons l = pre ++ rest ->
    goodMatch l i best ->
    exists (best' : option nat) (bestScore' : Z),
      bestLoop Size l i polygon (length pre) rest (Some (best, bestScore))
        = Some (best', bestScore')
      /\ goodMatch l i best'.
Proof.
  intros [Hlen Hnonempty] Hpolygon.
  induction rest as [|polygon2 rest IH]; intros pre best bestScore Hsplit Hgood.
  - now exists best, bestScore.
  - assert (Hnext : polygons l = (pre ++ [polygon2]) ++ rest)
      by now rewrite <- app_assoc.
    assert (Hj : polygons l !! length pre = Some polygon2)
      by (rewrite Hsplit; now apply list_lookup_middle).
    assert (HS : S (length pre) = length (pre ++ [polygon2]))
      by (rewrite length_app; simpl; lia).
    cbn [bestLoop]. rewrite HS.
    destruct polygon2 as [points2|]; simpl; [|now apply IH].
    destruct (lookup_lt_is_Some_2 (closed l) (length pre)) as [closedJ Hc].
    { rewrite Hlen. eapply lookup_lt_Some; exact Hj. }
    rewrite Hc. simpl.
    destruct closedJ; simpl; [now apply IH|].
    destruct (Nat.eqb_spec i (length pre)) as [Heq|Hne]; simpl;
      [now apply IH|].
    destruct polygon as [|p0 polygon]; [now contradiction Hpolygon|].
    destruct (last (p0 :: polygon)) as [lastPoint|] eqn:Hlast;
      [|now apply last_None in Hlast].
    simpl. destruct points2 as [|first points2];
      [now contradiction (Hnonempty (length pre) [] Hj)|].
    simpl.
    destruct (ShorterThan _ _); [|now apply IH].
    destruct (_ <? bestScore); apply IH; try assumption.
    intros k Hk. injection Hk as <-. split; [congruence|].
    split; [exact Hc|]. now exists (first :: points2).
Qed.

Lemma connectTo_merges (l : layer) (i best : nat) (points matched : Path) :
  wellFormed l ->
  i <> best ->
  polygons l !! i = Some (Some points) -> closed l !! i = Some false ->
  polygons l !! best = Some (Some matched) -> closed l !! best = Some false ->
  exists l' : layer,
    connectTo IsAlmostFinished l i best points = Some l'
    /\ connectsFrom l l'
    /\ S (live (polygons l')) = live (polygons l).
Proof.
  intros [Hlen Hnonempty] Hne Hi Hci Hb Hcb.
  assert (Hmatched : matched <> []) by exact (Hnonempty best matched Hb).
  assert (Hilt : (i < length (polygons l))%nat)
    by (eapply lookup_lt_Some; exact Hi).
  destruct matched as [|m0 matched]; [now contradiction Hmatched|].
  set (merged := points ++ m0 :: matched).
  set (l1 := {| polygons := <[i := Some merged]> (polygons l);
                closed := closed l |}).
  set (closing := IsAlmostFinished points connectSnapDistance).
  set (flags := if closing then <[i := true]> (closed l) else closed l).
  assert (Hl2 :
    (if closing then l' ← removeLastPoint l1 i; setClosed l' i else Some l1)
    = Some {| polygons := polygons l1; closed := flags |}).
  { unfold flags. destruct closing; [|reflexivity].
    rewrite SliceProofs.removeLastPoint_in_range
      by (simpl; now rewrite length_insert).
    simpl. unfold setClosed. simpl.
    destruct (decide _) as [_|Hge]; [reflexivity|].
    exfalso. apply Hge. rewrite Hlen. exact Hilt. }
  assert (Hrun :
    connectTo IsAlmostFinished l i best points
    = Some {| polygons := <[best := None]> (<[i := Some merged]> (polygons l));
              closed := flags |}).
  { unfold connectTo. unfold Path in *. rewrite Hb, Hi. simpl.
    fold merged. fold l1. fold closing. now rewrite Hl2. }
  eexists. split; [exact Hrun|].
  assert (Hflags_len : length flags = length (closed l))
    by (unfold flags; destruct closing; [apply length_insert|reflexivity]).
  split; [split; [|split; [|split]]|].
  - split; simpl.
    + now rewrite Hflags_len, !length_insert.
    + intros k pts Hk. destruct (decide (k = best)) as [->|Hkb].
      * rewrite list_lookup_insert_eq in Hk
          by (rewrite length_insert; eapply lookup_lt_Some; exact Hb).
        discriminate.
      * rewrite list_lookup_insert_ne in Hk by congruence.
        destruct (decide (k = i)) as [->|Hki].
        -- rewrite list_lookup_insert_eq in Hk by exact Hilt.
           injection Hk as <-. unfold merged. now destruct points.
        -- rewrite list_lookup_insert_ne in Hk by congruence.
           exact (Hnonempty k pts Hk).
  - simpl. now rewrite !length_insert.
  - simpl. now apply allPoints_merge.
  - intros j Hj. simpl.
    assert (Hji : j <> i) by congruence.
    assert (Hjb : j <> best) by congruence.
    split.
    + unfold flags. destruct closing; [|exact Hj].
      now rewrite list_lookup_insert_ne by congruence.
    + now rewrite !list_lookup_insert_ne by congruence.
  - simpl.
    rewrite <- (live_replace (polygons l) i points merged Hi).
    apply (live_erase _ best (m0 :: matched)).
    now rewrite list_lookup_insert_ne by congruence.
Qed.

Lemma connectScan_merges (l : layer) (rest : list (option Path)) :
  wellFormed l ->
  forall pre : list (option Path),
    polygons l = pre ++ rest ->
    connectScan Size IsAlmostFinished (length pre) rest l = NothingToMerge
    \/ exists l' : layer,
         connectScan Size IsAlmostFinished (length pre) rest l = Merged l'
         /\ connectsFrom l l'
         /\ S (live (polygons l')) = live (polygons l).
Proof.
  intros Hwf. induction rest as [|polygon rest IH]; intros pre Hsplit.
  - now left.
  - assert (Hnext : polygons l = (pre ++ [polygon]) ++ rest)
      by now rewrite <- app_assoc.
    assert (Hi : polygons l !! length pre = Some polygon)
      by (rewrite Hsplit; now apply list_lookup_middle).
    assert (HS : S (length pre) = length (pre ++ [polygon]))
      by (rewrite length_app; simpl; lia).
    cbn [connectScan]. rewrite HS.
    destruct polygon as [points|]; [|now apply IH].
    destruct (lookup_lt_is_Some_2 (closed l) (length pre)) as [closedI Hc].
    { rewrite (proj1 Hwf). eapply lookup_lt_Some; exact Hi. }
    rewrite Hc. destruct closedI; [now apply IH|].
    destruct (bestLoop_finds_open l (length pre) points (polygons l) Hwf
                (proj2 Hwf _ _ Hi) [] None (connectSnapDistance + 1)
                eq_refl)
      as [best [score [Hbest Hgood]]]; [discriminate|].
    simpl in Hbest. rewrite Hbest.
    destruct best as [best|]; [|now apply IH].
    destruct (Hgood best eq_refl) as [Hne [Hcb [matched Hb]]].
    destruct (connectTo_merges l (length pre) best points matched Hwf
                ltac:(congruence) Hi Hc Hb Hcb) as [l' [Hrun Hprops]].
    rewrite Hrun. right. now exists l'.
Qed.

Lemma connectLoop_ends (fuel : nat) :
  forall l : layer,
    wellFormed l -> (live (polygons l) < fuel)%nat ->
    exists l' : layer,
      connectLoop Size IsAlmostFinished fuel l = Connected l'
      /\ connectsFrom l l'
      /\ connectScan Size IsAlmostFinished 0 (polygons l') l' = NothingToMerge.
Proof.
  induction fuel as [|fuel IH]; intros l Hwf Hfuel; [lia|].
  simpl.
  destruct (connectScan_merges l (polygons l) Hwf [] eq_refl)
    as [Hnone|[l1 [Hrun [Hfrom Hlive]]]]; simpl in *.
  - rewrite Hnone. exists l. split; [reflexivity|].
    split; [now apply connectsFrom_refl|exact Hnone].
  - rewrite Hrun.
    destruct (IH l1 (proj1 Hfrom) ltac:(lia)) as [l' [Hloop [Hfrom' Hfix]]].
    exists l'. split; [exact Hloop|].
    split; [now apply (connectsFrom_trans l l1 l')|exact Hfix].
Qed.

End Connect.

(** On a layer with as many flags as polygons and no polygon without a
    point, connecting ends without a panic.  It keeps the number of
    polygons and flags, neither loses nor invents a point (merging moves
    the points of one polygon to the end of another), leaves every
    polygon that was closed as it was, and stops only when no further
    pair can be merged. *)
Theorem connecting_keeps_points_and_closed_polygons
    (Size : MicroPoint -> Z) (IsAlmostFinished : Path -> Z -> bool)
    (l : layer) :
  wellFormed l ->
  exists l' : layer,
    connectPolygons Size IsAlmostFinished l = Connected l'
    /\ wellFormed l'
    /\ length (polygons l') = length (polygons l)
    /\ allPoints (polygons l') ≡ₚ allPoints (polygons l)
    /\ (forall j : nat,
          closed l !! j = Some true ->
          closed l' !! j = Some true /\ polygons l' !! j = polygons l !! j)
    /\ connectScan Size IsAlmostFinished 0 (polygons l') l' = NothingToMerge.
Proof.
  intros Hwf.
  destruct (connectLoop_ends Size IsAlmostFinished
              (S (length (polygons l))) l Hwf)
    as [l' [Hrun [[Hwf' [Hlen [Hperm Hclosed]]] Hfix]]].
  { pose proof (live_le (polygons l)). lia. }
  exists l'. repeat split; try assumption; try apply Hwf'; apply Hclosed;
    assumption.
Qed.

Lemma twoOpenPolygons_wellFormed : wellFormed Reference.twoOpenPolygons.
Proof.
  split; [reflexivity|]. intros i points Hi.
  destruct i as [|[|i]]; simpl in Hi; try discriminate;
    injection Hi as <-; discriminate.
Qed.

Lemma connecting_keeps_points_and_closed_polygons_witness :
  exists l' : layer,
    connectPolygons Reference.hypot Reference.endsNearerThan
      Reference.twoOpenPolygons = Connected l'
    /\ length (polygons l') = 2%nat
    /\ allPoints (polygons l')
       ≡ₚ allPoints (polygons Reference.twoOpenPolygons).
Proof.
  destruct (connecting_keeps_points_and_closed_polygons Reference.hypot
              Reference.endsNearerThan Reference.twoOpenPolygons
              twoOpenPolygons_wellFormed)
    as [l' [Hrun [_ [Hlen [Hperm _]]]]].
  exists l'. split; [exact Hrun|]. split; [exact Hlen|exact Hperm].
Defined.

(** *** [makePolygons] from segments to polygons *)

Lemma stitched_wellFormed (l : layer) (new : list Path) (flags : list bool) :
  wellFormed l -> length flags = length new ->
  Forall (fun polygon => (2 <= length polygon)%nat) new ->
  wellFormed {| polygons := polygons l ++ (Some <$> new);
                closed := closed l ++ flags |}.
Proof.
  intros [Hlen Hnonempty] Hflags Hlong. split; simpl.
  - rewrite !length_app, length_fmap. lia.
  - intros i points Hi. apply lookup_app_Some in Hi as [Hi|[_ Hi]].
    + exact (Hnonempty i points Hi).
    + apply list_lookup_fmap_Some in Hi as [polygon [Heq Hi]].
      injection Heq as ->.
      pose proof (Forall_lookup_1 _ _ _ _ Hlong Hi) as H2. simpl in H2.
      intros ->. simpl in H2. lia.
Qed.

(** With a face map that only names segments that exist, a layer whose
    polygons so far are well formed (none, for a fresh layer) and segment
    lengths that are not negative, [makePolygons] runs through all three
    passes without a panic.  The polygons it returns are exactly those
    polygons of the layer as the connecting pass left it that are longer
    than 1000 micrometers in total and closed: flagged closed by the
    stitching or the connecting pass, or with their ends almost together
    so that the last pass closes them. *)
Theorem makePolygons_returns_long_closed_polygons
    (touching : Z -> list Z) (faceToSegmentIndex : gmap Z Z)
    (Size : MicroPoint -> Z) (IsAlmostFinished : Path -> Z -> bool)
    (st : stitching) :
  validFaceMap faceToSegmentIndex (segments st) ->
  wellFormed (polys st) ->
  (forall p, 0 <= Size p) ->
  exists (st1 : stitching) (l2 : layer) (result : list Path),
    stitch touching faceToSegmentIndex st = Stitched st1
    /\ connectPolygons Size IsAlmostFinished (polys st1) = Connected l2
    /\ makePolygons touching faceToSegmentIndex Size IsAlmostFinished st
       = Some result
    /\ forall points : Path,
         points ∈ result <->
         exists (i : nat) (c : bool),
           polygons l2 !! i = Some (Some points)
           /\ closed l2 !! i = Some c
           /\ (c = true \/ IsAlmostFinished points 1000 = true)
           /\ 1000 < totalLength Size points.
Proof.
  intros Hvalid Hwf Hsize.
  destruct (StitchProofs.stitchLoop_ends touching faceToSegmentIndex
              (length (segments st)) 0 st ltac:(lia) Hvalid)
    as [st1 [new [flags [Hstitch [_ [_ [Hpolys [Hclosed [Hflags [Hlong _]]]]]]]]]].
  { intros j s Hj. lia. }
  assert (Hwf1 : wellFormed (polys st1)).
  { pose proof (stitched_wellFormed (polys st) new flags Hwf Hflags Hlong)
      as H.
    destruct (polys st1) as [polygons1 closed1]. simpl in *. now subst. }
  destruct (connectLoop_ends Size IsAlmostFinished
              (S (length (polygons (polys st1)))) (polys st1) Hwf1)
    as [l2 [Hconnect [[Hwf2 _] _]]].
  { pose proof (live_le (polygons (polys st1))). lia. }
  destruct (SliceProofs.clearLoop_kept Size IsAlmostFinished Hsize
              (polygons l2) [] (closed l2) l2 [] eq_refl eq_refl
              (proj1 Hwf2)) as [l3 [Hclear _]].
  exists st1, l2,
    (keptPolygons Size IsAlmostFinished longerThan1000
       (polygons l2) (closed l2)).
  split; [exact Hstitch|]. split; [exact Hconnect|]. split.
  - unfold makePolygons, stitch, connectPolygons, clearPolygons in *.
    rewrite Hstitch, Hconnect. simpl in Hclear. now rewrite Hclear.
  - intros points. rewrite SliceProofs.keptPolygons_elem.
    unfold markedClosed, longerThan1000, snapDistance.
    split; intros [i [c [Hp [Hc [Hmarked Hlong']]]]]; exists i, c;
      (split; [exact Hp|]); (split; [exact Hc|]).
    + split; [|now apply Z.ltb_lt].
      apply orb_true_iff in Hmarked as [->|H]; [now left|now right].
    + split; [|now apply Z.ltb_lt].
      apply orb_true_iff. destruct Hmarked as [->|H]; [now left|now right].
Qed.

Lemma freshLayer_wellFormed : wellFormed (polys Reference.freshLayer).
Proof. split; [reflexivity|]. intros i points Hi. destruct i; discriminate. Qed.

Lemma makePolygons_returns_long_closed_polygons_witness :
  exists (st1 : stitching) (l2 : layer) (result : list Path),
    stitch Reference.twoTouching Reference.twoFaces Reference.freshLayer
      = Stitched st1
    /\ connectPolygons Reference.hypot Reference.endsNearerThan (polys st1)
       = Connected l2
    /\ makePolygons Reference.twoTouching Reference.twoFaces Reference.hypot
         Reference.endsNearerThan Reference.freshLayer = Some result
    /\ forall points : Path,
         points ∈ result <->
         exists (i : nat) (c : bool),
           polygons l2 !! i = Some (Some points)
           /\ closed l2 !! i = Some c
           /\ (c = true \/ Reference.endsNearerThan points 1000 = true)
           /\ 1000 < totalLength Reference.hypot points.
Proof.
  exact (makePolygons_returns_long_closed_polygons Reference.twoTouching
           Reference.twoFaces Reference.hypot Reference.endsNearerThan
           Reference.freshLayer StitchProofs.twoFaces_valid
           freshLayer_wellFormed SliceProofs.hypot_nonneg).
Defined.

End ConnectProofs.

(** * Further properties of the support modifiers *)

Module ModifierMoreProofs.
Import Data Modifier.

Lemma differOnlyIn_refl (keys : list string) (layers : list PartitionedLayer) :
  Forall2 (differOnlyIn keys) layers layers.
Proof.
  apply Forall2_same_length_lookup_2; [reflexivity|].
  intros i a b Ha Hb. assert (a = b) by congruence. subst b. now split.
Qed.

Lemma differOnlyIn_trans (keys : list string)
    (a b c : list PartitionedLayer) :
  Forall2 (differOnlyIn keys) a b -> Forall2 (differOnlyIn keys) b c ->
  Forall2 (differOnlyIn keys) a c.
Proof.
  intros Hab. revert c. induction Hab as [|x y a b Hxy Hab IH]; intros c Hbc.
  - inversion Hbc. constructor.
  - inversion Hbc as [|y' z b' c' Hyz Hbc']; subst.
    constructor; [|now apply IH].
    destruct Hxy as [Hp1 Ha1], Hyz as [Hp2 Ha2]. split; [congruence|].
    intros key Hkey. now rewrite Ha2, Ha1.
Qed.

Lemma differOnlyIn_insert (keys : list string)
    (layers : list PartitionedLayer) (i : nat) (old new : PartitionedLayer) :
  layers !! i = Some old -> differOnlyIn keys old new ->
  Forall2 (differOnlyIn keys) layers (<[i := new]> layers).
Proof.
  intros Hi Hnew.
  apply Forall2_same_length_lookup_2; [now rewrite length_insert|].
  intros j a b Ha Hb. destruct (decide (i = j)) as [->|Hne].
  - rewrite list_lookup_insert_eq in Hb by (eapply lookup_lt_Some; exact Ha).
    assert (a = old) by congruence. assert (b = new) by congruence.
    now subst.
  - rewrite list_lookup_insert_ne in Hb by exact Hne.
    assert (a = b) by congruence. subst b. now split.
Qed.

Lemma setAttribute_differs (keys : list string) (layer : PartitionedLayer)
    (name : string) (value : AttrValue) :
  name ∈ keys -> differOnlyIn keys layer (setAttribute layer name value).
Proof.
  intros Hname. split; [reflexivity|]. intros key Hkey. simpl.
  apply lookup_insert_ne. intros ->. now apply Hkey.
Qed.

Lemma differOnlyIn_step (keys : list string) (a b c : PartitionedLayer) :
  differOnlyIn keys a b -> differOnlyIn keys b c -> differOnlyIn keys a c.
Proof.
  intros [Hp1 Ha1] [Hp2 Ha2]. split; [congruence|].
  intros key Hkey. now rewrite Ha2, Ha1.
Qed.

Lemma differOnlyIn_same (keys : list string) (a : PartitionedLayer) :
  differOnlyIn keys a a.
Proof. now split. Qed.

(** *** The detector *)

Section Detector.
Context (InsetLayer1D : PartList -> Z -> Z -> Z -> PartList).
Context (Difference : PartList -> PartList -> PartList * bool).
Context (roundedDistance : Z -> Z -> Z).
Context (options : Options).

Local Abbreviation step :=
  (detectStep InsetLayer1D Difference roundedDistance options).
Local Abbreviation loop :=
  (detectLoop InsetLayer1D Difference roundedDistance options).

Lemma withDetectedSupport_differs (target : PartitionedLayer)
    (support : PartList) :
  differOnlyIn ["support"] target (withDetectedSupport target support).
Proof.
  unfold withDetectedSupport. rewrite ModifierProofs.newExtendedLayer_same.
  destruct (0 <? len support).
  - apply setAttribute_differs. apply list_elem_of_singleton. reflexivity.
  - apply differOnlyIn_same.
Qed.

Lemma detectStep_writes_support (layers layers' : list PartitionedLayer)
    (layerNr : nat) :
  (step layers layerNr = DetectNext layers'
   \/ exists err, step layers layerNr = DetectReturn layers' err) ->
  Forall2 (differOnlyIn ["support"]) layers layers'.
Proof.
  unfold detectStep.
  destruct (negb (Enabled options)).
  { intros [H|[err H]]; [discriminate|]. injection H as <- _.
    apply differOnlyIn_refl. }
  destruct (_ || _).
  { intros [H|[err H]]; [|discriminate]. injection H as <-.
    apply differOnlyIn_refl. }
  destruct (layers !! layerNr) as [cur|];
    [|intros [H|[err H]]; discriminate].
  destruct (layers !! S layerNr) as [next|];
    [|intros [H|[err H]]; discriminate].
  destruct (supportRegion _ _ _ _ cur next) as [support ok].
  destruct ok; simpl.
  - destruct (_ && _); [|intros [H|[err H]]; discriminate].
    destruct (layers !! Z.to_nat _) as [target|] eqn:Ht;
      [|intros [H|[err H]]; discriminate].
    intros [H|[err H]]; [|discriminate]. injection H as <-.
    apply (differOnlyIn_insert _ _ _ target); [exact Ht|].
    apply withDetectedSupport_differs.
  - intros [H|[err H]]; [discriminate|]. injection H as <- _.
    apply differOnlyIn_refl.
Qed.

Lemma detectLoop_writes_support (count : nat) :
  forall (layerNr : nat) (layers layers' : list PartitionedLayer)
         (err : option error),
    loop count layerNr layers = Returned layers' err ->
    Forall2 (differOnlyIn ["support"]) layers layers'.
Proof.
  induction count as [|count IH]; intros layerNr layers layers' err; simpl.
  - intros H. injection H as <- _. apply differOnlyIn_refl.
  - destruct (step layers layerNr) as [next|returned err'|] eqn:Hstep.
    + intros Hrun. apply (differOnlyIn_trans _ _ next).
      * apply (detectStep_writes_support _ _ layerNr). now left.
      * exact (IH _ _ _ _ Hrun).
    + intros H. injection H as <- <-.
      apply (detectStep_writes_support _ _ layerNr). right. now exists err'.
    + discriminate.
Qed.

Section Total.
Hypothesis enabled : Enabled options = true.
Hypothesis gap_nonneg : 0 <= TopGapLayers options.

Local Abbreviation gap := (Z.to_nat (TopGapLayers options)).
Local Abbreviation computable :=
  (regionComputable InsetLayer1D Difference roundedDistance options).

Local Abbreviation failure :=
  (Errorf "could not calculate the support parts" []).

(** What one iteration does, with the layers [now] having the parts of
    the layers [orig] the loop started from. *)
Lemma detectStep_cases (orig now : list PartitionedLayer) (layerNr : nat) :
  sameParts orig now -> (layerNr < length orig)%nat ->
  match step now layerNr with
  | DetectNext now' =>
      sameParts orig now' /\ ((gap <= layerNr)%nat -> computable orig layerNr)
  | DetectReturn now' err =>
      err = Some failure /\ (gap <= layerNr)%nat
      /\ ~ computable orig layerNr
  | DetectPanic => False
  end.
Proof.
  intros [Hlen Hparts] Hlt. unfold detectStep. rewrite enabled. simpl.
  destruct (Z.eqb_spec (Z.of_nat layerNr) (Z.of_nat (length now) - 1))
    as [Hlast|Hnotlast]; simpl.
  { split; [now split|]. intros _ cur next _ Hnext.
    apply lookup_lt_Some in Hnext. lia. }
  destruct (Z.ltb_spec (Z.of_nat layerNr) (TopGapLayers options))
    as [Hlow|Hhigh]; simpl.
  { split; [now split|]. lia. }
  destruct (lookup_lt_is_Some_2 now layerNr ltac:(lia)) as [cur Hcur].
  destruct (lookup_lt_is_Some_2 now (S layerNr) ltac:(lia)) as [next Hnext].
  rewrite Hcur, Hnext.
  destruct (lookup_lt_is_Some_2 orig layerNr ltac:(lia)) as [cur0 Hcur0].
  destruct (lookup_lt_is_Some_2 orig (S layerNr) ltac:(lia)) as [next0 Hnext0].
  assert (Hpc : LayerParts cur = LayerParts cur0).
  { pose proof (Hparts layerNr) as E. rewrite Hcur, Hcur0 in E.
    now injection E. }
  assert (Hpn : LayerParts next = LayerParts next0).
  { pose proof (Hparts (S layerNr)) as E. rewrite Hnext, Hnext0 in E.
    now injection E. }
  rewrite (ModifierProofs.supportRegion_parts InsetLayer1D Difference
             roundedDistance options cur cur0 next next0 Hpc Hpn).
  destruct (supportRegion _ _ _ _ cur0 next0) as [support ok] eqn:Hregion.
  destruct ok; simpl.
  - assert (Htarget : Z.to_nat (Z.of_nat layerNr - TopGapLayers options)
                      = (layerNr - gap)%nat) by lia.
    rewrite Htarget.
    destruct (Z.leb_spec 0 (Z.of_nat layerNr - TopGapLayers options));
      [|lia].
    destruct (Z.ltb_spec (Z.of_nat layerNr - TopGapLayers options)
                (Z.of_nat (length now))); [|lia].
    simpl.
    destruct (lookup_lt_is_Some_2 now (layerNr - gap) ltac:(lia))
      as [target Htl].
    rewrite Htl. split.
    + split; [now rewrite length_insert|].
      intros j. destruct (decide (j = (layerNr - gap)%nat)) as [->|Hne].
      * rewrite list_lookup_insert_eq by lia.
        rewrite <- Hparts, Htl. simpl.
        now rewrite (ModifierProofs.withDetectedSupport_parts).
      * rewrite list_lookup_insert_ne by congruence. apply Hparts.
    + intros _ cur' next' Hc' Hn'.
      assert (cur' = cur0) by congruence. assert (next' = next0) by congruence.
      subst. now rewrite Hregion.
  - split; [reflexivity|]. split; [lia|].
    intros Hok. specialize (Hok cur0 next0 Hcur0 Hnext0).
    rewrite Hregion in Hok. discriminate.
Qed.

Lemma detectLoop_total (orig : list PartitionedLayer) (count : nat) :
  forall (layerNr : nat) (now : list PartitionedLayer),
    (count + layerNr = length orig)%nat ->
    sameParts orig now ->
    exists (layers' : list PartitionedLayer) (err : option error),
      loop count layerNr now = Returned layers' err
      /\ (err = None <->
          forall n : nat, (layerNr <= n)%nat -> (gap <= n)%nat ->
                          computable orig n)
      /\ (err <> None -> err = Some failure).
Proof.
  induction count as [|count IH]; intros layerNr now Hcount Hsame.
  - exists now, None. split; [reflexivity|]. split; [|congruence].
    split; [|reflexivity]. intros _ n Hn _ cur next Hc _.
    apply lookup_lt_Some in Hc. lia.
  - pose proof (detectStep_cases orig now layerNr Hsame ltac:(lia)) as Hstep.
    simpl. destruct (step now layerNr) as [now'|now' err|]; [| |contradiction].
    + destruct Hstep as [Hsame' Hok].
      destruct (IH (S layerNr) now' ltac:(lia) Hsame')
        as [layers' [err [Hrun [Hiff Herr]]]].
      exists layers', err. split; [exact Hrun|]. split; [|exact Herr].
      rewrite Hiff. split.
      * intros Hall n Hn Hg. destruct (decide (n = layerNr)) as [->|Hne].
        -- now apply Hok.
        -- apply Hall; [lia|exact Hg].
      * intros Hall n Hn Hg. apply Hall; [lia|exact Hg].
    + destruct Hstep as [-> [Hg Hbad]].
      exists now', (Some failure). split; [reflexivity|].
      split; [|reflexivity]. split; [discriminate|].
      intros Hall. exfalso. apply Hbad. apply Hall; [lia|exact Hg].
Qed.

End Total.

End Detector.

(** Whatever the detector returns, it has written nothing but "support"
    attributes: the layers are as many as before, each with its parts and
    all its other attributes as they were. *)
Theorem detector_writes_only_support
    (InsetLayer1D : PartList -> Z -> Z -> Z -> PartList)
    (Difference : PartList -> PartList -> PartList * bool)
    (roundedDistance : Z -> Z -> Z) (options : Options)
    (layers layers' : list PartitionedLayer) (err : option error) :
  detectorModify InsetLayer1D Difference roundedDistance options layers
    = Returned layers' err ->
  Forall2 (differOnlyIn ["support"]) layers layers'.
Proof. apply detectLoop_writes_support. Qed.

Lemma detector_writes_only_support_witness :
  let lower := mkPartitionedLayer (Some [Reference.square1000]) ∅ in
  let upper :=
    mkPartitionedLayer
      (Some [Reference.square1000; Reference.squareBeside]) ∅ in
  Forall2 (differOnlyIn ["support"]) [lower; upper]
    [setAttribute lower "support"
       (AttrLayerParts (Some [Reference.squareBeside])); upper].
Proof.
  intros lower upper.
  exact (detector_writes_only_support Reference.tileInset
           Reference.tileDifference Reference.noDistance Reference.supportOn
           [lower; upper] _ None eq_refl).
Defined.

(** With support enabled and [TopGapLayers >= 0] the detector never
    panics.  It returns nil exactly when the clipper can compute the
    difference for every processed layer (every layer [n >= TopGapLayers]
    with a layer above it); otherwise it returns the error "could not
    calculate the support parts". *)
Theorem detector_fails_exactly_when_a_difference_fails
    (InsetLayer1D : PartList -> Z -> Z -> Z -> PartList)
    (Difference : PartList -> PartList -> PartList * bool)
    (roundedDistance : Z -> Z -> Z) (options : Options)
    (layers : list PartitionedLayer) :
  Enabled options = true ->
  0 <= TopGapLayers options ->
  exists (layers' : list PartitionedLayer) (err : option error),
    detectorModify InsetLayer1D Difference roundedDistance options layers
      = Returned layers' err
    /\ (err = None <->
        forall n : nat,
          TopGapLayers options <= Z.of_nat n ->
          regionComputable InsetLayer1D Difference roundedDistance options
            layers n)
    /\ (err <> None ->
        err = Some (Errorf "could not calculate the support parts" [])).
Proof.
  intros Hon Hgap.
  destruct (detectLoop_total InsetLayer1D Difference roundedDistance options
              Hon Hgap layers (length layers) 0 layers ltac:(lia))
    as [layers' [err [Hrun [Hiff Herr]]]]; [now split|].
  exists layers', err. split; [exact Hrun|]. split; [|exact Herr].
  rewrite Hiff. split.
  - intros H n Hn. apply H; lia.
  - intros H n _ Hn. apply H. lia.
Qed.

Lemma detector_fails_exactly_when_a_difference_fails_witness :
  exists (layers' : list PartitionedLayer) (err : option error),
    detectorModify Reference.tileInset Reference.tileDifference
      Reference.noDistance Reference.supportOn
      [Reference.emptyLayer; Reference.emptyLayer] = Returned layers' err.
Proof.
  destruct (detector_fails_exactly_when_a_difference_fails
              Reference.tileInset Reference.tileDifference
              Reference.noDistance Reference.supportOn
              [Reference.emptyLayer; Reference.emptyLayer]
              eq_refl ltac:(discriminate))
    as [layers' [err [Hrun _]]].
  now exists layers', err.
Defined.

(** *** The generator *)

Section Generator.
Context (InsetLayer1D : PartList -> Z -> Z -> Z -> PartList).
Context (Difference Union : PartList -> PartList -> PartList * bool).
Context (BrimOuterDimension : PartitionedLayer -> PartList * option error).
Context (options : Options).

Local Abbreviation compute :=
  (computeSupport InsetLayer1D Difference Union BrimOuterDimension options).
Local Abbreviation gstep :=
  (genStep InsetLayer1D Difference Union BrimOuterDimension options).
Local Abbreviation gloop :=
  (genLoop InsetLayer1D Difference Union BrimOuterDimension options).
Local Abbreviation written := ["fullSupport"; "supportInterface"; "support"].

Lemma withGeneratedSupport_differs (below : PartitionedLayer)
    (actualSupport interfaceParts actualWithoutInterfaceParts : PartList) :
  differOnlyIn written below
    (withGeneratedSupport below actualSupport interfaceParts
       actualWithoutInterfaceParts).
Proof.
  unfold withGeneratedSupport.
  assert (H0 : differOnlyIn written below (newExtendedLayer below))
    by (rewrite ModifierProofs.newExtendedLayer_same; apply differOnlyIn_same).
  set (l1 := if 0 <? len actualSupport then _ else _).
  assert (H1 : differOnlyIn written below l1).
  { subst l1. destruct (0 <? len actualSupport); [|exact H0].
    eapply differOnlyIn_step; [exact H0|].
    apply setAttribute_differs. set_solver. }
  set (l2 := if 0 <? len interfaceParts then _ else _).
  assert (H2 : differOnlyIn written below l2).
  { subst l2. destruct (0 <? len interfaceParts); [|exact H1].
    eapply differOnlyIn_step; [exact H1|].
    apply setAttribute_differs. set_solver. }
  destruct (0 <? len actualWithoutInterfaceParts);
    (eapply differOnlyIn_step; [exact H2|]);
    apply setAttribute_differs; set_solver.
Qed.

Lemma genStep_writes (layers layers' : list PartitionedLayer)
    (lastSupport lastSupport' : PartList) (layerNr : nat) :
  gstep layers lastSupport layerNr = GenNext layers' lastSupport' ->
  Forall2 (differOnlyIn written) layers layers'.
Proof.
  unfold genStep.
  destruct (compute layers lastSupport layerNr); try discriminate.
  - intros H. injection H as <- _. apply differOnlyIn_refl.
  - destruct (layers !! (layerNr - 1)%nat) as [below|] eqn:Hb; [|discriminate].
    intros H. injection H as <- _.
    apply (differOnlyIn_insert _ _ _ below); [exact Hb|].
    apply withGeneratedSupport_differs.
Qed.

Lemma genLoop_writes (count : nat) :
  forall (layers layers' : list PartitionedLayer) (lastSupport : PartList)
         (err : option error),
    gloop count layers lastSupport = Returned layers' err ->
    Forall2 (differOnlyIn written) layers layers'.
Proof.
  induction count as [|layerNr IH]; intros layers layers' lastSupport err;
    simpl.
  - intros H. injection H as <- _. apply differOnlyIn_refl.
  - destruct (negb (Enabled options) || (layerNr =? 0)%nat).
    { intros H. injection H as <- _. apply differOnlyIn_refl. }
    destruct (gstep layers lastSupport layerNr)
      as [next lastSupport'|returned err'|] eqn:Hstep.
    + intros Hrun. apply (differOnlyIn_trans _ _ next).
      * exact (genStep_writes _ _ _ _ _ Hstep).
      * exact (IH _ _ _ _ Hrun).
    + intros H. injection H as <- _.
      rewrite (ModifierProofs.genStep_return _ _ _ _ _ _ _ _ _ _ Hstep).
      apply differOnlyIn_refl.
    + discriminate.
Qed.

Section Total.
Hypothesis interface_nonneg : 0 <= InterfaceLayers options.

Lemma computeSupport_in_range (layers : list PartitionedLayer)
    (lastSupport : PartList) (layerNr : nat) :
  Z.of_nat (length layers) + InterfaceLayers options <= 2 ^ 63 ->
  (1 <= layerNr)%nat -> (layerNr < length layers)%nat ->
  compute layers lastSupport layerNr <> Crashed.
Proof.
  intros Hsmall Hpos Hlt. unfold computeSupport.
  destruct (lookup_lt_is_Some_2 layers layerNr Hlt) as [cur ->].
  destruct (lookup_lt_is_Some_2 layers (layerNr - 1) ltac:(lia)) as [below ->].
  destruct (if isNil lastSupport then _ else _) as [currentSupport [e|]];
    [discriminate|].
  destruct (PartsAttribute below "support") as [belowSupport [e|]];
    [discriminate|].
  destruct (_ && _); [discriminate|].
  destruct (Union currentSupport belowSupport) as [res [|]]; simpl;
    [|discriminate].
  destruct (Difference res _) as [actual [|]]; simpl; [|discriminate].
  destruct (isNil actual); [discriminate|].
  unfold separateInterface, layerNrAboveInterface.
  rewrite (ClipOffsetProofs.wrap64_small
             (Z.of_nat layerNr + InterfaceLayers options)) by lia.
  rewrite ClipOffsetProofs.wrap64_small by lia.
  set (n := Z.of_nat layerNr + InterfaceLayers options - 1).
  set (above := if Z.of_nat (length layers) <=? n then _ else _).
  assert (Hrange : 0 <= above < Z.of_nat (length layers)).
  { subst above.
    destruct (Z.leb_spec (Z.of_nat (length layers)) n); subst n; lia. }
  destruct (Z.ltb_spec above 0); [lia|].
  destruct (lookup_lt_is_Some_2 layers (Z.to_nat above) ltac:(lia))
    as [top ->].
  destruct (PartsAttribute top "fullSupport") as [aboveSupport [e|]];
    [discriminate|].
  destruct (Difference actual aboveSupport) as [interface0 [|]]; simpl;
    [|discriminate].
  destruct (Difference actual interface0) as [body0 [|]]; simpl;
    [|discriminate].
  destruct (BrimOuterDimension below) as [brimArea [e|]]; [discriminate|].
  destruct (isNil brimArea); discriminate.
Qed.

Lemma genStep_in_range (layers : list PartitionedLayer)
    (lastSupport : PartList) (layerNr : nat) :
  Z.of_nat (length layers) + InterfaceLayers options <= 2 ^ 63 ->
  (1 <= layerNr)%nat -> (layerNr < length layers)%nat ->
  gstep layers lastSupport layerNr <> GenPanic.
Proof.
  intros Hsmall Hpos Hlt. unfold genStep.
  pose proof (computeSupport_in_range layers lastSupport layerNr Hsmall
                Hpos Hlt).
  destruct (compute layers lastSupport layerNr); try discriminate;
    [contradiction|].
  destruct (lookup_lt_is_Some_2 layers (layerNr - 1) ltac:(lia)) as [below ->].
  discriminate.
Qed.

Lemma genLoop_total (count : nat) :
  forall (layers : list PartitionedLayer) (lastSupport : PartList),
    Z.of_nat (length layers) + InterfaceLayers options <= 2 ^ 63 ->
    (count < length layers)%nat \/ count = 0%nat ->
    exists (layers' : list PartitionedLayer) (err : option error),
      gloop count layers lastSupport = Returned layers' err.
Proof.
  induction count as [|layerNr IH]; intros layers lastSupport Hsmall Hcount;
    simpl.
  - now exists layers, None.
  - destruct (negb (Enabled options) || (layerNr =? 0)%nat) eqn:Hstop.
    { now exists layers, None. }
    apply orb_false_elim in Hstop as [_ Hnz]. apply Nat.eqb_neq in Hnz.
    pose proof (genStep_in_range layers lastSupport layerNr Hsmall
                  ltac:(lia) ltac:(lia)) as Hsafe.
    destruct (gstep layers lastSupport layerNr)
      as [next lastSupport'|returned err'|] eqn:Hstep.
    + destruct (ModifierProofs.genStep_frame _ _ _ _ _ _ _ _ _ _ Hstep)
        as [Hlen _].
      apply IH; rewrite Hlen; [exact Hsmall|]. left. lia.
    + now exists returned, err'.
    + contradiction.
Qed.

End Total.

End Generator.

(** Whatever the generator returns, the layers are as many as before,
    each has its parts, and no attribute other than "fullSupport",
    "supportInterface" and "support" has changed; the two topmost layers
    are exactly as they were. *)
Theorem generator_writes_only_support_attributes
    (InsetLayer1D : PartList -> Z -> Z -> Z -> PartList)
    (Difference Union : PartList -> PartList -> PartList * bool)
    (BrimOuterDimension : PartitionedLayer -> PartList * option error)
    (options : Options) (layers layers' : list PartitionedLayer)
    (err : option error) :
  generatorModify InsetLayer1D Difference Union BrimOuterDimension options
    layers = Returned layers' err ->
  Forall2 (differOnlyIn ["fullSupport"; "supportInterface"; "support"])
    layers layers'
  /\ forall j : nat,
       (length layers <= j + 2)%nat -> layers' !! j = layers !! j.
Proof.
  intros Hrun. split.
  - exact (genLoop_writes _ _ _ _ _ _ _ _ _ _ Hrun).
  - intros j Hj.
    apply (ModifierProofs.genLoop_frame _ _ _ _ _ _ _ _ _ _ Hrun). lia.
Qed.

Lemma generator_writes_only_support_attributes_witness :
  let lower :=
    mkPartitionedLayer (Some [Reference.square1000])
      {["support" := AttrLayerParts (Some [Reference.squareBeside])]} in
  let layers := [lower; Reference.emptyLayer; Reference.emptyLayer] in
  let final :=
    [withGeneratedSupport lower (Some [Reference.squareBeside])
       (Some [Reference.squareBeside]) None;
     Reference.emptyLayer; Reference.emptyLayer] in
  Forall2 (differOnlyIn ["fullSupport"; "supportInterface"; "support"])
    layers final
  /\ forall j : nat, (3 <= j + 2)%nat -> final !! j = layers !! j.
Proof.
  intros lower layers final.
  exact (generator_writes_only_support_attributes Reference.tileInset
           Reference.tileDifference Reference.tileUnion Reference.noBrim
           Reference.supportOn layers final None eq_refl).
Defined.

(** With [InterfaceLayers >= 0], and small enough for
    [layerNr + InterfaceLayers - 1] not to overflow Go's 64-bit [int]
    ([len(layers) + InterfaceLayers <= 2^63]), the generator never
    panics: every index it uses is in range, and it returns the layers
    with nil or with an error. *)
Theorem generator_returns
    (InsetLayer1D : PartList -> Z -> Z -> Z -> PartList)
    (Difference Union : PartList -> PartList -> PartList * bool)
    (BrimOuterDimension : PartitionedLayer -> PartList * option error)
    (options : Options) (layers : list PartitionedLayer) :
  0 <= InterfaceLayers options ->
  Z.of_nat (length layers) + InterfaceLayers options <= 2 ^ 63 ->
  exists (layers' : list PartitionedLayer) (err : option error),
    generatorModify InsetLayer1D Difference Union BrimOuterDimension options
      layers = Returned layers' err.
Proof.
  intros Hinterface Hsmall.
  apply genLoop_total; [exact Hinterface|exact Hsmall|].
  destruct layers; simpl; lia.
Qed.

Lemma generator_returns_witness :
  exists (layers' : list PartitionedLayer) (err : option error),
    generatorModify Reference.tileInset Reference.tileDifference
      Reference.tileUnion Reference.noBrim Reference.supportOn
      [mkPartitionedLayer (Some [Reference.square1000])
         {["support" := AttrLayerParts (Some [Reference.squareBeside])]};
       Reference.emptyLayer; Reference.emptyLayer]
    = Returned layers' err.
Proof.
  apply generator_returns; vm_compute; discriminate.
Defined.

(** What the generator writes under "fullSupport" is what [FullSupport]
    reads from the new layer; when the support of the iteration is empty
    the attribute is not written and [FullSupport] reads what the layer
    had before.  The writes of "supportInterface" and "support" do not
    get in the way. *)
Theorem FullSupport_reads_what_the_generator_wrote
    (below : PartitionedLayer)
    (actualSupport interfaceParts actualWithoutInterfaceParts : PartList) :
  FullSupport (withGeneratedSupport below actualSupport interfaceParts
                 actualWithoutInterfaceParts)
  = if 0 <? len actualSupport then (actualSupport, None)
    else FullSupport below.
Proof.
  unfold FullSupport, withGeneratedSupport.
  rewrite ModifierProofs.newExtendedLayer_same.
  destruct (0 <? len actualSupport), (0 <? len interfaceParts),
    (0 <? len actualWithoutInterfaceParts); simpl;
    repeat (rewrite lookup_insert_ne by discriminate);
    try rewrite lookup_insert_eq; reflexivity.
Qed.

End ModifierMoreProofs.

(** * Further properties of the layer renderers *)

Module RendererMoreProofs.
Import Renderer.

Lemma commands_append (b b' : Builder) :
  commands (b ++ b') = commands b ++ commands b'.
Proof.
  induction b as [|call b IH]; [reflexivity|].
  destruct call; simpl; now rewrite IH.
Qed.

(** [PreLayer.Render] only appends to the builder. *)
Lemma Render_appends (b : Builder) (layerNr maxLayer : Z)
    (layer : Modifier.PartitionedLayer) (z : Z) (options : Options) :
  fst (Render b layerNr maxLayer layer z options)
  = b ++ callsOf layerNr maxLayer layer z options.
Proof.
  unfold callsOf, Render. cbv zeta.
  destruct (layerNr =? 0); [|destruct (layerNr =? 1)];
    destruct (0 <? layerNr);
    (destruct (LayerToSpeedLUT options !! layerNr) as [fanSpeed|];
     [destruct (fanSpeed =? 0)|]);
    destruct (layerNr =? InitialTemperatureLayerCount options);
    cbn [fst]; rewrite <- ?app_assoc; reflexivity.
Qed.

(** Whatever the layer, [PreLayer.Render] returns nil, leaves the calls
    made before as they are and adds its own after them, the comment
    "LAYER:" with the layer number first.  The commands that wait for a
    temperature ([M190], [M109]), lift the nozzle ([G1 Z5]) and reset the
    extrusion distance ([G92 E0]) are emitted on layer 0 and on no other
    layer; the bed temperature is changed without waiting ([M140]) on
    layer [InitialTemperatureLayerCount] and on no other. *)
Theorem PreLayer_commands_by_layer (b : Builder) (layerNr maxLayer : Z)
    (layer : Modifier.PartitionedLayer) (z : Z) (options : Options) :
  let calls := callsOf layerNr maxLayer layer z options in
  Render b layerNr maxLayer layer z options = (b ++ calls, None)
  /\ head calls = Some (AddComment "LAYER:%v" [layerNr])
  /\ emits "M190" (commands calls) = (layerNr =? 0)
  /\ emits "M109" (commands calls) = (layerNr =? 0)
  /\ emits "G1 Z5" (commands calls) = (layerNr =? 0)
  /\ emits "G92 E0" (commands calls) = (layerNr =? 0)
  /\ emits "M140" (commands calls)
     = (layerNr =? InitialTemperatureLayerCount options).
Proof.
  cbv zeta. split.
  { rewrite <- Render_appends. now destruct (Render b _ _ _ _ _) eqn:E;
      unfold Render in E; injection E as <- <-. }
  unfold callsOf, Render. cbv zeta.
  destruct (layerNr =? 0); [|destruct (layerNr =? 1)];
    destruct (0 <? layerNr);
    (destruct (LayerToSpeedLUT options !! layerNr) as [fanSpeed|];
     [destruct (fanSpeed =? 0)|]);
    destruct (layerNr =? InitialTemperatureLayerCount options);
    cbn [fst]; rewrite <- ?app_assoc; repeat split; reflexivity.
Qed.

(** The speed override of the first layer: [SetExtrudeSpeedOverride] is
    called on layer 0 only, with [IntialLayerSpeed];
    [DisableExtrudeSpeedOverride] is called on every layer above 0 and
    on no other. *)
Theorem PreLayer_overrides_the_speed_of_layer_0_only (layerNr maxLayer : Z)
    (layer : Modifier.PartitionedLayer) (z : Z) (options : Options) :
  let calls := callsOf layerNr maxLayer layer z options in
  (forall speed : Q,
     In (SetExtrudeSpeedOverride speed) calls
     <-> layerNr = 0 /\ speed = IntialLayerSpeed options)
  /\ (In DisableExtrudeSpeedOverride calls <-> 0 < layerNr).
Proof.
  cbv zeta. unfold callsOf, Render. cbv zeta.
  destruct (Z.eqb_spec layerNr 0) as [H0|H0];
    [|destruct (Z.eqb_spec layerNr 1) as [H1|H1]];
    destruct (Z.ltb_spec 0 layerNr) as [Hpos|Hpos]; try lia;
    (destruct (LayerToSpeedLUT options !! layerNr) as [fanSpeed|];
     [destruct (fanSpeed =? 0)|]);
    destruct (layerNr =? InitialTemperatureLayerCount options);
    cbn [fst]; rewrite <- ?app_assoc; simpl;
    (split;
     [intros speed; split;
      [intros H;
       repeat (destruct H as [H|H];
               [try discriminate; try (split; [lia|congruence])|]);
       try contradiction
      |intros [Hlayer Hspeed]; try lia; subst speed;
       repeat (first [left; reflexivity|right])]
     |split;
      [intros H; repeat (destruct H as [H|H]; [try discriminate|]);
       try contradiction; try lia
      |intros H; try lia; repeat (first [left; reflexivity|right])]]).
Qed.

(** [PostLayer.Render] returns nil and leaves the builder untouched on
    every layer but the last.  On the last layer it keeps the calls made
    before and adds the end sequence: both heaters are switched off
    ([M104 S0], [M140 S0]), the X axis is homed ([G28 X0]) and the last
    command switches the steppers off ([M84]). *)
Theorem PostLayer_ends_the_print_on_the_last_layer (b : Builder)
    (layerNr maxLayer : Z) (layer : Modifier.PartitionedLayer) (z : Z)
    (options : Options) :
  let result := PostLayer.Render b layerNr maxLayer layer z options in
  snd result = None
  /\ (layerNr <> maxLayer -> fst result = b)
  /\ (layerNr = maxLayer ->
      exists cmds : list (string * list Z),
        commands (fst result) = commands b ++ cmds
        /\ emits "M104 S0" cmds = true /\ emits "M140 S0" cmds = true
        /\ emits "G28 X0" cmds = true
        /\ last cmds = Some ("M84 ;steppers off", [])).
Proof.
  cbv zeta. unfold PostLayer.Render. cbv zeta. cbn [fst snd].
  split; [reflexivity|]. split.
  - intros Hne. now destruct (Z.eqb_spec layerNr maxLayer).
  - intros ->. rewrite Z.eqb_refl, commands_append.
    eexists. split; [reflexivity|]. repeat split; reflexivity.
Qed.

End RendererMoreProofs.

(** * Properties of the pipeline *)

Module GoSliceProofs.
Import Modifier GoSlice.

Section Handlers.
Context {Models OptimizedModel Layers : Type}.

Local Abbreviation GoSlice := (@GoSlice.GoSlice Models OptimizedModel Layers).
Local Abbreviation LayerModifier := (@GoSlice.LayerModifier OptimizedModel Layers).

Lemma written_app (log log' : list Event) :
  written (log ++ log') = written log ++ written log'.
Proof. apply flat_map_app. Qed.

Lemma applied_app (log log' : list Event) :
  applied (log ++ log') = applied log ++ applied log'.
Proof. apply flat_map_app. Qed.

(** The loop over the modifiers logs the names of the modifiers that
    returned nil, in order, and calls no writer. *)
Lemma applyModifiers_log (optimizedModel : OptimizedModel)
    (modifiers : list LayerModifier) :
  forall layers : Layers,
    let '(log, _, err) := applyModifiers optimizedModel modifiers layers in
    written log = []
    /\ applied log `prefix_of` map GetName modifiers
    /\ (err = None -> applied log = map GetName modifiers).
Proof.
  induction modifiers as [|m rest IH]; intros layers; simpl.
  - split; [reflexivity|]. split; [reflexivity|]. reflexivity.
  - destruct (Modify m optimizedModel layers) as [layers1 [e|]].
    + split; [reflexivity|]. split; [apply prefix_nil|discriminate].
    + specialize (IH layers1).
      destruct (applyModifiers optimizedModel rest layers1)
        as [[log layers2] err].
      destruct IH as [Hw [Hp He]]. simpl.
      split; [exact Hw|]. split.
      * now apply prefix_cons.
      * intros ->. now rewrite He.
Qed.

End Handlers.

(** [Process] calls the writer at most once, and only when reading,
    optimizing, slicing, every modifier and the generator have returned
    nil: then the G-code of the generator is written to [OutputFilePath],
    or to [InputFilePath] with ".gcode" appended when no output path is
    set, never to the empty path, and [Process] returns what the writer
    returns.  In every other case [Process] returns an error and nothing
    is written. *)
Theorem Process_writes_only_after_every_stage
    {Models OptimizedModel Layers : Type}
    (s : @GoSlice.GoSlice Models OptimizedModel Layers) :
  let '(log, err) := Process s in
  (written log = [] /\ err <> None)
  \/ exists (models : Models) (optimizedModel : OptimizedModel)
            (layers modified : Layers) (applied : list Event)
            (finalGcode : string),
       Reader s (InputFilePath s) = (models, None)
       /\ Optimizer s models = (optimizedModel, None)
       /\ Slicer s optimizedModel = (layers, None)
       /\ applyModifiers optimizedModel (Modifiers s) layers
          = (applied, modified, None)
       /\ Generator s optimizedModel modified = (finalGcode, None)
       /\ written log = [(finalGcode, outputPath s)]
       /\ err = Writer s finalGcode (outputPath s)
       /\ outputPath s <> EmptyString
       /\ (OutputFilePath s <> EmptyString -> outputPath s = OutputFilePath s).
Proof.
  unfold Process.
  destruct (Reader s (InputFilePath s)) as [models [e|]] eqn:Hread.
  { left. now split. }
  destruct (Optimizer s models) as [optimizedModel [e|]] eqn:Hopt.
  { left. now split. }
  destruct (Slicer s optimizedModel) as [layers [e|]] eqn:Hslice.
  { left. now split. }
  pose proof (applyModifiers_log optimizedModel (Modifiers s) layers) as Hmods.
  destruct (applyModifiers optimizedModel (Modifiers s) layers)
    as [[log modified] [e|]] eqn:Happly.
  { left. destruct Hmods as [Hw _]. rewrite !written_app, Hw. now split. }
  destruct Hmods as [Hw _].
  destruct (Generator s optimizedModel modified) as [finalGcode [e|]] eqn:Hgen.
  { left. rewrite !written_app, Hw. now split. }
  right. exists models, optimizedModel, layers, modified, log, finalGcode.
  repeat (split; [first [reflexivity|assumption]|]).
  split; [now rewrite !written_app, Hw|].
  split; [reflexivity|].
  unfold outputPath. destruct (String.eqb_spec (OutputFilePath s) EmptyString).
  - split; [|contradiction]. now destruct (InputFilePath s).
  - now split.
Qed.

(** The lines "Modifier %s applied" that [Process] logs name the
    modifiers in the order of [s.Modifiers], from the first one up to the
    one that failed, if any: when [Process] gets as far as the writer
    (in particular when it returns nil), every modifier is named. *)
Theorem Process_logs_the_modifiers_applied
    {Models OptimizedModel Layers : Type}
    (s : @GoSlice.GoSlice Models OptimizedModel Layers) :
  let '(log, err) := Process s in
  applied log `prefix_of` map GetName (Modifiers s)
  /\ (written log <> [] \/ err = None ->
      applied log = map GetName (Modifiers s)).
Proof.
  unfold Process.
  destruct (Reader s (InputFilePath s)) as [models [e|]].
  { split; [apply prefix_nil|]. intros [H|H]; [now elim H|discriminate]. }
  destruct (Optimizer s models) as [optimizedModel [e|]].
  { split; [apply prefix_nil|]. intros [H|H]; [now elim H|discriminate]. }
  destruct (Slicer s optimizedModel) as [layers [e|]].
  { split; [apply prefix_nil|]. intros [H|H]; [now elim H|discriminate]. }
  pose proof (applyModifiers_log optimizedModel (Modifiers s) layers) as Hmods.
  destruct (applyModifiers optimizedModel (Modifiers s) layers)
    as [[log modified] err].
  destruct Hmods as [Hw [Hp He]].
  destruct err as [e|].
  { rewrite !applied_app, !written_app, Hw. simpl. split; [exact Hp|].
    intros [H|H]; [now elim H|discriminate]. }
  specialize (He eq_refl).
  destruct (Generator s optimizedModel modified) as [finalGcode [e|]];
    rewrite !applied_app; simpl; rewrite ?app_nil_r, He; now split.
Qed.

End GoSliceProofs.
